(** * Inlay hints: anchor placement, collection and resolution

    A shallow embedding of [src/vs/editor/contrib/inlayHints/inlayHints.ts]:
    the classes [InlayHintAnchor], [InlayHintItem] and [InlayHintsFragments].

    JavaScript numbers that hold line numbers, columns and offsets are
    integers ([Z]); object identities (hints, items, promises, tokens,
    events) are natural numbers indexing explicit stores. *)

From Stdlib Require Import ZArith Sorting.Sorted.
From stdpp Require Import base decidable option list strings functions sorting.

Local Open Scope Z_scope.

(** ** Editor core: positions and ranges

    [vs/editor/common/core/position] and [vs/editor/common/core/range] are
    imported by the source, not part of it. *)

Record IPosition := mkPosition { lineNumber : Z; column : Z }.

Global Instance IPosition_eq_dec : EqDecision IPosition.
Proof. solve_decision. Defined.

Module Position.

(** Modelled from the spec: [Position.compare] is missing from the sources;
    the spec orders hints by document position, line first, then column.
    The result follows the comparator convention of [Array.prototype.sort]:
    negative, zero or positive. *)
Definition compare (a b : IPosition) : Z :=
  if lineNumber a =? lineNumber b
  then column a - column b
  else lineNumber a - lineNumber b.

(** Modelled from the spec: [Position.isBefore] is missing from the sources;
    strictly before in document order. *)
Definition isBefore (a b : IPosition) : bool :=
  (lineNumber a <? lineNumber b)
  || ((lineNumber a =? lineNumber b) && (column a <? column b)).

End Position.

(** Modelled from the spec: [Range] is missing from the sources; a range is a
    start/end position pair. *)
Record Range := mkRange {
  startLineNumber : Z;
  startColumn : Z;
  endLineNumber : Z;
  endColumn : Z
}.

Global Instance Range_eq_dec : EqDecision Range.
Proof. solve_decision. Defined.

Module Range.

(** Modelled from the spec: the accessors and [fromPositions] are missing
    from the sources; they read and build the start/end pair. *)
Definition getStartPosition (r : Range) : IPosition :=
  mkPosition (startLineNumber r) (startColumn r).

Definition getEndPosition (r : Range) : IPosition :=
  mkPosition (endLineNumber r) (endColumn r).

Definition fromPositions (s e : IPosition) : Range :=
  mkRange (lineNumber s) (column s) (lineNumber e) (column e).

End Range.

(** ** The text model, as far as the source consumes it *)

(** [LineTokens]: the four operations [_getRangeAtPosition] calls. *)
Record LineTokens := mkLineTokens {
  getCount : Z;
  getStartOffset : Z -> Z;
  getEndOffset : Z -> Z;
  findTokenIndexAtOffset : Z -> Z
}.

Record IWordAtPosition := mkWord { wordStartColumn : Z; wordEndColumn : Z }.

(** [ITextModel]: position validation, word lookup and line tokens.
    [tokenizeIfCheap] returns nothing; that it is called shows in the trace
    of model calls below. *)
Record ITextModel := mkTextModel {
  validatePosition : IPosition -> IPosition;
  getWordAtPosition : IPosition -> option IWordAtPosition;
  getLineTokens : Z -> LineTokens
}.

(** The calls a function makes on the text model, in order. *)
Inductive ModelCall :=
| CallGetWordAtPosition (p : IPosition)
| CallTokenizeIfCheap (line : Z)
| CallGetLineTokens (line : Z).

Definition is_tokenization_call (c : ModelCall) : bool :=
  match c with
  | CallGetWordAtPosition _ => false
  | CallTokenizeIfCheap _ | CallGetLineTokens _ => true
  end.

(** ** [InlayHintsFragments._getRangeAtPosition] (lines 129-159) *)

(** The token fallback, lines 140-158, on the tokens of the line. *)
Definition tokenRangeAtOffset (line : Z) (tokens : LineTokens) (offset : Z) : Range :=
  let idx := findTokenIndexAtOffset tokens offset in
  let start := getStartOffset tokens idx in
  let end_ := getEndOffset tokens idx in
  let '(start, end_) :=
    if end_ - start =? 1 then
      if (start =? offset) && (1 <? idx) then
        (getStartOffset tokens (idx - 1), getEndOffset tokens (idx - 1))
      else if (end_ =? offset) && (idx <? getCount tokens - 1) then
        (getStartOffset tokens (idx + 1), getEndOffset tokens (idx + 1))
      else (start, end_)
    else (start, end_) in
  mkRange line (start + 1) line (end_ + 1).

(** The function with the trace of the calls it makes on the model. *)
Definition _getRangeAtPosition_traced (model : ITextModel) (position : IPosition)
  : Range * list ModelCall :=
  let line := lineNumber position in
  match getWordAtPosition model position with
  | Some word =>
      (mkRange line (wordStartColumn word) line (wordEndColumn word),
       [CallGetWordAtPosition position])
  | None =>
      let tokens := getLineTokens model line in
      let offset := column position - 1 in
      (tokenRangeAtOffset line tokens offset,
       [CallGetWordAtPosition position; CallTokenizeIfCheap line; CallGetLineTokens line])
  end.

Definition _getRangeAtPosition (model : ITextModel) (position : IPosition) : Range :=
  fst (_getRangeAtPosition_traced model position).

(** ** Hints, producers and items *)

Definition Error := string.

(** Modelled from the spec: [onUnexpectedExternalError] of
    [vs/base/common/errors] is missing from the sources; the sink accepts an
    error value for out-of-band reporting and never propagates it back to
    the caller that reported it. *)
Definition onUnexpectedExternalError (err : Error) (sink : list Error) : list Error :=
  sink ++ [err].

(** The values a [label] or [tooltip] field holds at run time. *)
Inductive JsVal :=
| JUndefined
| JNull
| JString (s : string)
| JObject (parts : list string).

Global Instance JsVal_eq_dec : EqDecision JsVal.
Proof. solve_decision. Defined.

Definition nullish (v : JsVal) : bool :=
  match v with
  | JUndefined | JNull => true
  | _ => false
  end.

(** [a ?? b] *)
Definition coalesce (a b : JsVal) : JsVal := if nullish a then b else a.

(** A value of length zero: the empty string or the empty array of parts. *)
Definition is_empty (v : JsVal) : bool :=
  match v with
  | JString EmptyString | JObject [] => true
  | _ => false
  end.

(** [InlayHint]: the fields the source reads or writes. *)
Record InlayHint := mkHint {
  position : IPosition;
  label : JsVal;
  tooltip : JsVal
}.

(** Hints are objects shared by reference: an item holds the address of its
    hint in a store of hint objects. *)
Definition HintStore := nat -> InlayHint.

(** [InlayHintList]: the hints of one answer and the identity of the list,
    which is also a disposable. *)
Record InlayHintList := mkHintList { hints : list nat; list_id : nat }.

(** [InlayHintsProvider]: its identity, whether [resolveInlayHint] is a
    function, and the event [onDidChangeInlayHints] when it has one. What a
    call of [provideInlayHints] or [resolveInlayHint] answers is decided by
    the environment, not by this record. *)
Record InlayHintsProvider := mkProvider {
  pid : nat;
  has_resolveInlayHint : bool;
  onDidChangeInlayHints : option nat
}.

Inductive Direction := before | after.

Global Instance Direction_eq_dec : EqDecision Direction.
Proof. solve_decision. Defined.

Record InlayHintAnchor := mkAnchor { range : Range; direction : Direction }.

Record InlayHintItem := mkItem {
  hint : nat;
  anchor : InlayHintAnchor;
  _provider : InlayHintsProvider;
  _isResolved : bool;
  _currentResolve : option nat
}.

(** The constructor, line 24, with the field initialisers of lines 21-22. *)
Definition new_InlayHintItem (h : nat) (a : InlayHintAnchor) (p : InlayHintsProvider)
  : InlayHintItem :=
  {| hint := h; anchor := a; _provider := p;
     _isResolved := false; _currentResolve := None |}.

(** [InlayHintItem.with], lines 26-31. *)
Definition with_ (this : InlayHintItem) (delta_anchor : InlayHintAnchor) : InlayHintItem :=
  {| hint := hint this; anchor := delta_anchor; _provider := _provider this;
     _isResolved := _isResolved this; _currentResolve := _currentResolve this |}.

(** ** Events, emitters and disposables

    [Emitter] and [Event] of [vs/base/common/event] and [DisposableStore] of
    [vs/base/common/lifecycle] are imported by the source, not part of it.
    The world holds, for every event, the listeners subscribed to it. *)

Record Listener := mkListener { l_subscription : nat; l_emitter : nat }.

Inductive Disposable :=
| DisposeList (list : nat)
| Unsubscribe (event : nat) (subscription : nat).

Record World := mkWorld {
  listeners : nat -> list Listener;
  next_subscription : nat;
  next_emitter : nat;
  disposed_emitters : list nat;
  disposed_lists : list nat;
  sink : list Error
}.

(** Modelled from the spec: [new Emitter()] is missing from the sources; the
    fragment set owns one merged emitter, a fresh object. *)
Definition new_Emitter (w : World) : nat * World :=
  (next_emitter w,
   {| listeners := listeners w; next_subscription := next_subscription w;
      next_emitter := S (next_emitter w);
      disposed_emitters := disposed_emitters w;
      disposed_lists := disposed_lists w; sink := sink w |}).

(** Modelled from the spec: the call [event(listener, thisArgs, store)] of
    an [Event] is missing from the sources; it subscribes, so that firings of
    the event are forwarded to [emitter.fire], and hands back the disposable
    that releases the subscription, which the caller's store receives. *)
Definition subscribe (event emitter : nat) (w : World) : Disposable * World :=
  let s := next_subscription w in
  (Unsubscribe event s,
   {| listeners := <[event := listeners w event ++ [mkListener s emitter]]> (listeners w);
      next_subscription := S s;
      next_emitter := next_emitter w;
      disposed_emitters := disposed_emitters w;
      disposed_lists := disposed_lists w; sink := sink w |}).

(** Modelled from the spec: [dispose] of the two kinds of disposables the
    store receives is missing from the sources; a result list is released,
    a subscription is removed from its event. *)
Definition run_dispose (w : World) (d : Disposable) : World :=
  match d with
  | DisposeList l =>
      {| listeners := listeners w; next_subscription := next_subscription w;
         next_emitter := next_emitter w;
         disposed_emitters := disposed_emitters w;
         disposed_lists := disposed_lists w ++ [l]; sink := sink w |}
  | Unsubscribe event s =>
      {| listeners :=
           <[event := filter (fun l => l_subscription l <> s) (listeners w event)]>
             (listeners w);
         next_subscription := next_subscription w;
         next_emitter := next_emitter w;
         disposed_emitters := disposed_emitters w;
         disposed_lists := disposed_lists w; sink := sink w |}
  end.

(** Modelled from the spec: [Emitter.dispose] is missing from the sources;
    the merged emitter is released. *)
Definition Emitter_dispose (emitter : nat) (w : World) : World :=
  {| listeners := listeners w; next_subscription := next_subscription w;
     next_emitter := next_emitter w;
     disposed_emitters := disposed_emitters w ++ [emitter];
     disposed_lists := disposed_lists w; sink := sink w |}.

(** Modelled from the spec: firing is missing from the sources; firing the
    event of a producer calls its listeners: the emitters whose [fire] is
    called, one entry per listener. *)
Definition fire_event (event : nat) (w : World) : list nat :=
  map l_emitter (listeners w event).

(** ** [Array.prototype.sort] *)

Section ArraySort.
Context {A : Type} (cmp : A -> A -> Z).

Fixpoint sort_insert (x : A) (l : list A) : list A :=
  match l with
  | [] => [x]
  | y :: l' => if 0 <? cmp x y then y :: sort_insert x l' else x :: y :: l'
  end.

(** Modelled from the spec: the sort is the runtime's, missing from the
    sources; the spec requires a stable sort by the comparator. Every
    element is put before the first later element it does not exceed. *)
Definition Array_sort (l : list A) : list A := foldr sort_insert [] l.

(** Ordered by the comparator, with [R] between elements that compare
    equal. *)
Definition tie_broken (R : A -> A -> Prop) (x y : A) : Prop :=
  cmp x y < 0 \/ (cmp x y = 0 /\ R x y).
End ArraySort.

(** ** [InlayHintsFragments] *)

Record InlayHintsFragments := mkFragments {
  _disposables : list Disposable;
  _onDidChange : nat;
  items : list InlayHintItem
}.

(** Lines 101-113: the anchor of one hint. *)
Definition anchor_of (H : HintStore) (model : ITextModel) (h : nat) : InlayHintAnchor :=
  let position := validatePosition model (position (H h)) in
  let wordRange := _getRangeAtPosition model position in
  if Position.isBefore (Range.getStartPosition wordRange) position
  then mkAnchor (Range.fromPositions (Range.getStartPosition wordRange) position) after
  else mkAnchor (Range.fromPositions position (Range.getEndPosition wordRange)) before.

(** What the loop of lines 96-120 carries from one pair to the next. *)
Record Building := mkBuilding {
  b_items : list InlayHintItem;
  b_disposables : list Disposable;
  b_world : World
}.

(** One round of the loop, for one [[list, provider]] pair. *)
Definition build_pair (H : HintStore) (model : ITextModel) (emitter : nat)
    (b : Building) (entry : InlayHintList * InlayHintsProvider) : Building :=
  let '(list, provider) := entry in
  let disposables := b_disposables b ++ [DisposeList (list_id list)] in
  let items :=
    b_items b ++ map (fun h => new_InlayHintItem h (anchor_of H model h) provider) (hints list) in
  match onDidChangeInlayHints provider with
  | Some event =>
      let '(d, w) := subscribe event emitter (b_world b) in
      mkBuilding items (disposables ++ [d]) w
  | None => mkBuilding items disposables (b_world b)
  end.

(** The comparator of line 121. *)
Definition compare_items (H : HintStore) (a b : InlayHintItem) : Z :=
  Position.compare (position (H (hint a))) (position (H (hint b))).

(** The private constructor, lines 88-122. *)
Definition new_InlayHintsFragments (H : HintStore)
    (data : list (InlayHintList * InlayHintsProvider)) (model : ITextModel) (w : World)
  : InlayHintsFragments * World :=
  let '(emitter, w0) := new_Emitter w in
  let b := fold_left (build_pair H model emitter) data (mkBuilding [] [] w0) in
  (mkFragments (b_disposables b) emitter (Array_sort (compare_items H) (b_items b)),
   b_world b).

(** [dispose], lines 124-127. *)
Definition dispose (this : InlayHintsFragments) (w : World) : World :=
  fold_left run_dispose (_disposables this) (Emitter_dispose (_onDidChange this) w).

(** *** [InlayHintsFragments.create] (lines 68-86)

    All calls are launched first, in the order of [promises.flat()]; each
    one continues when the producer's answer arrives. The environment
    decides the answer of every call and the order in which the answers
    arrive. *)

(** The (producer, range) calls in launch order, line 72. *)
Definition launch (ordered : list InlayHintsProvider) (ranges : list Range)
  : list (InlayHintsProvider * Range) :=
  flat_map (fun provider => map (fun range => (provider, range)) ranges) (reverse ordered).

(** The answer of one [provideInlayHints] call: thrown or rejected with an
    error, or a result, [None] for [null] and [undefined]. *)
Definition Answer := (Error + option InlayHintList)%type.

Record Collecting := mkCollecting {
  settled : list nat;
  data : list (InlayHintList * InlayHintsProvider);
  reported : list Error
}.

(** [result?.hints.length] as a condition. *)
Definition has_hints (result : option InlayHintList) : option InlayHintList :=
  match result with
  | Some l => if bool_decide (hints l = []) then None else Some l
  | None => None
  end.

(** Lines 73-80: the rest of call [k] once its answer is there. A call
    settles once. *)
Definition settle (calls : list (InlayHintsProvider * Range)) (answer : nat -> Answer)
    (c : Collecting) (k : nat) : Collecting :=
  match calls !! k with
  | None => c
  | Some (provider, _) =>
      if bool_decide (k ∈ settled c) then c
      else
        match answer k with
        | inl err =>
            mkCollecting (k :: settled c) (data c) (onUnexpectedExternalError err (reported c))
        | inr result =>
            match has_hints result with
            | Some l => mkCollecting (k :: settled c) (data c ++ [(l, provider)]) (reported c)
            | None => mkCollecting (k :: settled c) (data c) (reported c)
            end
        end
  end.

Definition all_settled (n : nat) (c : Collecting) : bool :=
  forallb (fun k => bool_decide (k ∈ settled c)) (seq 0 n).

(** The collection of lines 70-83 once the answers listed in [schedule] have
    arrived. *)
Definition collect (ordered : list InlayHintsProvider) (ranges : list Range)
    (answer : nat -> Answer) (schedule : list nat) (sink0 : list Error) : Collecting :=
  fold_left (settle (launch ordered ranges) answer) schedule (mkCollecting [] [] sink0).

(** [create]: [schedule] lists the calls in the order their answers arrive.
    The result is there once [Promise.all] is, that is once every call has
    settled. The token is only handed on to the producers. *)
Definition create (H : HintStore) (ordered : list InlayHintsProvider) (model : ITextModel)
    (ranges : list Range) (answer : nat -> Answer) (schedule : list nat) (w : World)
  : option (InlayHintsFragments * World) :=
  let c := collect ordered ranges answer schedule (sink w) in
  if all_settled (length (launch ordered ranges)) c then
    Some (new_InlayHintsFragments H (data c) model
            {| listeners := listeners w; next_subscription := next_subscription w;
               next_emitter := next_emitter w;
               disposed_emitters := disposed_emitters w;
               disposed_lists := disposed_lists w; sink := reported c |})
  else None.

(** ** [InlayHintItem.resolve]: the asynchronous state machine

    The program runs on one thread; an [await] hands control back and the
    function continues in a later turn. The state holds the objects the
    code touches; an event is one uninterrupted turn. Which turn runs next
    is the environment's choice. *)

Inductive Completion := Normal | Abrupt (err : Error).

(** Where the operation [_doResolve(token).finally(...)] of line 47 stands. *)
Inductive Phase :=
| Running
| BodyDone (c : Completion)
| Settled (c : Completion).

(** One such operation: [owner] is the item [this] refers to in
    [_doResolve] and in the callback of [finally]. *)
Record Operation := mkOp { owner : nat; phase : Phase }.

(** Where a call of [resolve] stands. *)
Inductive Pc :=
| AwaitRetry (p : nat)
| AwaitFinal (p : option nat)
| Returned
| Threw (err : Error).

Record Task := mkTask { t_item : nat; t_token : nat; t_pc : Pc }.

(** One call of [provider.resolveInlayHint(hint, token)]. *)
Record ResolveCall := mkCall { c_provider : nat; c_hint : nat; c_token : nat }.

Record State := mkState {
  st_hints : HintStore;
  st_items : list InlayHintItem;
  st_promises : list Operation;
  st_tasks : list Task;
  st_cancelled : list nat;
  st_calls : list ResolveCall;
  st_sink : list Error
}.

Definition set_hints (f : HintStore -> HintStore) (s : State) : State :=
  mkState (f (st_hints s)) (st_items s) (st_promises s) (st_tasks s)
    (st_cancelled s) (st_calls s) (st_sink s).
Definition set_items (f : list InlayHintItem -> list InlayHintItem) (s : State) : State :=
  mkState (st_hints s) (f (st_items s)) (st_promises s) (st_tasks s)
    (st_cancelled s) (st_calls s) (st_sink s).
Definition set_promises (f : list Operation -> list Operation) (s : State) : State :=
  mkState (st_hints s) (st_items s) (f (st_promises s)) (st_tasks s)
    (st_cancelled s) (st_calls s) (st_sink s).
Definition set_tasks (f : list Task -> list Task) (s : State) : State :=
  mkState (st_hints s) (st_items s) (st_promises s) (f (st_tasks s))
    (st_cancelled s) (st_calls s) (st_sink s).
Definition set_cancelled (f : list nat -> list nat) (s : State) : State :=
  mkState (st_hints s) (st_items s) (st_promises s) (st_tasks s)
    (f (st_cancelled s)) (st_calls s) (st_sink s).
Definition set_calls (f : list ResolveCall -> list ResolveCall) (s : State) : State :=
  mkState (st_hints s) (st_items s) (st_promises s) (st_tasks s)
    (st_cancelled s) (f (st_calls s)) (st_sink s).
Definition set_sink (f : list Error -> list Error) (s : State) : State :=
  mkState (st_hints s) (st_items s) (st_promises s) (st_tasks s)
    (st_cancelled s) (st_calls s) (f (st_sink s)).

Definition set_isResolved (b : bool) (it : InlayHintItem) : InlayHintItem :=
  mkItem (hint it) (anchor it) (_provider it) b (_currentResolve it).
Definition set_currentResolve (p : option nat) (it : InlayHintItem) : InlayHintItem :=
  mkItem (hint it) (anchor it) (_provider it) (_isResolved it) p.
Definition set_tooltip (v : JsVal) (h : InlayHint) : InlayHint :=
  mkHint (position h) (label h) v.
Definition set_label (v : JsVal) (h : InlayHint) : InlayHint :=
  mkHint (position h) v (tooltip h).
Definition set_phase (ph : Phase) (o : Operation) : Operation := mkOp (owner o) ph.
Definition set_pc (pc : Pc) (t : Task) : Task := mkTask (t_item t) (t_token t) pc.

(** *** A state monad with exceptions, for the body of [_doResolve] *)

Definition M (A : Type) : Type := State -> (Error + A) * State.

Definition ret {A} (a : A) : M A := fun s => (inr a, s).
Definition throw {A} (err : Error) : M A := fun s => (inl err, s).
Definition bind {A B} (m : M A) (k : A -> M B) : M B :=
  fun s => match m s with
           | (inr a, s') => k a s'
           | (inl err, s') => (inl err, s')
           end.
Definition try_catch {A} (m : M A) (handler : Error -> M A) : M A :=
  fun s => match m s with
           | (inr a, s') => (inr a, s')
           | (inl err, s') => handler err s'
           end.
Definition modify (f : State -> State) : M unit := fun s => (inr tt, f s).

Global Instance M_ret : MRet M := @ret.
Global Instance M_bind : MBind M := fun A B k m => bind m k.

(** [await Promise.resolve(...)] once the producer has answered: the value,
    or the error thrown at the [await]. *)
Definition awaited (answer : Error + option InlayHint) : M (option InlayHint) :=
  match answer with
  | inl err => throw err
  | inr newHint => ret newHint
  end.

(** [newHint?.tooltip] and [newHint?.label] *)
Definition opt_tooltip (newHint : option InlayHint) : JsVal :=
  from_option tooltip JUndefined newHint.
Definition opt_label (newHint : option InlayHint) : JsVal :=
  from_option label JUndefined newHint.

(** [_doResolve], lines 53-63, from the [await] of line 55 on. [this] is the
    item, [h] the address of [this.hint]. *)
Definition _doResolve_resume (this h : nat) (answer : Error + option InlayHint) : M unit :=
  try_catch
    (newHint ← awaited answer;
     modify (fun s => set_hints
       <[h := set_tooltip (coalesce (opt_tooltip newHint) (tooltip (st_hints s h))) (st_hints s h)]> s);;
     modify (fun s => set_hints
       <[h := set_label (coalesce (opt_label newHint) (label (st_hints s h))) (st_hints s h)]> s);;
     modify (set_items (alter (set_isResolved true) this)))
    (fun err =>
     modify (set_sink (onUnexpectedExternalError err));;
     modify (set_items (alter (set_isResolved false) this))).

Definition completion_of {A} (r : Error + A) : Completion :=
  match r with
  | inl err => Abrupt err
  | inr _ => Normal
  end.

(** [_doResolve], line 55, up to its [await]: the producer is called with
    the hint and the token. *)
Definition _doResolve_call (it : InlayHintItem) (token : nat) (s : State) : State :=
  set_calls (fun cs => cs ++ [mkCall (pid (_provider it)) (hint it) token]) s.

(** Line 47 for the item [this], whose record is [it]: [_doResolve] runs up
    to its [await], the operation with its [finally] is created, and its
    handle is stored in [_currentResolve]. *)
Definition started (this token : nat) (it : InlayHintItem) (s : State) : State :=
  set_items (alter (set_currentResolve (Some (length (st_promises s)))) this)
    (set_promises (fun ps => ps ++ [mkOp this Running])
       (_doResolve_call it token s)).

(** [resolve], lines 33-51, up to its first [await] or [return]. The result
    says where the call stands. The producer does not call back into
    [resolve] while it is being called. *)
Definition resolve (this token : nat) (s : State) : option (Pc * State) :=
  it ← st_items s !! this;
  if negb (has_resolveInlayHint (_provider it)) then Some (Returned, s)
  else
    match _currentResolve it with
    | Some p => Some (AwaitRetry p, s)
    | None =>
        if negb (_isResolved it)
        then Some (AwaitFinal (Some (length (st_promises s))), started this token it s)
        else Some (AwaitFinal None, s)
    end.

(** The turns of the system. A caller calls [resolve] on an item with a
    token; the producer answers the call of an operation with an error
    (thrown at the call or rejected later) or with a result, [None] for
    [null] and [undefined]; the callback of [finally] runs; a call of
    [resolve] continues after its [await]; a token is cancelled; [with] is
    called on an item. *)
Inductive Event :=
| EResolve (item token : nat)
| EAnswer (p : nat) (answer : Error + option InlayHint)
| EFinally (p : nat)
| EResume (task : nat)
| ECancel (token : nat)
| EWith (item : nat) (delta_anchor : InlayHintAnchor).

(** What an [await] on promise [p] gives once [p] is settled. *)
Definition settlement (s : State) (p : nat) : option Completion :=
  match st_promises s !! p with
  | Some (mkOp _ (Settled c)) => Some c
  | _ => None
  end.

Definition step (e : Event) (s : State) : State :=
  match e with
  | EResolve item token =>
      (* a caller calls [item.resolve(token)] *)
      match resolve item token s with
      | Some (pc, s') => set_tasks (fun ts => ts ++ [mkTask item token pc]) s'
      | None => s
      end
  | EAnswer p answer =>
      (* the producer's answer arrives: [_doResolve] runs to its end *)
      match st_promises s !! p with
      | Some (mkOp this Running) =>
          match st_items s !! this with
          | Some it =>
              let '(r, s') := _doResolve_resume this (hint it) answer s in
              set_promises (alter (set_phase (BodyDone (completion_of r))) p) s'
          | None => s
          end
      | _ => s
      end
  | EFinally p =>
      (* the callback of [finally], line 48, then the handle settles *)
      match st_promises s !! p with
      | Some (mkOp this (BodyDone c)) =>
          set_promises (alter (set_phase (Settled c)) p)
            (set_items (alter (set_currentResolve None) this) s)
      | _ => s
      end
  | EResume t =>
      match st_tasks s !! t with
      | Some (mkTask item token (AwaitRetry p)) =>
          (* lines 41-44 *)
          match settlement s p with
          | Some Normal =>
              if bool_decide (token ∈ st_cancelled s)
              then set_tasks (alter (set_pc Returned) t) s
              else
                match resolve item token s with
                | Some (pc, s') => set_tasks (alter (set_pc pc) t) s'
                | None => s
                end
          | Some (Abrupt err) => set_tasks (alter (set_pc (Threw err)) t) s
          | None => s
          end
      | Some (mkTask item token (AwaitFinal (Some p))) =>
          (* after line 50 *)
          match settlement s p with
          | Some Normal => set_tasks (alter (set_pc Returned) t) s
          | Some (Abrupt err) => set_tasks (alter (set_pc (Threw err)) t) s
          | None => s
          end
      | Some (mkTask item token (AwaitFinal None)) =>
          set_tasks (alter (set_pc Returned) t) s
      | _ => s
      end
  | ECancel token => set_cancelled (fun c => token :: c) s
  | EWith item delta_anchor =>
      match st_items s !! item with
      | Some it => set_items (fun its => its ++ [with_ it delta_anchor]) s
      | None => s
      end
  end.

Definition run (evs : list Event) (s : State) : State :=
  fold_left (fun s e => step e s) evs s.

(** The state in which items have just been constructed. *)
Definition init (H : HintStore) (news : list (nat * InlayHintAnchor * InlayHintsProvider))
  : State :=
  mkState H (map (fun '(h, a, p) => new_InlayHintItem h a p) news) [] [] [] [] [].

Definition reachable (s : State) : Prop :=
  exists H news evs, s = run evs (init H news).

(** ** Vocabulary of the properties *)

(** The items of one [[list, provider]] pair, in the order of the hints. *)
Definition items_of_pair (H : HintStore) (model : ITextModel)
    (entry : InlayHintList * InlayHintsProvider) : list InlayHintItem :=
  map (fun h => new_InlayHintItem h (anchor_of H model h) (snd entry)) (hints (fst entry)).

(** The items in the order of collection, before the sort. *)
Definition collected_items (H : HintStore) (model : ITextModel)
    (data : list (InlayHintList * InlayHintsProvider)) : list InlayHintItem :=
  flat_map (items_of_pair H model) data.

(** The hints call [k] answered, none when it failed. *)
Definition answered_hints (answer : nat -> Answer) (k : nat) : list nat :=
  match answer k with
  | inr (Some l) => hints l
  | _ => []
  end.

(** The error call [k] failed with, if it did. *)
Definition answered_error (answer : nat -> Answer) (k : nat) : list Error :=
  match answer k with
  | inl err => [err]
  | inr _ => []
  end.

(** What holds of a collection at every moment: a call settles once, and
    what has been collected and reported is what the settled calls answered. *)
Definition collect_inv (calls : list (InlayHintsProvider * Range)) (answer : nat -> Answer)
    (sink0 : list Error) (c : Collecting) : Prop :=
  NoDup (settled c) /\
  (forall k, k ∈ settled c -> (k < length calls)%nat) /\
  flat_map (fun entry => hints (fst entry)) (data c)
    ≡ₚ flat_map (answered_hints answer) (settled c) /\
  reported c ≡ₚ sink0 ++ flat_map (answered_error answer) (settled c).

(** The place of a producer in the registry's order, by identity. *)
Definition priority (ordered : list InlayHintsProvider) (p : InlayHintsProvider) : nat :=
  from_option fst (length ordered) (list_find (fun q => pid q = pid p) ordered).

Definition hint_position (H : HintStore) (it : InlayHintItem) : IPosition :=
  position (H (hint it)).

(** Among items at one position, those of producers earlier in the
    registry's order come first. *)
Definition earlier_first (H : HintStore) (ordered : list InlayHintsProvider)
    (its : list InlayHintItem) : Prop :=
  forall (i j : nat) (a b : InlayHintItem),
    (i < j)%nat -> its !! i = Some a -> its !! j = Some b ->
    hint_position H a = hint_position H b ->
    (priority ordered (_provider a) <= priority ordered (_provider b))%nat.

(** Among items at one position, those of producers later in the registry's
    order come first. *)
Definition later_first (H : HintStore) (ordered : list InlayHintsProvider)
    (its : list InlayHintItem) : Prop :=
  forall (i j : nat) (a b : InlayHintItem),
    (i < j)%nat -> its !! i = Some a -> its !! j = Some b ->
    hint_position H a = hint_position H b ->
    (priority ordered (_provider b) <= priority ordered (_provider a))%nat.

(** No listener of the world refers to a subscription or an emitter that is
    yet to be created. *)
Definition world_wf (w : World) : Prop :=
  forall (event : nat) (l : Listener),
    l ∈ listeners w event ->
    (l_subscription l < next_subscription w)%nat /\ (l_emitter l < next_emitter w)%nat.

(** How many times firing [event] calls [fire] of [emitter]. *)
Definition forwards (emitter event : nat) (w : World) : nat :=
  length (filter (fun e => e = emitter) (fire_event event w)).

(** What holds of the world and the store of disposables throughout the
    loop of the constructor, [w0] being the world it started in and
    [emitter] its emitter: the old listeners stay, every new listener calls
    [emitter] and its subscription is in the store. *)
Definition build_inv (emitter : nat) (w0 : World) (b : Building) : Prop :=
  (next_subscription w0 <= next_subscription (b_world b))%nat /\
  (forall ev l, l ∈ listeners w0 ev -> l ∈ listeners (b_world b) ev) /\
  (forall ev l, l ∈ listeners (b_world b) ev ->
     l ∈ listeners w0 ev \/
     (l_emitter l = emitter /\ Unsubscribe ev (l_subscription l) ∈ b_disposables b)) /\
  (forall ev s, Unsubscribe ev s ∈ b_disposables b ->
     (next_subscription w0 <= s < next_subscription (b_world b))%nat).

(** What else happens to the world: other fragment sets are constructed
    and disposed. *)
Inductive WorldOp :=
| OpConstruct (H : HintStore) (data : list (InlayHintList * InlayHintsProvider))
    (model : ITextModel)
| OpDispose (f : InlayHintsFragments).

Definition apply_op (w : World) (op : WorldOp) : World :=
  match op with
  | OpConstruct H data model => snd (new_InlayHintsFragments H data model w)
  | OpDispose f => dispose f w
  end.

(** No listener calls [emitter], and [emitter] is not a future emitter. *)
Definition silent (emitter : nat) (w : World) : Prop :=
  (emitter < next_emitter w)%nat /\
  forall ev l, l ∈ listeners w ev -> l_emitter l <> emitter.

(** The events the pairs of [data] subscribe to, one entry per pair. *)
Definition subscribed_events (data : list (InlayHintList * InlayHintsProvider)) : list nat :=
  omap (fun entry => onDidChangeInlayHints (snd entry)) data.

(** ** Concrete documents *)

(** Modelled from the spec: [LineTokens] is missing from the sources; the
    tokens of a line lie end to end from offset 0, and the token at an
    offset is the one whose span contains it (the last token for an offset
    past the end). A line is given by the end offsets of its tokens. *)
Definition tokens_of_ends (ends : list Z) : LineTokens :=
  {| getCount := Z.of_nat (length ends);
     getStartOffset := fun i =>
       if i <=? 0 then 0 else nth (Z.to_nat (i - 1)) ends 0;
     getEndOffset := fun i => nth (Z.to_nat i) ends 0;
     findTokenIndexAtOffset := fun offset =>
       match list_find (fun e => offset < e) ends with
       | Some (i, _) => Z.of_nat i
       | None => Z.of_nat (length ends) - 1
       end |}.

(** A one-line document given by its words (start and end column of each)
    and the end offsets of its tokens. A word is found at a position inside
    it or at one of its two edges. *)
Definition one_line_model (words : list (Z * Z)) (ends : list Z) : ITextModel :=
  {| validatePosition := fun p => p;
     getWordAtPosition := fun p =>
       if lineNumber p =? 1 then
         match list_find (fun w => fst w <= column p /\ column p <= snd w) words with
         | Some (_, w) => Some (mkWord (fst w) (snd w))
         | None => None
         end
       else None;
     getLineTokens := fun _ => tokens_of_ends ends |}.

(** The line ["a".b]: the string ["a"] is one token of three characters,
    then the dot, then [b]; the words are [a] and [b]. *)
Definition quoted_line : ITextModel := one_line_model [(2, 3); (5, 6)] [3; 4; 5].

(** The line [foo. bar] with the tokens [foo], [.] and [ bar]. *)
Definition foo_bar_tokens : LineTokens := tokens_of_ends [3; 4; 8].

(** The line [foo.bar] held as one token of seven characters, with the two
    words [foo] and [bar]. *)
Definition one_token_line : ITextModel := one_line_model [(1, 4); (5, 8)] [7].

(** ** Concrete collections *)

Definition blank_world : World := mkWorld (fun _ => []) 0 0 [] [] [].

(** Three producers in the registry's order; only [PB] and [PC] have a
    change event. *)
Definition PA : InlayHintsProvider := mkProvider 0 true None.
Definition PB : InlayHintsProvider := mkProvider 1 true (Some 0%nat).
Definition PC : InlayHintsProvider := mkProvider 2 false (Some 1%nat).

Definition whole_line : Range := mkRange 1 1 1 9.

(** Hints 0 and 1 sit at line 1, column 5; every other hint at line 1,
    column 8. *)
Definition some_hints : HintStore :=
  fun h => mkHint (mkPosition 1 (if (h <? 2)%nat then 5 else 8)) (JString "hint") JUndefined.

(** [PA] and [PB] asked for one range. [PB] is called first and answers
    hint 1; [PA] is called second and answers hint 0. *)
Definition tie_answer : nat -> Answer :=
  fun k => match k with
           | O => inr (Some (mkHintList [1%nat] 11))
           | _ => inr (Some (mkHintList [0%nat] 10))
           end.

(** [PA], [PB] and [PC] asked for one range, called in the order [PC],
    [PB], [PA]: [PC] fails, [PB] answers hint 1, [PA] answers hints 2 and
    0. *)
Definition mixed_answer : nat -> Answer :=
  fun k => match k with
           | O => inl "boom"%string
           | S O => inr (Some (mkHintList [1%nat] 11))
           | _ => inr (Some (mkHintList [2%nat; 0%nat] 10))
           end.

(** [PB] asked for one range answers a list without hints. *)
Definition empty_answer : nat -> Answer :=
  fun _ => inr (Some (mkHintList [] 11)).

(** ** Vocabulary of the resolution properties *)

(** An operation is in flight until its handle settles. *)
Definition is_in_flight (o : Operation) : bool :=
  match phase o with
  | Settled _ => false
  | _ => true
  end.

(** The handle of every operation in flight is the [_currentResolve] of the
    item that started it. *)
Definition single_flight (s : State) : Prop :=
  forall p o, st_promises s !! p = Some o -> is_in_flight o = true ->
    exists it, st_items s !! owner o = Some it /\ _currentResolve it = Some p.

(** No item has two operations in flight. *)
Definition at_most_one_in_flight (s : State) : Prop :=
  forall p q o o',
    st_promises s !! p = Some o -> st_promises s !! q = Some o' ->
    is_in_flight o = true -> is_in_flight o' = true ->
    owner o = owner o' -> p = q.

Definition op_normal (o : Operation) : Prop :=
  match phase o with
  | BodyDone (Abrupt _) | Settled (Abrupt _) => False
  | _ => True
  end.

Definition task_normal (t : Task) : Prop :=
  match t_pc t with
  | Threw _ => False
  | _ => True
  end.

(** No operation has failed and no call of [resolve] has thrown. *)
Definition never_thrown (s : State) : Prop :=
  Forall op_normal (st_promises s) /\ Forall task_normal (st_tasks s).

(** Operations are started by items that exist. *)
Definition owners_exist (s : State) : Prop :=
  Forall (fun o => (owner o < length (st_items s))%nat) (st_promises s).

(** The item [c] holds the handle [p], its producer can resolve, and no
    operation is its own. *)
Definition stale_copy (c p : nat) (s : State) : Prop :=
  (exists it, st_items s !! c = Some it /\ _currentResolve it = Some p /\
              has_resolveInlayHint (_provider it) = true) /\
  Forall (fun o => owner o <> c) (st_promises s).

(** The call [t] of [resolve] on [c] with [token] waits for [p], unless the
    token is cancelled. *)
Definition waits_forever (c p t token : nat) (s : State) : Prop :=
  token ∈ st_cancelled s \/ st_tasks s !! t = Some (mkTask c token (AwaitRetry p)).

(** ** Concrete items *)

Definition an_anchor : InlayHintAnchor := mkAnchor (mkRange 1 1 1 5) after.
Definition other_anchor : InlayHintAnchor := mkAnchor (mkRange 1 5 1 9) before.

(** One item of [PA] for hint 0, just constructed. *)
Definition one_item : State := init some_hints [(0%nat, an_anchor, PA)].

(** A producer's answer with an empty label and an empty tooltip. *)
Definition empty_fields : option InlayHint :=
  Some (mkHint (mkPosition 1 5) (JString EmptyString) (JString EmptyString)).

(** ** Vocabulary of the further properties *)

(** What call [k] adds to [data] when its answer arrives. *)
Definition collected_entry (calls : list (InlayHintsProvider * Range))
    (answer : nat -> Answer) (k : nat) : list (InlayHintList * InlayHintsProvider) :=
  match calls !! k with
  | Some (provider, _) =>
      match answer k with
      | inr result =>
          match has_hints result with
          | Some l => [(l, provider)]
          | None => []
          end
      | inl _ => []
      end
  | None => []
  end.

(** The hints call [k] answered, each with the producer that was called. *)
Definition answered_pairs (calls : list (InlayHintsProvider * Range))
    (answer : nat -> Answer) (k : nat) : list (nat * InlayHintsProvider) :=
  match calls !! k with
  | Some (provider, _) => map (fun h => (h, provider)) (answered_hints answer k)
  | None => []
  end.

(** The world with another content of the error sink. *)
Definition with_sink (w : World) (errors : list Error) : World :=
  {| listeners := listeners w; next_subscription := next_subscription w;
     next_emitter := next_emitter w;
     disposed_emitters := disposed_emitters w;
     disposed_lists := disposed_lists w; sink := errors |}.

(** A schedule in which every call settles, each once. *)
Definition complete_schedule (n : nat) (schedule : list nat) : Prop :=
  NoDup schedule /\ forall k, k ∈ schedule <-> (k < n)%nat.

(** An item as the constructor leaves it. *)
Definition fresh_item (it : InlayHintItem) : Prop :=
  _isResolved it = false /\ _currentResolve it = None.

(** The result lists a store of disposables holds, in the order they were
    added. *)
Definition held_lists (ds : list Disposable) : list nat :=
  flat_map (fun d => match d with DisposeList l => [l] | Unsubscribe _ _ => [] end) ds.

(** The hints of one pair, each with the pair's producer. *)
Definition pairs_of_entry (entry : InlayHintList * InlayHintsProvider)
  : list (nat * InlayHintsProvider) :=
  map (fun h => (h, snd entry)) (hints (fst entry)).

(** [PA] and [PC] asked for two ranges, called in the order [PC], [PC],
    [PA], [PA]: [PC] answers nothing, [PA] answers hint 0 for the first range
    and hint 2 for the second. *)
Definition apart_answer : nat -> Answer :=
  fun k => match k with
           | 2%nat => inr (Some (mkHintList [0%nat] 10))
           | 3%nat => inr (Some (mkHintList [2%nat] 12))
           | _ => inr None
           end.

(** An operation that still awaits the producer's answer belongs to an
    item that is not resolved. *)
Definition running_unresolved (s : State) : Prop :=
  forall p o, st_promises s !! p = Some o -> phase o = Running ->
    exists it, st_items s !! owner o = Some it /\ _isResolved it = false.

(** Every operation has its call of the producer: the [k]-th operation was
    started by an existing item whose producer can resolve, and the [k]-th
    call is the one for that item's hint and producer. Every handle refers
    to an operation. *)
Definition operations_sound (s : State) : Prop :=
  length (st_calls s) = length (st_promises s) /\
  (forall k o, st_promises s !! k = Some o ->
     exists it call,
       st_items s !! owner o = Some it /\
       has_resolveInlayHint (_provider it) = true /\
       st_calls s !! k = Some call /\
       c_hint call = hint it /\ c_provider call = pid (_provider it)) /\
  (forall i it p, st_items s !! i = Some it -> _currentResolve it = Some p ->
     (p < length (st_promises s))%nat).

(** The items of producers that cannot resolve are as their constructor left
    them. *)
Definition idle_without_resolver (s : State) : Prop :=
  forall i it, st_items s !! i = Some it ->
    has_resolveInlayHint (_provider it) = false -> fresh_item it.

(** What one turn does to the items, the operations and the calls: nothing;
    or an operation is started; or the producer's answer is taken in; or the
    callback of [finally] runs; or an item is copied. *)
Definition turn_shape (s s' : State) : Prop :=
  (st_items s' = st_items s /\ st_promises s' = st_promises s /\
   st_calls s' = st_calls s) \/
  (exists this token it,
     st_items s !! this = Some it /\
     has_resolveInlayHint (_provider it) = true /\
     _currentResolve it = None /\ _isResolved it = false /\
     st_items s' = alter (set_currentResolve (Some (length (st_promises s)))) this (st_items s) /\
     st_promises s' = st_promises s ++ [mkOp this Running] /\
     st_calls s' = st_calls s ++ [mkCall (pid (_provider it)) (hint it) token]) \/
  (exists p this it b,
     st_promises s !! p = Some (mkOp this Running) /\
     st_items s !! this = Some it /\
     st_items s' = alter (set_isResolved b) this (st_items s) /\
     st_promises s' = alter (set_phase (BodyDone Normal)) p (st_promises s) /\
     st_calls s' = st_calls s) \/
  (exists p this c,
     st_promises s !! p = Some (mkOp this (BodyDone c)) /\
     st_items s' = alter (set_currentResolve None) this (st_items s) /\
     st_promises s' = alter (set_phase (Settled c)) p (st_promises s) /\
     st_calls s' = st_calls s) \/
  (exists this it a,
     st_items s !! this = Some it /\
     st_items s' = st_items s ++ [with_ it a] /\
     st_promises s' = st_promises s /\ st_calls s' = st_calls s).

(** [PA] asked for two overlapping ranges answers the hint 0 both times,
    in a list of its own each time. *)
Definition twice_answer : nat -> Answer :=
  fun k => inr (Some (mkHintList [0%nat] (10 + k))).

(** * Properties *)

(** ** Anchor placement *)

Lemma isBefore_irrefl (p : IPosition) : Position.isBefore p p = false.
Proof.
  unfold Position.isBefore.
  rewrite !Z.ltb_irrefl, andb_false_r. reflexivity.
Qed.

Lemma isBefore_spec (a b : IPosition) :
  Position.isBefore a b = true <->
  lineNumber a < lineNumber b \/ (lineNumber a = lineNumber b /\ column a < column b).
Proof.
  unfold Position.isBefore.
  rewrite orb_true_iff, andb_true_iff, !Z.ltb_lt, Z.eqb_eq. reflexivity.
Qed.

Lemma isBefore_compare (a b : IPosition) :
  Position.isBefore a b = true <-> Position.compare a b < 0.
Proof.
  rewrite isBefore_spec. unfold Position.compare.
  destruct (Z.eqb_spec (lineNumber a) (lineNumber b)); lia.
Qed.

(** The shift to the leading token happens from the third token on. *)
Lemma tokenRange_leading (line : Z) (tokens : LineTokens) (offset : Z) :
  let idx := findTokenIndexAtOffset tokens offset in
  getEndOffset tokens idx - getStartOffset tokens idx = 1 ->
  getStartOffset tokens idx = offset ->
  1 < idx ->
  tokenRangeAtOffset line tokens offset =
    mkRange line (getStartOffset tokens (idx - 1) + 1) line (getEndOffset tokens (idx - 1) + 1).
Proof.
  intros idx Hone Hstart Hidx. unfold tokenRangeAtOffset. fold idx.
  rewrite Hone, Z.eqb_refl.
  rewrite (proj2 (Z.eqb_eq _ _) Hstart), (proj2 (Z.ltb_lt _ _) Hidx).
  reflexivity.
Qed.

(** At the start edge of the first or second token nothing is shifted. *)
Lemma tokenRange_leading_missed (line : Z) (tokens : LineTokens) (offset : Z) :
  let idx := findTokenIndexAtOffset tokens offset in
  getEndOffset tokens idx - getStartOffset tokens idx = 1 ->
  getStartOffset tokens idx = offset ->
  idx <= 1 ->
  tokenRangeAtOffset line tokens offset =
    mkRange line (getStartOffset tokens idx + 1) line (getEndOffset tokens idx + 1).
Proof.
  intros idx Hone Hstart Hidx. unfold tokenRangeAtOffset. fold idx.
  rewrite Hone, Z.eqb_refl.
  rewrite (proj2 (Z.eqb_eq _ _) Hstart), (proj2 (Z.ltb_ge _ _) Hidx).
  replace (getEndOffset tokens idx =? offset) with false by (symmetry; apply Z.eqb_neq; lia).
  reflexivity.
Qed.

Lemma tokenRange_trailing (line : Z) (tokens : LineTokens) (offset : Z) :
  let idx := findTokenIndexAtOffset tokens offset in
  getEndOffset tokens idx - getStartOffset tokens idx = 1 ->
  getEndOffset tokens idx = offset ->
  idx < getCount tokens - 1 ->
  tokenRangeAtOffset line tokens offset =
    mkRange line (getStartOffset tokens (idx + 1) + 1) line (getEndOffset tokens (idx + 1) + 1).
Proof.
  intros idx Hone Hend Hidx. unfold tokenRangeAtOffset. fold idx.
  rewrite Hone, Z.eqb_refl.
  replace (getStartOffset tokens idx =? offset) with false by (symmetry; apply Z.eqb_neq; lia).
  rewrite (proj2 (Z.eqb_eq _ _) Hend), (proj2 (Z.ltb_lt _ _) Hidx).
  reflexivity.
Qed.

(** C2 (code as it is): on the line ["a".b] the position before the dot has
    no word; the dot is the second token, one character wide, and the
    position is its start edge. [_getRangeAtPosition] answers the dot's own
    span, columns 4 to 5, not the span of the token before it, columns 1 to
    4. The same on the tokens [foo], [.], [ bar] at the start of the dot. *)
Theorem single_char_token_keeps_own_span :
  getWordAtPosition quoted_line (mkPosition 1 4) = None /\
  findTokenIndexAtOffset (getLineTokens quoted_line 1) 3 = 1 /\
  _getRangeAtPosition quoted_line (mkPosition 1 4) = mkRange 1 4 1 5 /\
  _getRangeAtPosition quoted_line (mkPosition 1 4) <>
    mkRange 1 (getStartOffset (getLineTokens quoted_line 1) 0 + 1)
            1 (getEndOffset (getLineTokens quoted_line 1) 0 + 1) /\
  tokenRangeAtOffset 1 foo_bar_tokens 3 = mkRange 1 4 1 5 /\
  mkRange 1 (getStartOffset foo_bar_tokens 0 + 1) 1 (getEndOffset foo_bar_tokens 0 + 1)
    = mkRange 1 1 1 4.
Proof.
  repeat split; try reflexivity.
  vm_compute. discriminate.
Qed.

(** C8: where the document reports a word, [_getRangeAtPosition] returns
    that word's span on the line of the position, and the only call it makes
    on the document is the word lookup: the tokens of the line are neither
    computed nor read, whatever they are. *)
Theorem word_range_wins (model : ITextModel) (position : IPosition) (word : IWordAtPosition) :
  getWordAtPosition model position = Some word ->
  _getRangeAtPosition model position =
    mkRange (lineNumber position) (wordStartColumn word)
            (lineNumber position) (wordEndColumn word) /\
  snd (_getRangeAtPosition_traced model position) = [CallGetWordAtPosition position] /\
  Forall (fun c => is_tokenization_call c = false)
         (snd (_getRangeAtPosition_traced model position)) /\
  (forall tokens : Z -> LineTokens,
     _getRangeAtPosition
       (mkTextModel (validatePosition model) (getWordAtPosition model) tokens) position =
     _getRangeAtPosition model position).
Proof.
  intros Hword.
  unfold _getRangeAtPosition, _getRangeAtPosition_traced; simpl.
  rewrite Hword; simpl.
  repeat split; auto.
Qed.

(** On [foo.bar] held as one token, inside [foo]: the word span, columns 1
    to 4, not the token span, columns 1 to 8. *)
Lemma word_range_wins_witness :
  getWordAtPosition one_token_line (mkPosition 1 2) = Some (mkWord 1 4) /\
  tokenRangeAtOffset 1 (getLineTokens one_token_line 1) 1 = mkRange 1 1 1 8 /\
  _getRangeAtPosition one_token_line (mkPosition 1 2) = mkRange 1 1 1 4.
Proof.
  split; [reflexivity|]. split; [reflexivity|].
  exact (proj1 (word_range_wins one_token_line (mkPosition 1 2) (mkWord 1 4) eq_refl)).
Defined.

(** ** The stable sort *)

Section ArraySortFacts.
Context {A : Type} (cmp : A -> A -> Z).

Lemma sort_insert_perm (x : A) (l : list A) : sort_insert cmp x l ≡ₚ x :: l.
Proof.
  induction l as [|y l IH]; simpl; [reflexivity|].
  destruct (0 <? cmp x y); [|reflexivity].
  rewrite IH. apply Permutation_swap.
Qed.

Lemma Array_sort_perm (l : list A) : Array_sort cmp l ≡ₚ l.
Proof.
  induction l as [|x l IH]; simpl; [reflexivity|].
  rewrite sort_insert_perm, IH. reflexivity.
Qed.

(** Elements of one class, none of which exceeds another, keep their
    order. *)
Lemma sort_insert_filter (P : A -> Prop) `{!forall x, Decision (P x)} (x : A) (l : list A) :
  (forall a b, P a -> P b -> cmp a b <= 0) ->
  filter P (sort_insert cmp x l) = filter P (x :: l).
Proof.
  intros Hcls. induction l as [|y l IH]; simpl; [reflexivity|].
  destruct (Z.ltb_spec 0 (cmp x y)) as [Hgt|Hle]; [|reflexivity].
  rewrite filter_cons, IH, !filter_cons.
  destruct (decide (P y)) as [Hy|Hy]; [|reflexivity].
  destruct (decide (P x)) as [Hx|Hx]; [|reflexivity].
  specialize (Hcls x y Hx Hy). lia.
Qed.

Lemma Array_sort_stable (P : A -> Prop) `{!forall x, Decision (P x)} (l : list A) :
  (forall a b, P a -> P b -> cmp a b <= 0) ->
  filter P (Array_sort cmp l) = filter P l.
Proof.
  intros Hcls. induction l as [|x l IH]; simpl; [reflexivity|].
  rewrite sort_insert_filter by assumption.
  rewrite !filter_cons, IH. reflexivity.
Qed.

Hypothesis cmp_flip : forall x y, 0 < cmp x y -> cmp y x < 0.
Hypothesis cmp_trans : forall x y z, cmp x y <= 0 -> cmp y z <= 0 -> cmp x z <= 0.

Lemma tie_broken_le (R : A -> A -> Prop) (x y : A) : tie_broken cmp R x y -> cmp x y <= 0.
Proof. unfold tie_broken. lia. Qed.

Lemma sort_insert_tie_broken (R : A -> A -> Prop) (x : A) (l : list A) :
  Forall (R x) l ->
  StronglySorted (tie_broken cmp R) l ->
  StronglySorted (tie_broken cmp R) (sort_insert cmp x l).
Proof.
  intros HR Hs. induction l as [|y l IH]; simpl.
  - repeat constructor.
  - apply StronglySorted_inv in Hs as [Hl Hy].
    pose proof (Forall_inv HR) as Rxy. apply Forall_inv_tail in HR.
    destruct (Z.ltb_spec 0 (cmp x y)) as [Hgt|Hle].
    + constructor; [auto|].
      rewrite sort_insert_perm. constructor; [|assumption].
      left. auto.
    + constructor; [constructor; assumption|].
      assert (Hbreak : forall z, cmp x z <= 0 -> R x z -> tie_broken cmp R x z).
      { intros z Hz Rz. unfold tie_broken.
        destruct (Z.eq_dec (cmp x z) 0); [right; auto | left; lia]. }
      constructor; [auto|].
      rewrite Forall_forall in Hy, HR |- *. intros z Hz.
      apply Hbreak; [|auto].
      exact (cmp_trans x y z Hle (tie_broken_le R y z (Hy z Hz))).
Qed.

(** A list in which every element is [R]-before the later ones comes out
    of the sort ordered by the comparator, with ties in the order [R]. *)
Lemma Array_sort_tie_broken (R : A -> A -> Prop) (l : list A) :
  StronglySorted R l ->
  StronglySorted (tie_broken cmp R) (Array_sort cmp l).
Proof.
  induction 1 as [|x l Hl IH Hx]; simpl; [constructor|].
  apply sort_insert_tie_broken; [|assumption].
  rewrite Array_sort_perm. assumption.
Qed.

Lemma Array_sort_sorted (l : list A) :
  StronglySorted (fun x y => cmp x y <= 0) (Array_sort cmp l).
Proof.
  assert (Hall : StronglySorted (fun _ _ : A => True) l).
  { induction l; constructor; [assumption|]. apply Forall_forall. auto. }
  apply (Array_sort_tie_broken _ l) in Hall.
  clear -Hall. induction Hall as [|x l' Hl IH Hx]; constructor; [assumption|].
  eapply List.Forall_impl; [|exact Hx]. intros y. apply tie_broken_le.
Qed.
End ArraySortFacts.

(** ** The comparator *)

Lemma compare_flip (a b : IPosition) :
  0 < Position.compare a b -> Position.compare b a < 0.
Proof.
  unfold Position.compare.
  destruct (Z.eqb_spec (lineNumber a) (lineNumber b)) as [E|E];
    destruct (Z.eqb_spec (lineNumber b) (lineNumber a)); lia.
Qed.

Lemma compare_trans (a b c : IPosition) :
  Position.compare a b <= 0 -> Position.compare b c <= 0 -> Position.compare a c <= 0.
Proof.
  unfold Position.compare.
  destruct (Z.eqb_spec (lineNumber a) (lineNumber b));
    destruct (Z.eqb_spec (lineNumber b) (lineNumber c));
    destruct (Z.eqb_spec (lineNumber a) (lineNumber c)); lia.
Qed.

Lemma compare_refl (a : IPosition) : Position.compare a a = 0.
Proof. unfold Position.compare. rewrite Z.eqb_refl. lia. Qed.

Lemma compare_le_spec (a b : IPosition) :
  Position.compare a b <= 0 <->
  lineNumber a < lineNumber b \/ (lineNumber a = lineNumber b /\ column a <= column b).
Proof.
  unfold Position.compare.
  destruct (Z.eqb_spec (lineNumber a) (lineNumber b)); lia.
Qed.

(** ** The constructor *)

Lemma build_pair_items (H : HintStore) (model : ITextModel) (emitter : nat)
    (b : Building) (entry : InlayHintList * InlayHintsProvider) :
  b_items (build_pair H model emitter b entry) = b_items b ++ items_of_pair H model entry.
Proof.
  destruct entry as [l p]. unfold build_pair, items_of_pair. simpl.
  destruct (onDidChangeInlayHints p); reflexivity.
Qed.

Lemma build_items (H : HintStore) (model : ITextModel) (emitter : nat)
    (data : list (InlayHintList * InlayHintsProvider)) (b : Building) :
  b_items (fold_left (build_pair H model emitter) data b)
  = b_items b ++ collected_items H model data.
Proof.
  revert b. induction data as [|entry data IH]; intros b; simpl.
  - rewrite app_nil_r. reflexivity.
  - rewrite IH, build_pair_items, <- app_assoc. reflexivity.
Qed.

Lemma new_fragments_items (H : HintStore) (data : list (InlayHintList * InlayHintsProvider))
    (model : ITextModel) (w : World) :
  items (fst (new_InlayHintsFragments H data model w))
  = Array_sort (compare_items H) (collected_items H model data).
Proof.
  unfold new_InlayHintsFragments. simpl. rewrite build_items. reflexivity.
Qed.

Lemma collected_items_hints (H : HintStore) (model : ITextModel)
    (data : list (InlayHintList * InlayHintsProvider)) :
  map hint (collected_items H model data) = flat_map (fun entry => hints (fst entry)) data.
Proof.
  unfold collected_items. induction data as [|entry data IH]; simpl; [reflexivity|].
  rewrite map_app, IH. f_equal.
  unfold items_of_pair. rewrite map_map. simpl. apply map_id.
Qed.

Lemma collected_items_anchor (H : HintStore) (model : ITextModel)
    (data : list (InlayHintList * InlayHintsProvider)) :
  Forall (fun it => anchor it = anchor_of H model (hint it)) (collected_items H model data).
Proof.
  unfold collected_items. apply Forall_forall. intros it Hin.
  rewrite list_elem_of_In in Hin. apply in_flat_map in Hin as (entry & _ & Hin).
  unfold items_of_pair in Hin. apply in_map_iff in Hin as (h & <- & _).
  reflexivity.
Qed.

(** On [foo.bar]: a hint at column 5 sits at the start of [bar] and goes
    before it; a hint at column 8 sits at its end and goes after it. *)
Example anchor_of_examples :
  anchor_of some_hints one_token_line 0 = mkAnchor (mkRange 1 5 1 8) before /\
  anchor_of some_hints one_token_line 2 = mkAnchor (mkRange 1 5 1 8) after.
Proof. split; reflexivity. Qed.

(** C3: every hint of every collected pair gets an item of the fragment
    set, with its producer, and the set has no other items. The item of a
    hint has the side "after" exactly when the start of the span computed
    for the hint's validated position lies strictly before that position,
    and then its range runs from the span's start to the position; otherwise
    the side is "before" and the range runs from the position to the span's
    end. A span that starts at the position, all the more one that also ends
    there, gives "before". *)
Theorem anchor_side (H : HintStore) (data : list (InlayHintList * InlayHintsProvider))
    (model : ITextModel) (w : World) :
  let f := fst (new_InlayHintsFragments H data model w) in
  let placed := fun (h : nat) (a : InlayHintAnchor) =>
    let target := validatePosition model (position (H h)) in
    let span := _getRangeAtPosition model target in
    (direction a = after <->
       Position.isBefore (Range.getStartPosition span) target = true) /\
    (Position.isBefore (Range.getStartPosition span) target = true ->
       range a = Range.fromPositions (Range.getStartPosition span) target) /\
    (Position.isBefore (Range.getStartPosition span) target = false ->
       direction a = before /\
       range a = Range.fromPositions target (Range.getEndPosition span)) /\
    (Range.getStartPosition span = target -> direction a = before) in
  (forall list provider h,
     (list, provider) ∈ data -> h ∈ hints list ->
     exists it, it ∈ items f /\ hint it = h /\ _provider it = provider /\
                placed h (anchor it)) /\
  Forall (fun it => placed (hint it) (anchor it)) (items f) /\
  length (items f) = length (flat_map (fun entry => hints (fst entry)) data).
Proof.
  intros f placed.
  assert (Hplaced : forall h, placed h (anchor_of H model h)).
  { intros h. unfold placed, anchor_of. simpl.
    destruct (Position.isBefore _ _) eqn:E; simpl.
    - repeat split; auto; try discriminate.
      intros Heq. rewrite Heq, isBefore_irrefl in E. discriminate.
    - repeat split; auto; discriminate. }
  assert (Hitems : items f ≡ₚ collected_items H model data).
  { unfold f. rewrite new_fragments_items. apply Array_sort_perm. }
  split; [|split].
  - intros list provider h Hentry Hh.
    exists (new_InlayHintItem h (anchor_of H model h) provider).
    split; [|split; [reflexivity|split; [reflexivity|apply Hplaced]]].
    rewrite Hitems. unfold collected_items.
    apply list_elem_of_In, in_flat_map. exists (list, provider).
    split; [apply list_elem_of_In, Hentry|].
    unfold items_of_pair. simpl. apply in_map_iff. exists h.
    split; [reflexivity|]. apply list_elem_of_In, Hh.
  - rewrite Hitems.
    eapply List.Forall_impl; [|apply collected_items_anchor].
    intros it ->. apply Hplaced.
  - rewrite (Permutation_length Hitems), <- (collected_items_hints H model data).
    symmetry. apply length_map.
Qed.

(** Two hints of one list on [foo.bar]: the one at the end of [bar] has its
    item, and the item goes after the word. *)
Lemma anchor_side_witness :
  exists it,
    it ∈ items (fst (new_InlayHintsFragments some_hints [(mkHintList [0%nat; 2%nat] 10, PA)]
                       one_token_line blank_world)) /\
    hint it = 2%nat /\ _provider it = PA /\
    direction (anchor it) = after /\ range (anchor it) = mkRange 1 5 1 8.
Proof.
  assert (Hentry : (mkHintList [0%nat; 2%nat] 10, PA) ∈ [(mkHintList [0%nat; 2%nat] 10, PA)])
    by (apply list_elem_of_here).
  assert (Hh : 2%nat ∈ hints (mkHintList [0%nat; 2%nat] 10))
    by (simpl; apply list_elem_of_further, list_elem_of_here).
  destruct (proj1 (anchor_side some_hints [(mkHintList [0%nat; 2%nat] 10, PA)]
                     one_token_line blank_world) _ _ _ Hentry Hh)
    as (it & Hin & Hhint & Hprov & Hside & Hrange & _).
  exists it. split; [exact Hin|]. split; [exact Hhint|]. split; [exact Hprov|].
  split; [apply Hside; reflexivity | apply Hrange; reflexivity].
Defined.

(** ** Collection *)

Section Collection.
Context (calls : list (InlayHintsProvider * Range)) (answer : nat -> Answer).

Lemma has_hints_Some (result : option InlayHintList) (l : InlayHintList) :
  has_hints result = Some l -> result = Some l /\ hints l <> [].
Proof.
  destruct result as [l'|]; simpl; [|discriminate].
  case_bool_decide; [discriminate|]. intros [= ->]. auto.
Qed.

Lemma has_hints_None (result : option InlayHintList) :
  has_hints result = None -> from_option hints [] result = [].
Proof.
  destruct result as [l'|]; simpl; [|reflexivity].
  case_bool_decide; [auto|discriminate].
Qed.

(** One call settling: either nothing changes, or [k] is new among the
    settled calls and its answer is taken in. *)
Lemma settle_cases (c : Collecting) (k : nat) :
  settle calls answer c k = c \/
  ((k < length calls)%nat /\ (k ∉ settled c) /\
   settled (settle calls answer c k) = k :: settled c /\
   flat_map (fun entry => hints (fst entry)) (data (settle calls answer c k))
     = flat_map (fun entry => hints (fst entry)) (data c) ++ answered_hints answer k /\
   reported (settle calls answer c k) = reported c ++ answered_error answer k).
Proof.
  unfold settle.
  destruct (calls !! k) as [[provider r]|] eqn:Hk; [|left; reflexivity].
  apply lookup_lt_Some in Hk.
  case_bool_decide as Hin; [left; reflexivity|].
  right. split; [assumption|]. split; [assumption|].
  unfold answered_hints, answered_error, onUnexpectedExternalError.
  destruct (answer k) as [err|result]; simpl.
  - rewrite app_nil_r. auto.
  - destruct (has_hints result) as [l|] eqn:Hh; simpl.
    + apply has_hints_Some in Hh as [-> _].
      rewrite flat_map_app, !app_nil_r. simpl. rewrite app_nil_r. auto.
    + apply has_hints_None in Hh. rewrite !app_nil_r.
      destruct result; simpl in *; rewrite ?Hh, ?app_nil_r; auto.
Qed.

Lemma settle_inv (sink0 : list Error) (c : Collecting) (k : nat) :
  collect_inv calls answer sink0 c ->
  collect_inv calls answer sink0 (settle calls answer c k).
Proof.
  intros (Hnd & Hrange & Hhints & Herr).
  destruct (settle_cases c k) as [->|(Hlt & Hnew & Hs & Hd & Hr)].
  { repeat split; assumption. }
  unfold collect_inv. rewrite Hs, Hd, Hr. simpl.
  split; [apply NoDup_cons_2; assumption|].
  split.
  { intros j Hj. apply elem_of_cons in Hj as [->|Hj]; auto. }
  split.
  - rewrite Hhints. apply Permutation_app_comm.
  - rewrite Herr, <- app_assoc. apply Permutation_app_head, Permutation_app_comm.
Qed.

Lemma fold_settle_inv (sink0 : list Error) (schedule : list nat) (c : Collecting) :
  collect_inv calls answer sink0 c ->
  collect_inv calls answer sink0 (fold_left (settle calls answer) schedule c).
Proof.
  revert c. induction schedule as [|k schedule IH]; intros c Hc; simpl; [assumption|].
  apply IH, settle_inv, Hc.
Qed.

Lemma settle_settled_mono (c : Collecting) (j k : nat) :
  k ∈ settled c -> k ∈ settled (settle calls answer c j).
Proof.
  intros Hk. destruct (settle_cases c j) as [->|(_ & _ & -> & _)]; [assumption|].
  apply elem_of_cons. auto.
Qed.

Lemma fold_settle_mono (schedule : list nat) (c : Collecting) (k : nat) :
  k ∈ settled c -> k ∈ settled (fold_left (settle calls answer) schedule c).
Proof.
  revert c. induction schedule as [|j schedule IH]; intros c Hk; simpl; [assumption|].
  apply IH, settle_settled_mono, Hk.
Qed.

Lemma settle_settles (c : Collecting) (k : nat) :
  (k < length calls)%nat -> k ∈ settled (settle calls answer c k).
Proof.
  intros Hlt. unfold settle.
  destruct (lookup_lt_is_Some_2 calls k Hlt) as [[provider r] ->].
  case_bool_decide as Hin; [assumption|].
  destruct (answer k) as [err|result]; simpl; [apply elem_of_cons; auto|].
  destruct (has_hints result); simpl; apply elem_of_cons; auto.
Qed.

(** A call whose answer is in the schedule has settled at the end. *)
Lemma fold_settle_scheduled (schedule : list nat) (c : Collecting) (k : nat) :
  (k < length calls)%nat -> k ∈ schedule ->
  k ∈ settled (fold_left (settle calls answer) schedule c).
Proof.
  intros Hlt. revert c. induction schedule as [|j schedule IH]; intros c Hk; simpl.
  - inversion Hk.
  - apply elem_of_cons in Hk as [<-|Hk]; [|auto].
    apply fold_settle_mono, settle_settles, Hlt.
Qed.

(** A call settles only when its answer arrives. *)
Lemma fold_settle_only_scheduled (schedule : list nat) (c : Collecting) (k : nat) :
  k ∈ settled (fold_left (settle calls answer) schedule c) ->
  k ∈ settled c \/ k ∈ schedule.
Proof.
  revert c. induction schedule as [|j schedule IH]; intros c Hk; simpl in *; [auto|].
  apply IH in Hk as [Hk|Hk]; [|right; apply elem_of_cons; auto].
  destruct (settle_cases c j) as [E|(_ & _ & E & _)]; rewrite E in Hk; [auto|].
  apply elem_of_cons in Hk as [->|Hk]; [right; apply elem_of_cons|]; auto.
Qed.

Lemma all_settled_spec (c : Collecting) :
  all_settled (length calls) c = true <->
  forall k, (k < length calls)%nat -> k ∈ settled c.
Proof.
  unfold all_settled. rewrite forallb_forall. split.
  - intros Hall k Hk. specialize (Hall k).
    rewrite bool_decide_eq_true in Hall. apply Hall.
    apply in_seq. lia.
  - intros Hall k Hk. apply in_seq in Hk.
    rewrite bool_decide_eq_true. apply Hall. lia.
Qed.

Lemma all_settled_perm (sink0 : list Error) (c : Collecting) :
  collect_inv calls answer sink0 c ->
  all_settled (length calls) c = true ->
  settled c ≡ₚ seq 0 (length calls).
Proof.
  intros (Hnd & Hrange & _) Hall. rewrite all_settled_spec in Hall.
  apply NoDup_Permutation; [assumption|apply NoDup_seq|].
  intros k. rewrite elem_of_seq. split; [intros Hk; apply Hrange in Hk; lia|].
  intros [_ Hk]. apply Hall. lia.
Qed.

End Collection.

Lemma collect_inv_init (calls : list (InlayHintsProvider * Range)) (answer : nat -> Answer)
    (sink0 : list Error) :
  collect_inv calls answer sink0 (mkCollecting [] [] sink0).
Proof.
  unfold collect_inv; simpl. rewrite app_nil_r.
  split; [apply NoDup_nil_2|]. split; [|auto].
  intros k Hk. inversion Hk.
Qed.

(** The constructor leaves the error sink alone. *)
Lemma build_pair_sink (H : HintStore) (model : ITextModel) (emitter : nat)
    (b : Building) (entry : InlayHintList * InlayHintsProvider) :
  sink (b_world (build_pair H model emitter b entry)) = sink (b_world b).
Proof.
  destruct entry as [l p]. unfold build_pair.
  destruct (onDidChangeInlayHints p); reflexivity.
Qed.

Lemma fold_build_sink (H : HintStore) (model : ITextModel) (emitter : nat)
    (data : list (InlayHintList * InlayHintsProvider)) (b : Building) :
  sink (b_world (fold_left (build_pair H model emitter) data b)) = sink (b_world b).
Proof.
  revert b. induction data as [|entry data IH]; intros b; simpl; [reflexivity|].
  rewrite IH. apply build_pair_sink.
Qed.

Lemma new_fragments_sink (H : HintStore) (data : list (InlayHintList * InlayHintsProvider))
    (model : ITextModel) (w : World) :
  sink (snd (new_InlayHintsFragments H data model w)) = sink w.
Proof.
  unfold new_InlayHintsFragments. simpl. rewrite fold_build_sink. reflexivity.
Qed.

Lemma create_Some (H : HintStore) (ordered : list InlayHintsProvider) (model : ITextModel)
    (ranges : list Range) (answer : nat -> Answer) (schedule : list nat) (w : World)
    (f : InlayHintsFragments) (w' : World) :
  create H ordered model ranges answer schedule w = Some (f, w') ->
  all_settled (length (launch ordered ranges))
    (collect ordered ranges answer schedule (sink w)) = true /\
  items f = Array_sort (compare_items H)
              (collected_items H model (data (collect ordered ranges answer schedule (sink w)))) /\
  sink w' = reported (collect ordered ranges answer schedule (sink w)).
Proof.
  unfold create. intros Hc.
  destruct (all_settled _ _); [|discriminate].
  split; [reflexivity|].
  match type of Hc with
  | Some ?r = _ => assert (Hr : r = (f, w')) by congruence; clear Hc
  end.
  match type of Hr with
  | new_InlayHintsFragments _ ?d _ ?w0 = _ =>
      pose proof (new_fragments_items H d model w0) as Hi;
      pose proof (new_fragments_sink H d model w0) as Hs
  end.
  rewrite Hr in Hi, Hs. simpl in Hi, Hs. auto.
Qed.

(** C7 (as stated, refuted): [PA] is asked for two overlapping ranges and
    answers the hint 0 for both; both calls succeed, and the final items
    hold the hint twice, not once. *)
Lemma hint_of_two_ranges_appears_twice :
  exists f w',
    create some_hints [PA] quoted_line [whole_line; mkRange 1 1 1 6] twice_answer
      [0%nat; 1%nat] blank_world = Some (f, w') /\
    answered_hints twice_answer 0 = [0%nat] /\
    answered_hints twice_answer 1 = [0%nat] /\
    map hint (items f) = [0%nat; 0%nat].
Proof.
  eexists _, _. split; [reflexivity|]. repeat split; reflexivity.
Qed.

(** C7 (amended): construction is there exactly when the answer of every
    (producer, range) call is in, whether it is a result or a failure. Then
    the hints of the final items are, counted with multiplicity, the hints
    of the calls that answered with a result, whatever the other calls did
    and in whatever order the answers came: a hint is there once for every
    time a successful call returned it, so exactly once when the successful
    calls returned no hint twice. The sink has received, besides what it
    held, the error of every failed call. *)
Theorem collection_guarded (H : HintStore) (ordered : list InlayHintsProvider)
    (model : ITextModel) (ranges : list Range) (answer : nat -> Answer)
    (schedule : list nat) (w : World) :
  let n := length (launch ordered ranges) in
  (is_Some (create H ordered model ranges answer schedule w) <->
     forall k, (k < n)%nat -> k ∈ schedule) /\
  (forall f w', create H ordered model ranges answer schedule w = Some (f, w') ->
     map hint (items f) ≡ₚ flat_map (answered_hints answer) (seq 0 n) /\
     sink w' ≡ₚ sink w ++ flat_map (answered_error answer) (seq 0 n) /\
     (NoDup (flat_map (answered_hints answer) (seq 0 n)) -> NoDup (map hint (items f)))).
Proof.
  intros n. subst n. split.
  - unfold create.
    destruct (all_settled _ _) eqn:Hall.
    + split; [|eauto]. intros _ k Hk.
      pose proof (proj1 (all_settled_spec _ _) Hall k Hk) as Hset.
      destruct (fold_settle_only_scheduled _ _ _ _ _ Hset) as [Hin|Hin]; [|assumption].
      inversion Hin.
    + split; [intros [? [=]]|]. intros Hsched. exfalso.
      assert (all_settled (length (launch ordered ranges))
                (collect ordered ranges answer schedule (sink w)) = true)
        as Htrue; [|congruence].
      apply all_settled_spec. intros k Hk.
      apply fold_settle_scheduled; auto.
  - intros f w' Hc. apply create_Some in Hc as (Hall & Hitems & Hsink).
    pose proof (fold_settle_inv (launch ordered ranges) answer (sink w) schedule _
                  (collect_inv_init _ _ _)) as Hinv.
    pose proof (all_settled_perm _ _ _ _ Hinv Hall) as Hperm.
    destruct Hinv as (_ & _ & Hhints & Herr).
    assert (Hmap : map hint (items f)
                   ≡ₚ flat_map (answered_hints answer)
                        (seq 0 (length (launch ordered ranges)))).
    { rewrite Hitems, Array_sort_perm, collected_items_hints.
      unfold collect. rewrite Hhints, Hperm. reflexivity. }
    split; [exact Hmap|]. split.
    + rewrite Hsink. unfold collect. rewrite Herr, Hperm. reflexivity.
    + intros Hnd. rewrite Hmap. exact Hnd.
Qed.

(** [PC] fails and answers last but one; the hints 1, 2 and 0 of [PB] and
    [PA] are all there, once each, and the sink has the error. *)
Lemma collection_guarded_witness :
  exists f w',
    create some_hints [PA; PB; PC] quoted_line [whole_line] mixed_answer
      [2%nat; 0%nat; 1%nat] blank_world = Some (f, w') /\
    map hint (items f) ≡ₚ [1%nat; 2%nat; 0%nat] /\
    sink w' ≡ₚ ["boom"%string] /\
    NoDup (map hint (items f)).
Proof.
  eexists _, _. split; [reflexivity|].
  destruct (proj2 (collection_guarded some_hints [PA; PB; PC] quoted_line [whole_line]
                     mixed_answer [2%nat; 0%nat; 1%nat] blank_world) _ _ eq_refl)
    as (Hhints & Hsink & Hnd).
  split; [exact Hhints|]. split; [exact Hsink|].
  apply Hnd. apply (bool_decide_unpack _). vm_compute. exact I.
Defined.

(** ** Order of the items *)

Lemma StronglySorted_lookup {A : Type} (R : A -> A -> Prop) (l : list A) :
  StronglySorted R l <->
  forall (i j : nat) (x y : A),
    (i < j)%nat -> l !! i = Some x -> l !! j = Some y -> R x y.
Proof.
  split.
  - induction 1 as [|a l Hl IH Ha]; intros i j x y Hij Hi Hj.
    + rewrite lookup_nil in Hi. discriminate.
    + destruct j as [|j]; [lia|]. simpl in Hj.
      destruct i as [|i]; simpl in Hi.
      * injection Hi as <-. rewrite Forall_lookup in Ha. eauto.
      * apply (IH i j); auto. lia.
  - induction l as [|a l IH]; intros Hall; constructor.
    + apply IH. intros i j x y Hij Hi Hj. apply (Hall (S i) (S j)); auto. lia.
    + apply Forall_lookup. intros j y Hj. apply (Hall O (S j)); auto. lia.
Qed.

Section KeyedOrder.
Context {K : Type} (Rk : K -> K -> Prop) (Rk_refl : forall k, Rk k k).

(** Elements that all carry one key are in order. *)
Lemma same_key_sorted {A : Type} (key : A -> K) (k : K) (l : list A) :
  (forall a, In a l -> key a = k) ->
  StronglySorted (fun x y => Rk (key x) (key y)) l.
Proof.
  intros Hk. apply StronglySorted_lookup. intros i j x y _ Hi Hj.
  apply list_elem_of_lookup_2, list_elem_of_In, Hk in Hi.
  apply list_elem_of_lookup_2, list_elem_of_In, Hk in Hj.
  rewrite Hi, Hj. apply Rk_refl.
Qed.

(** Expanding every element into elements of its own key keeps the order. *)
Lemma flat_map_keyed_sorted {A B : Type} (keyB : B -> K) (keyA : A -> K)
    (f : B -> list A) (l : list B) :
  (forall b a, In a (f b) -> keyA a = keyB b) ->
  StronglySorted (fun x y => Rk (keyB x) (keyB y)) l ->
  StronglySorted (fun x y => Rk (keyA x) (keyA y)) (flat_map f l).
Proof.
  intros Hf. induction 1 as [|b l Hl IH Hb]; simpl; [constructor|].
  apply StronglySorted_app. split; [|split; [|assumption]].
  - intros x1 x2 H1 H2.
    apply list_elem_of_In in H1, H2.
    apply in_flat_map in H2 as (b' & Hb' & H2).
    rewrite (Hf _ _ H1), (Hf _ _ H2).
    rewrite Forall_forall in Hb. apply Hb, list_elem_of_In, Hb'.
  - apply (same_key_sorted keyA (keyB b)). auto.
Qed.

End KeyedOrder.

Section Priority.
Context (ordered : list InlayHintsProvider).
Hypothesis ordered_distinct : NoDup (map pid ordered).

(** A producer's priority is its place in the registry's order. *)
Lemma priority_lookup (i : nat) (p : InlayHintsProvider) :
  ordered !! i = Some p -> priority ordered p = i.
Proof.
  intros Hi. unfold priority.
  destruct (list_find (fun q => pid q = pid p) ordered) as [[i' p']|] eqn:Hfind; simpl.
  - apply list_find_Some in Hfind as (Hi' & Hpid & _).
    eapply NoDup_lookup; [exact ordered_distinct| |].
    + change (map pid ordered) with (pid <$> ordered).
      rewrite list_lookup_fmap, Hi'. simpl. rewrite Hpid. reflexivity.
    + change (map pid ordered) with (pid <$> ordered).
      rewrite list_lookup_fmap, Hi. reflexivity.
  - exfalso. rewrite list_find_None, Forall_lookup in Hfind.
    apply (Hfind i p Hi). reflexivity.
Qed.

(** Producers are called from the last of the registry's order to the
    first. *)
Lemma reverse_by_priority :
  StronglySorted (fun p q => (priority ordered q <= priority ordered p)%nat) (reverse ordered).
Proof.
  apply StronglySorted_lookup. intros i j p q Hij Hi Hj.
  apply reverse_lookup_Some in Hi as [Hi Hilt], Hj as [Hj Hjlt].
  rewrite (priority_lookup _ _ Hi), (priority_lookup _ _ Hj). lia.
Qed.

Lemma launch_by_priority (ranges : list Range) :
  StronglySorted
    (fun x y => (priority ordered (fst y) <= priority ordered (fst x))%nat)
    (launch ordered ranges).
Proof.
  unfold launch.
  apply (flat_map_keyed_sorted
           (fun p q => (priority ordered q <= priority ordered p)%nat)
           (fun k => le_n _) (fun p => p) fst).
  - intros p x Hx. apply in_map_iff in Hx as (r & <- & _). reflexivity.
  - apply reverse_by_priority.
Qed.

(** When the answers arrive in the order of the calls, the collected pairs
    are in the order of the calls. *)
Lemma in_order_data (ranges : list Range) (answer : nat -> Answer) (m a : nat)
    (c : Collecting) :
  (forall k, k ∈ settled c -> (k < a)%nat) ->
  StronglySorted
    (fun x y => (priority ordered (snd y) <= priority ordered (snd x))%nat) (data c) ->
  (forall e j x, e ∈ data c -> (a <= j)%nat -> launch ordered ranges !! j = Some x ->
     (priority ordered (fst x) <= priority ordered (snd e))%nat) ->
  StronglySorted
    (fun x y => (priority ordered (snd y) <= priority ordered (snd x))%nat)
    (data (fold_left (settle (launch ordered ranges) answer) (seq a m) c)).
Proof.
  revert a c. induction m as [|m IH]; intros a c Hset Hsorted Hnext; simpl; [assumption|].
  apply IH.
  - intros k Hk.
    destruct (settle_cases (launch ordered ranges) answer c a) as [E|(_ & _ & E & _)];
      rewrite E in Hk.
    + apply Hset in Hk. lia.
    + apply elem_of_cons in Hk as [->|Hk]; [lia|]. apply Hset in Hk. lia.
  - unfold settle.
    destruct (launch ordered ranges !! a) as [[provider r]|] eqn:Ha; [|assumption].
    case_bool_decide; [assumption|].
    destruct (answer a) as [err|result]; simpl; [assumption|].
    destruct (has_hints result) as [l|]; simpl; [|assumption].
    apply StronglySorted_app. split; [|split; [assumption|repeat constructor]].
    intros e1 e2 H1 H2. apply list_elem_of_singleton in H2 as ->. simpl.
    apply (Hnext e1 a (provider, r)); auto.
  - intros e j x He Hj Hx. unfold settle in He.
    destruct (launch ordered ranges !! a) as [[provider r]|] eqn:Ha;
      [|apply (Hnext e j x); auto; lia].
    case_bool_decide; [apply (Hnext e j x); auto; lia|].
    destruct (answer a) as [err|result]; simpl in He; [apply (Hnext e j x); auto; lia|].
    destruct (has_hints result) as [l|]; simpl in He; [|apply (Hnext e j x); auto; lia].
    apply elem_of_app in He as [He|He]; [apply (Hnext e j x); auto; lia|].
    apply list_elem_of_singleton in He as ->. simpl.
    pose proof (launch_by_priority ranges) as Hl.
    rewrite StronglySorted_lookup in Hl.
    apply (Hl a j (provider, r) x); auto.
Qed.

Lemma in_order_items (H : HintStore) (model : ITextModel) (ranges : list Range)
    (answer : nat -> Answer) (sink0 : list Error) :
  StronglySorted
    (fun a b => (priority ordered (_provider b) <= priority ordered (_provider a))%nat)
    (collected_items H model
       (data (collect ordered ranges answer (seq 0 (length (launch ordered ranges))) sink0))).
Proof.
  unfold collected_items.
  apply (flat_map_keyed_sorted
           (fun p q => (priority ordered q <= priority ordered p)%nat)
           (fun k => le_n _) snd _provider).
  - intros e it Hit. unfold items_of_pair in Hit.
    apply in_map_iff in Hit as (h & <- & _). reflexivity.
  - apply in_order_data; simpl.
    + intros k Hk. inversion Hk.
    + constructor.
    + intros e j x He. inversion He.
Qed.

End Priority.

Lemma compare_items_flip (H : HintStore) (a b : InlayHintItem) :
  0 < compare_items H a b -> compare_items H b a < 0.
Proof. apply compare_flip. Qed.

Lemma compare_items_trans (H : HintStore) (a b c : InlayHintItem) :
  compare_items H a b <= 0 -> compare_items H b c <= 0 -> compare_items H a c <= 0.
Proof. apply compare_trans. Qed.

(** C1 (as stated, refuted): [PA] comes before [PB] in the registry's order
    and both answer a hint at line 1, column 5, the answers arriving in the
    order of the calls. The item of [PB], the later producer, comes first. *)
Lemma later_producer_wins_tie :
  exists f w',
    create some_hints [PA; PB] quoted_line [whole_line] tie_answer
      [0%nat; 1%nat] blank_world = Some (f, w') /\
    map (fun it => pid (_provider it)) (items f) = [1%nat; 0%nat] /\
    map (hint_position some_hints) (items f) = [mkPosition 1 5; mkPosition 1 5] /\
    ~ earlier_first some_hints [PA; PB] (items f).
Proof.
  eexists _, _. split; [reflexivity|].
  split; [reflexivity|]. split; [reflexivity|].
  intros Hclaim.
  specialize (Hclaim 0%nat 1%nat _ _ (Nat.lt_0_succ 0) eq_refl eq_refl eq_refl).
  vm_compute in Hclaim. lia.
Qed.

(** C1 (amended): the final items are sorted non-decreasingly by hint
    position, and the items at one position keep the order in which they
    were collected, which is the order in which the answers arrived. When
    the answers arrive in the order of the calls and the producers of the
    registry are distinct, the items at one position of producers later in
    the registry's order come before those of earlier producers. *)
Theorem items_sorted_ties_in_arrival_order (H : HintStore)
    (ordered : list InlayHintsProvider) (model : ITextModel) (ranges : list Range)
    (answer : nat -> Answer) (schedule : list nat) (w : World)
    (f : InlayHintsFragments) (w' : World) :
  create H ordered model ranges answer schedule w = Some (f, w') ->
  StronglySorted
    (fun a b => Position.compare (hint_position H a) (hint_position H b) <= 0) (items f) /\
  (forall v : IPosition,
     filter (fun it => hint_position H it = v) (items f) =
     filter (fun it => hint_position H it = v)
       (collected_items H model (data (collect ordered ranges answer schedule (sink w))))) /\
  (NoDup (map pid ordered) ->
   schedule = seq 0 (length (launch ordered ranges)) ->
   later_first H ordered (items f)).
Proof.
  intros Hc. apply create_Some in Hc as (_ & Hitems & _). rewrite Hitems.
  split; [|split].
  - apply (Array_sort_sorted (compare_items H));
      [apply compare_items_flip | apply compare_items_trans].
  - intros v. apply Array_sort_stable.
    intros a b Ha Hb. unfold compare_items. fold (hint_position H a) (hint_position H b).
    rewrite Ha, Hb, compare_refl. lia.
  - intros Hdistinct ->.
    pose proof (in_order_items ordered Hdistinct H model ranges answer (sink w)) as Hsorted.
    apply (Array_sort_tie_broken (compare_items H)
             (compare_items_flip H) (compare_items_trans H)) in Hsorted.
    rewrite StronglySorted_lookup in Hsorted.
    intros i j a b Hij Ha Hb Hpos.
    destruct (Hsorted i j a b Hij Ha Hb) as [Hlt|[_ Hle]]; [|exact Hle].
    unfold compare_items in Hlt. fold (hint_position H a) (hint_position H b) in Hlt.
    rewrite Hpos, compare_refl in Hlt. lia.
Qed.

Lemma items_sorted_ties_in_arrival_order_witness :
  exists f w',
    create some_hints [PA; PB; PC] quoted_line [whole_line] mixed_answer
      [0%nat; 1%nat; 2%nat] blank_world = Some (f, w') /\
    map hint (items f) = [1%nat; 0%nat; 2%nat] /\
    later_first some_hints [PA; PB; PC] (items f).
Proof.
  eexists _, _. split; [reflexivity|]. split; [reflexivity|].
  refine (proj2 (proj2 (items_sorted_ties_in_arrival_order some_hints [PA; PB; PC]
                  quoted_line [whole_line] mixed_answer [0%nat; 1%nat; 2%nat]
                  blank_world _ _ eq_refl)) _ eq_refl).
  apply (bool_decide_unpack _). vm_compute. exact I.
Defined.

(** ** Change events *)

Lemma forwards_subscribe (e ev ev' emitter : nat) (w : World) :
  forwards e ev (snd (subscribe ev' emitter w)) =
  (forwards e ev w +
   (if bool_decide (ev = ev' /\ emitter = e) then 1 else 0))%nat.
Proof.
  unfold forwards, fire_event, subscribe. simpl.
  destruct (decide (ev' = ev)) as [->|Hne].
  - rewrite fn_lookup_insert, map_app, filter_app, length_app. simpl.
    rewrite filter_cons, filter_nil.
    destruct (decide (emitter = e)) as [->|He]; simpl.
    + rewrite bool_decide_eq_true_2 by auto. reflexivity.
    + rewrite bool_decide_eq_false_2 by (intros [_ ?]; auto). reflexivity.
  - rewrite fn_lookup_insert_ne by assumption.
    rewrite bool_decide_eq_false_2 by (intros [? _]; auto). lia.
Qed.

Lemma build_pair_forwards (H : HintStore) (model : ITextModel) (e ev : nat)
    (b : Building) (entry : InlayHintList * InlayHintsProvider) :
  forwards e ev (b_world (build_pair H model e b entry)) =
  (forwards e ev (b_world b) +
   length (filter (fun x => x = ev) (subscribed_events [entry])))%nat.
Proof.
  destruct entry as [l p]. unfold build_pair, subscribed_events. cbn [omap list_omap snd].
  destruct (onDidChangeInlayHints p) as [ev'|]; cbn [b_world filter list_filter length];
    [|lia].
  pose proof (forwards_subscribe e ev ev' e (b_world b)) as Hsub.
  destruct (subscribe ev' e (b_world b)) as [d w'].
  cbn [snd b_world] in *. rewrite Hsub.
  destruct (decide (ev' = ev)) as [->|Hne]; simpl.
  - rewrite bool_decide_eq_true_2 by auto. reflexivity.
  - rewrite bool_decide_eq_false_2 by (intros [? _]; auto). reflexivity.
Qed.

Lemma fold_build_forwards (H : HintStore) (model : ITextModel) (e ev : nat)
    (data : list (InlayHintList * InlayHintsProvider)) (b : Building) :
  forwards e ev (b_world (fold_left (build_pair H model e) data b)) =
  (forwards e ev (b_world b) +
   length (filter (fun x => x = ev) (subscribed_events data)))%nat.
Proof.
  revert b. induction data as [|entry data IH]; intros b; cbn [fold_left].
  - unfold subscribed_events. simpl. lia.
  - rewrite IH, build_pair_forwards.
    change (subscribed_events (entry :: data))
      with (subscribed_events ([entry] ++ data)).
    unfold subscribed_events. rewrite omap_app, filter_app, length_app. lia.
Qed.

(** A new emitter has no listener anywhere pointing at it. *)
Lemma forwards_fresh (w : World) (ev : nat) :
  world_wf w -> forwards (next_emitter w) ev w = 0%nat.
Proof.
  intros Hwf. unfold forwards, fire_event.
  destruct (filter _ _) as [|e l] eqn:Hf; [reflexivity|]. exfalso.
  assert (He : e ∈ filter (fun e => e = next_emitter w) (map l_emitter (listeners w ev)))
    by (rewrite Hf; apply elem_of_cons; auto).
  apply list_elem_of_filter in He as [-> He].
  apply list_elem_of_In, in_map_iff in He as (x & Hx & Hin).
  apply list_elem_of_In, Hwf in Hin. lia.
Qed.

(** Disposing never adds a listener. *)
Lemma run_dispose_subset (w : World) (d : Disposable) (ev : nat) (l : Listener) :
  l ∈ listeners (run_dispose w d) ev -> l ∈ listeners w ev.
Proof.
  destruct d as [i|ev' s]; simpl; [auto|].
  destruct (decide (ev' = ev)) as [->|Hne].
  - rewrite fn_lookup_insert, list_elem_of_filter. tauto.
  - rewrite fn_lookup_insert_ne by assumption. auto.
Qed.

Lemma fold_dispose_subset (ds : list Disposable) (w : World) (ev : nat) (l : Listener) :
  l ∈ listeners (fold_left run_dispose ds w) ev -> l ∈ listeners w ev.
Proof.
  revert w. induction ds as [|d ds IH]; intros w; simpl; [auto|].
  intros Hl. apply IH, run_dispose_subset in Hl. exact Hl.
Qed.

(** Once a subscription is disposed, its listener is gone. *)
Lemma fold_dispose_unsubscribed (ds : list Disposable) (w : World) (ev : nat)
    (l : Listener) :
  Unsubscribe ev (l_subscription l) ∈ ds ->
  l ∉ listeners (fold_left run_dispose ds w) ev.
Proof.
  revert w. induction ds as [|d ds IH]; intros w Hd; simpl.
  - inversion Hd.
  - apply elem_of_cons in Hd as [<-|Hd]; [|auto].
    intros Hl. apply fold_dispose_subset in Hl. simpl in Hl.
    rewrite fn_lookup_insert, list_elem_of_filter in Hl. tauto.
Qed.

(** A listener that is kept by every disposable of a list survives it. *)
Lemma fold_dispose_kept (ds : list Disposable) (w : World) (ev : nat) (l : Listener) :
  (forall ev' s, Unsubscribe ev' s ∈ ds -> l_subscription l <> s) ->
  l ∈ listeners w ev ->
  l ∈ listeners (fold_left run_dispose ds w) ev.
Proof.
  revert w. induction ds as [|d ds IH]; intros w Hds Hl; simpl; [assumption|].
  apply IH.
  - intros ev' s Hin. apply (Hds ev' s), elem_of_cons. auto.
  - destruct d as [i|ev' s]; simpl; [assumption|].
    destruct (decide (ev' = ev)) as [->|Hne].
    + rewrite fn_lookup_insert, list_elem_of_filter. split; [|assumption].
      apply (Hds ev s), elem_of_cons. auto.
    + rewrite fn_lookup_insert_ne by assumption. assumption.
Qed.

Lemma build_pair_inv (H : HintStore) (model : ITextModel) (e : nat) (w0 : World)
    (b : Building) (entry : InlayHintList * InlayHintsProvider) :
  build_inv e w0 b -> build_inv e w0 (build_pair H model e b entry).
Proof.
  intros (Hnext & Hold & Hnew & Hds). destruct entry as [l p]. unfold build_pair.
  destruct (onDidChangeInlayHints p) as [ev'|]; unfold build_inv; simpl.
  - split; [lia|]. split; [|split].
    + intros ev x Hx. apply Hold in Hx.
      destruct (decide (ev' = ev)) as [->|Hne].
      * rewrite fn_lookup_insert. apply elem_of_app. auto.
      * rewrite fn_lookup_insert_ne by assumption. assumption.
    + intros ev x. destruct (decide (ev' = ev)) as [->|Hne].
      * rewrite fn_lookup_insert, elem_of_app, list_elem_of_singleton.
        intros [Hx| ->].
        -- destruct (Hnew ev x Hx) as [?|[? ?]]; [auto|].
           right. split; [assumption|]. rewrite !elem_of_app. auto.
        -- right. simpl. split; [reflexivity|].
           apply elem_of_app. right. apply list_elem_of_singleton. reflexivity.
      * rewrite fn_lookup_insert_ne by assumption. intros Hx.
        destruct (Hnew ev x Hx) as [?|[? ?]]; [auto|].
        right. split; [assumption|]. rewrite !elem_of_app. auto.
    + intros ev s. rewrite !elem_of_app.
      intros [[Hd|Hd]|Hd]; [apply Hds in Hd; lia| |];
        apply list_elem_of_singleton in Hd; [discriminate|].
      injection Hd as -> ->. lia.
  - split; [lia|]. split; [assumption|]. split.
    + intros ev x Hx. destruct (Hnew ev x Hx) as [?|[? ?]]; [auto|].
      right. split; [assumption|]. rewrite elem_of_app. auto.
    + intros ev s. rewrite elem_of_app.
      intros [Hd|Hd]; [apply Hds in Hd; lia|].
      apply list_elem_of_singleton in Hd. discriminate.
Qed.

Lemma fold_build_inv (H : HintStore) (model : ITextModel) (e : nat) (w0 : World)
    (data : list (InlayHintList * InlayHintsProvider)) (b : Building) :
  build_inv e w0 b -> build_inv e w0 (fold_left (build_pair H model e) data b).
Proof.
  revert b. induction data as [|entry data IH]; intros b Hb; simpl; [assumption|].
  apply IH, build_pair_inv, Hb.
Qed.

Lemma build_inv_init (e : nat) (w0 : World) : build_inv e w0 (mkBuilding [] [] w0).
Proof.
  unfold build_inv; simpl. split; [lia|]. split; [auto|]. split; [auto|].
  intros ev s Hin. inversion Hin.
Qed.

Lemma fold_build_next_emitter (H : HintStore) (model : ITextModel) (e : nat)
    (data : list (InlayHintList * InlayHintsProvider)) (b : Building) :
  next_emitter (b_world (fold_left (build_pair H model e) data b))
  = next_emitter (b_world b).
Proof.
  revert b. induction data as [|[l p] data IH]; intros b; simpl; [reflexivity|].
  rewrite IH. destruct (onDidChangeInlayHints p); reflexivity.
Qed.

Lemma fold_dispose_next_emitter (ds : list Disposable) (w : World) :
  next_emitter (fold_left run_dispose ds w) = next_emitter w.
Proof.
  revert w. induction ds as [|d ds IH]; intros w; simpl; [reflexivity|].
  rewrite IH. destruct d; reflexivity.
Qed.

Lemma silent_forwards (e ev : nat) (w : World) : silent e w -> forwards e ev w = 0%nat.
Proof.
  intros [_ Hs]. unfold forwards, fire_event.
  destruct (filter _ _) as [|x rest] eqn:Hf; [reflexivity|]. exfalso.
  assert (Hx : x ∈ x :: rest) by (apply elem_of_cons; auto).
  rewrite <- Hf in Hx. apply list_elem_of_filter in Hx as [-> Hx].
  apply list_elem_of_In, in_map_iff in Hx as (l & Hl & Hin).
  apply list_elem_of_In in Hin. exact (Hs ev l Hin Hl).
Qed.

(** Whatever is constructed or disposed later, an emitter that no listener
    calls stays that way. *)
Lemma apply_op_silent (e : nat) (op : WorldOp) (w : World) :
  silent e w -> silent e (apply_op w op).
Proof.
  intros [Hlt Hs]. destruct op as [H data model|f]; simpl.
  - unfold new_InlayHintsFragments. simpl.
    set (w0 := mkWorld _ _ _ _ _ _).
    pose proof (fold_build_inv H model (next_emitter w) w0 data _
                  (build_inv_init _ w0)) as (_ & _ & Hnew & _).
    split.
    + rewrite fold_build_next_emitter. simpl. lia.
    + intros ev l Hl. destruct (Hnew ev l Hl) as [Hold|[-> _]]; [|lia].
      apply (Hs ev l Hold).
  - unfold dispose. split.
    + rewrite fold_dispose_next_emitter. exact Hlt.
    + intros ev l Hl. apply fold_dispose_subset in Hl. apply (Hs ev l Hl).
Qed.

Lemma fold_apply_op_silent (e : nat) (ops : list WorldOp) (w : World) :
  silent e w -> silent e (fold_left apply_op ops w).
Proof.
  revert w. induction ops as [|op ops IH]; intros w Hw; simpl; [assumption|].
  apply IH, apply_op_silent, Hw.
Qed.

(** C9 (as stated, refuted): [PB] has a change event and is asked, but
    answers a list without hints; the fragment set does not subscribe to it,
    and firing the event of [PB] calls nothing. *)
Lemma producer_without_hints_not_subscribed :
  exists f w',
    create some_hints [PB] quoted_line [whole_line] empty_answer [0%nat] blank_world
      = Some (f, w') /\
    onDidChangeInlayHints PB = Some 0%nat /\
    fire_event 0 w' = [] /\
    forwards (_onDidChange f) 0 w' = 0%nat.
Proof.
  eexists _, _. split; [reflexivity|]. repeat split; reflexivity.
Qed.

(** C9 (amended): the fragment set subscribes once for every collected
    (list, producer) pair whose producer has a change event, and to no other
    producer; firing such an event calls [fire] of the merged emitter once
    per pair. After [dispose] no listener of any event calls the merged
    emitter, and none does after any later construction or disposal of other
    fragment sets; the listeners that were there before the fragment set was
    made are still there after [dispose]. *)
Theorem subscriptions_of_collected_pairs (H : HintStore)
    (data : list (InlayHintList * InlayHintsProvider)) (model : ITextModel) (w : World) :
  world_wf w ->
  let f := fst (new_InlayHintsFragments H data model w) in
  let w1 := snd (new_InlayHintsFragments H data model w) in
  (forall ev, forwards (_onDidChange f) ev w1
              = length (filter (fun x => x = ev) (subscribed_events data))) /\
  (forall ops ev,
     forwards (_onDidChange f) ev (fold_left apply_op ops (dispose f w1)) = 0%nat) /\
  (forall ev l, l ∈ listeners w ev -> l ∈ listeners (dispose f w1) ev).
Proof.
  intros Hwf f w1. subst f w1. unfold new_InlayHintsFragments, dispose. simpl.
  set (w0 := snd (new_Emitter w)).
  change (mkWorld (listeners w) (next_subscription w) (S (next_emitter w))
            (disposed_emitters w) (disposed_lists w) (sink w)) with w0.
  pose proof (fold_build_inv H model (next_emitter w) w0 data _
                (build_inv_init _ w0)) as (Hnext & Hold & Hnew & Hds).
  set (b := fold_left _ data _) in *.
  split; [|split].
  - intros ev. unfold b. rewrite fold_build_forwards. simpl.
    change (forwards (next_emitter w) ev w0) with (forwards (next_emitter w) ev w).
    rewrite forwards_fresh by assumption. reflexivity.
  - intros ops ev. apply silent_forwards, fold_apply_op_silent. split.
    + rewrite fold_dispose_next_emitter. simpl. unfold b.
      rewrite fold_build_next_emitter. simpl. lia.
    + intros ev' l Hin Hl.
      pose proof (fold_dispose_subset _ _ _ _ Hin) as Hin1. simpl in Hin1.
      destruct (Hnew ev' l Hin1) as [Hw|[_ Hd]].
      * apply Hwf in Hw. lia.
      * exact (fold_dispose_unsubscribed _ _ _ _ Hd Hin).
  - intros ev l Hl. apply fold_dispose_kept; [|simpl; apply Hold, Hl].
    intros ev' s Hd. apply Hds in Hd. apply Hwf in Hl.
    change (next_subscription w0) with (next_subscription w) in Hd. lia.
Qed.

(** [PB] contributes two lists and [PA] one; firing the event of [PB] calls
    the merged emitter twice, and not at all once the fragment set is
    disposed. *)
Lemma subscriptions_of_collected_pairs_witness :
  forwards 0 0 (snd (new_InlayHintsFragments some_hints
                       [(mkHintList [1%nat] 11, PB); (mkHintList [0%nat] 10, PA);
                        (mkHintList [2%nat] 12, PB)]
                       quoted_line blank_world)) = 2%nat /\
  forall ev,
    forwards 0 ev
      (dispose (fst (new_InlayHintsFragments some_hints
                       [(mkHintList [1%nat] 11, PB); (mkHintList [0%nat] 10, PA);
                        (mkHintList [2%nat] 12, PB)]
                       quoted_line blank_world))
               (snd (new_InlayHintsFragments some_hints
                       [(mkHintList [1%nat] 11, PB); (mkHintList [0%nat] 10, PA);
                        (mkHintList [2%nat] 12, PB)]
                       quoted_line blank_world))) = 0%nat.
Proof.
  assert (Hwf : world_wf blank_world).
  { intros ev l Hl. vm_compute in Hl. inversion Hl. }
  split; [reflexivity|].
  exact (proj1 (proj2 (subscriptions_of_collected_pairs some_hints
           [(mkHintList [1%nat] 11, PB); (mkHintList [0%nat] 10, PA);
            (mkHintList [2%nat] 12, PB)] quoted_line blank_world Hwf)) []).
Defined.

(** ** Resolution *)

(** The four ways through [resolve] up to its first [await]. *)
Lemma resolve_cases (this token : nat) (s : State) (pc : Pc) (s' : State) :
  resolve this token s = Some (pc, s') ->
  exists it, st_items s !! this = Some it /\
    ((has_resolveInlayHint (_provider it) = false /\ pc = Returned /\ s' = s) \/
     (has_resolveInlayHint (_provider it) = true /\
      exists p, _currentResolve it = Some p /\ pc = AwaitRetry p /\ s' = s) \/
     (has_resolveInlayHint (_provider it) = true /\ _currentResolve it = None /\
      _isResolved it = true /\ pc = AwaitFinal None /\ s' = s) \/
     (has_resolveInlayHint (_provider it) = true /\ _currentResolve it = None /\
      _isResolved it = false /\ pc = AwaitFinal (Some (length (st_promises s))) /\
      s' = started this token it s)).
Proof.
  unfold resolve. destruct (st_items s !! this) as [it|]; simpl; [|discriminate].
  intros Hr. exists it. split; [reflexivity|].
  destruct (has_resolveInlayHint (_provider it)); simpl in Hr.
  - destruct (_currentResolve it) as [p|].
    + injection Hr as <- <-. right. left. eauto.
    + destruct (_isResolved it); simpl in Hr; injection Hr as <- <-.
      * right. right. left. auto.
      * right. right. right. auto.
  - injection Hr as <- <-. left. auto.
Qed.

Lemma resolve_is_Some (this token : nat) (s : State) (it : InlayHintItem) :
  st_items s !! this = Some it -> is_Some (resolve this token s).
Proof.
  intros Hit. unfold resolve. rewrite Hit. simpl.
  destruct (negb _); [eauto|].
  destruct (_currentResolve it); [eauto|].
  destruct (negb _); eauto.
Qed.

(** [_doResolve] past its [await], on a result and on a failure. *)
Lemma _doResolve_resume_result (this h : nat) (newHint : option InlayHint) (s : State) :
  _doResolve_resume this h (inr newHint) s =
  (inr tt,
   set_items (alter (set_isResolved true) this)
     (set_hints
        (fun H => <[h := set_label (coalesce (opt_label newHint) (label (H h))) (H h)]> H)
        (set_hints
           (fun H => <[h := set_tooltip (coalesce (opt_tooltip newHint) (tooltip (H h))) (H h)]> H)
           s))).
Proof. reflexivity. Qed.

Lemma _doResolve_resume_failure (this h : nat) (err : Error) (s : State) :
  _doResolve_resume this h (inl err) s =
  (inr tt,
   set_items (alter (set_isResolved false) this)
     (set_sink (onUnexpectedExternalError err) s)).
Proof. reflexivity. Qed.

(** The [try] of [_doResolve] lets nothing out. *)
Lemma _doResolve_resume_normal (this h : nat) (answer : Error + option InlayHint)
    (s : State) :
  completion_of (fst (_doResolve_resume this h answer s)) = Normal.
Proof. destruct answer; reflexivity. Qed.

Lemma settlement_Some (s : State) (p : nat) (c : Completion) :
  settlement s p = Some c <->
  exists this, st_promises s !! p = Some (mkOp this (Settled c)).
Proof.
  unfold settlement. destruct (st_promises s !! p) as [[this ph]|].
  - destruct ph; split; try discriminate.
    + intros [? [=]].
    + intros [? [=]].
    + intros [= ->]. eauto.
    + intros [? [= -> ->]]. reflexivity.
  - split; [discriminate|]. intros [? [=]].
Qed.

(** What the answer of the producer does to the state. *)
Lemma answer_cases (this h : nat) (answer : Error + option InlayHint) (s : State) :
  exists r s', _doResolve_resume this h answer s = (r, s') /\
    completion_of r = Normal /\
    st_promises s' = st_promises s /\ st_tasks s' = st_tasks s /\
    st_cancelled s' = st_cancelled s /\ st_calls s' = st_calls s /\
    exists b, st_items s' = alter (set_isResolved b) this (st_items s).
Proof.
  destruct answer as [err|newHint].
  - rewrite _doResolve_resume_failure. eexists _, _. split; [reflexivity|].
    simpl. repeat split. exists false. reflexivity.
  - rewrite _doResolve_resume_result. eexists _, _. split; [reflexivity|].
    simpl. repeat split. exists true. reflexivity.
Qed.

Lemma step_never_thrown (e : Event) (s : State) :
  never_thrown s -> never_thrown (step e s).
Proof.
  intros [Hops Htasks]. destruct e as [this token|p answer|p|t|token|this a]; simpl.
  - destruct (resolve this token s) as [[pc s']|] eqn:Hr; [|split; assumption].
    apply resolve_cases in Hr
      as (it & Hit & [(_ & -> & ->)|[(_ & p & _ & -> & ->)|[(_ & _ & _ & -> & ->)|(_ & _ & _ & -> & ->)]]]);
      split; simpl; rewrite ?Forall_app; repeat split; auto; repeat constructor.
  - destruct (st_promises s !! p) as [[this ph]|] eqn:Hp; [|split; assumption].
    destruct ph; try (split; assumption).
    destruct (st_items s !! this) as [it|]; [|split; assumption].
    destruct (answer_cases this (hint it) answer s)
      as (r & s' & -> & Hr & Hps & Hts & _).
    split; simpl; rewrite ?Hps, ?Hts; [|assumption].
    apply Forall_alter; [assumption|]. intros o _ _.
    unfold op_normal. simpl. rewrite Hr. exact I.
  - destruct (st_promises s !! p) as [[this ph]|] eqn:Hp; [|split; assumption].
    destruct ph as [|c|c]; try (split; assumption).
    split; simpl; [|assumption].
    apply Forall_alter; [assumption|]. intros o Ho Hn.
    rewrite Hp in Ho. injection Ho as <-. exact Hn.
  - destruct (st_tasks s !! t) as [[item token pc]|] eqn:Ht; [|split; assumption].
    assert (Hset : forall pc', task_normal (mkTask item token pc') ->
              never_thrown (set_tasks (alter (set_pc pc') t) s)).
    { intros pc' Hpc'. split; simpl; [assumption|].
      apply Forall_alter; [assumption|]. intros k Hk _.
      rewrite Ht in Hk. injection Hk as <-. exact Hpc'. }
    assert (Hnormal : forall p err, settlement s p <> Some (Abrupt err)).
    { intros p err Hs. apply settlement_Some in Hs as [this Hp].
      rewrite Forall_lookup in Hops. exact (Hops _ _ Hp). }
    destruct pc as [p|[p|]| |err]; try (split; assumption).
    + destruct (settlement s p) as [[|err]|] eqn:Hs; [| |split; assumption].
      * case_bool_decide; [apply Hset; exact I|].
        destruct (resolve item token s) as [[pc s']|] eqn:Hr; [|split; assumption].
        apply resolve_cases in Hr
          as (it & Hit & [(_ & -> & ->)|[(_ & q & _ & -> & ->)|[(_ & _ & _ & -> & ->)|(_ & _ & _ & -> & ->)]]]);
          try (apply Hset; exact I).
        split; simpl.
        -- rewrite Forall_app. split; [assumption|repeat constructor].
        -- apply Forall_alter; [assumption|]. intros k _ _. exact I.
      * destruct (Hnormal _ _ Hs).
    + destruct (settlement s p) as [[|err]|] eqn:Hs; [| |split; assumption].
      * apply Hset. exact I.
      * destruct (Hnormal _ _ Hs).
    + apply Hset. exact I.
  - split; assumption.
  - destruct (st_items s !! this); split; assumption.
Qed.

Lemma run_app (evs evs' : list Event) (s : State) :
  run (evs ++ evs') s = run evs' (run evs s).
Proof. unfold run. apply fold_left_app. Qed.

Lemma run_never_thrown (evs : list Event) (s : State) :
  never_thrown s -> never_thrown (run evs s).
Proof.
  revert s. induction evs as [|e evs IH]; intros s Hs; simpl; [assumption|].
  apply IH, step_never_thrown, Hs.
Qed.

Lemma init_never_thrown (H : HintStore)
    (news : list (nat * InlayHintAnchor * InlayHintsProvider)) :
  never_thrown (init H news).
Proof. split; constructor. Qed.

(** No call of [resolve] ever throws, and no operation ever fails. *)
Lemma reachable_never_thrown (s : State) : reachable s -> never_thrown s.
Proof.
  intros (H & news & evs & ->). apply run_never_thrown, init_never_thrown.
Qed.

(** *** One operation in flight per item *)

Lemma single_flight_ext (s s' : State) :
  st_items s' = st_items s -> st_promises s' = st_promises s ->
  single_flight s -> single_flight s'.
Proof. unfold single_flight. intros -> ->. auto. Qed.

Lemma started_single_flight (this token : nat) (it : InlayHintItem) (s : State) :
  st_items s !! this = Some it -> _currentResolve it = None ->
  single_flight s -> single_flight (started this token it s).
Proof.
  intros Hit Hnone Hsf p o Hp Hfl. simpl in *.
  apply lookup_app_Some in Hp as [Hp|[Hge Hp]].
  - destruct (Hsf p o Hp Hfl) as (it' & Hit' & Hcur).
    destruct (decide (owner o = this)) as [Heq|Hne].
    + rewrite Heq, Hit in Hit'. injection Hit' as <-. congruence.
    + exists it'. rewrite list_lookup_alter_ne by auto. auto.
  - apply list_lookup_singleton_Some in Hp as [Hp <-]. simpl.
    assert (p = length (st_promises s)) as -> by lia.
    exists (set_currentResolve (Some (length (st_promises s))) it).
    rewrite list_lookup_alter_eq, Hit. auto.
Qed.

Lemma resolve_single_flight (this token : nat) (s : State) (pc : Pc) (s' : State) :
  resolve this token s = Some (pc, s') -> single_flight s -> single_flight s'.
Proof.
  intros Hr Hsf.
  apply resolve_cases in Hr
    as (it & Hit & [(_ & _ & ->)|[(_ & p & _ & _ & ->)|[(_ & _ & _ & _ & ->)|(_ & Hnone & _ & _ & ->)]]]);
    auto using started_single_flight.
Qed.

Lemma step_single_flight (e : Event) (s : State) :
  single_flight s -> single_flight (step e s).
Proof.
  intros Hsf. destruct e as [this token|p answer|p|t|token|this a]; simpl.
  - destruct (resolve this token s) as [[pc s']|] eqn:Hr; [|assumption].
    eapply single_flight_ext; [| |eapply resolve_single_flight; eauto]; reflexivity.
  - destruct (st_promises s !! p) as [[this ph]|] eqn:Hp; [|assumption].
    destruct ph; try assumption.
    destruct (st_items s !! this) as [it|] eqn:Hit; [|assumption].
    destruct (answer_cases this (hint it) answer s)
      as (r & s' & -> & Hr & Hps & _ & _ & _ & b & Hits).
    intros q o Hq Hfl. simpl in Hq. rewrite Hps in Hq. simpl. rewrite Hits.
    assert (exists o0, st_promises s !! q = Some o0 /\ owner o0 = owner o /\
                       is_in_flight o0 = true) as (o0 & Hq0 & Hown & Hfl0).
    { rewrite list_lookup_alter in Hq. case_decide as Hpq.
      - subst q. rewrite Hp in Hq. simpl in Hq. injection Hq as <-.
        exists (mkOp this Running). auto.
      - eauto. }
    destruct (Hsf q o0 Hq0 Hfl0) as (it' & Hit' & Hcur). rewrite Hown in Hit'.
    rewrite list_lookup_alter. case_decide as Heq.
    + rewrite Heq, Hit'. simpl. eexists. split; [reflexivity|]. exact Hcur.
    + eauto.
  - destruct (st_promises s !! p) as [[this ph]|] eqn:Hp; [|assumption].
    destruct ph as [|c|c]; try assumption.
    intros q o Hq Hfl. simpl in *.
    rewrite list_lookup_alter in Hq. case_decide as Hpq.
    { subst q. rewrite Hp in Hq. simpl in Hq. injection Hq as <-. discriminate. }
    destruct (Hsf q o Hq Hfl) as (it' & Hit' & Hcur).
    destruct (Hsf p _ Hp eq_refl) as (it & Hit & Hcurp). simpl in Hit.
    rewrite list_lookup_alter. case_decide as Heq; [|eauto].
    rewrite <- Heq, Hit in Hit'. injection Hit' as <-. congruence.
  - destruct (st_tasks s !! t) as [[item token pc]|]; [|assumption].
    destruct pc as [p|[p|]| |err]; try assumption.
    + destruct (settlement s p) as [[|err]|]; try assumption.
      case_bool_decide; [assumption|].
      destruct (resolve item token s) as [[pc s']|] eqn:Hr; [|assumption].
      eapply single_flight_ext; [| |eapply resolve_single_flight; eauto]; reflexivity.
    + destruct (settlement s p) as [[|err]|]; assumption.
  - assumption.
  - destruct (st_items s !! this) as [it|]; [|assumption].
    intros q o Hq Hfl. simpl in *.
    destruct (Hsf q o Hq Hfl) as (it' & Hit' & Hcur).
    exists it'. split; [|assumption]. apply lookup_app_l_Some, Hit'.
Qed.

Lemma run_single_flight (evs : list Event) (s : State) :
  single_flight s -> single_flight (run evs s).
Proof.
  revert s. induction evs as [|e evs IH]; intros s Hs; simpl; [assumption|].
  apply IH, step_single_flight, Hs.
Qed.

Lemma reachable_single_flight (s : State) : reachable s -> single_flight s.
Proof.
  intros (H & news & evs & ->). apply run_single_flight.
  intros p o Hp. simpl in Hp. rewrite lookup_nil in Hp. discriminate.
Qed.

Lemma single_flight_at_most_one (s : State) :
  single_flight s -> at_most_one_in_flight s.
Proof.
  intros Hsf p q o o' Hp Hq Hfl Hfl' Hown.
  destruct (Hsf p o Hp Hfl) as (it & Hit & Hcur).
  destruct (Hsf q o' Hq Hfl') as (it' & Hit' & Hcur').
  rewrite Hown, Hit' in Hit. injection Hit as <-. congruence.
Qed.

(** *** Operations and their items *)

Lemma owners_exist_ext (s s' : State) :
  length (st_items s') = length (st_items s) -> st_promises s' = st_promises s ->
  owners_exist s -> owners_exist s'.
Proof. unfold owners_exist. intros -> ->. auto. Qed.

Lemma resolve_owners_exist (this token : nat) (s : State) (pc : Pc) (s' : State) :
  resolve this token s = Some (pc, s') -> owners_exist s -> owners_exist s'.
Proof.
  intros Hr Hs.
  apply resolve_cases in Hr
    as (it & Hit & [(_ & _ & ->)|[(_ & p & _ & _ & ->)|[(_ & _ & _ & _ & ->)|(_ & _ & _ & _ & ->)]]]);
    auto.
  unfold owners_exist in *. simpl. rewrite length_alter.
  apply Forall_app. split; [assumption|].
  repeat constructor. simpl. apply lookup_lt_Some in Hit. exact Hit.
Qed.

Lemma step_owners_exist (e : Event) (s : State) :
  owners_exist s -> owners_exist (step e s).
Proof.
  intros Hs. destruct e as [this token|p answer|p|t|token|this a]; simpl.
  - destruct (resolve this token s) as [[pc s']|] eqn:Hr; [|assumption].
    eapply owners_exist_ext; [| |eapply resolve_owners_exist; eauto]; reflexivity.
  - destruct (st_promises s !! p) as [[this ph]|] eqn:Hp; [|assumption].
    destruct ph; try assumption.
    destruct (st_items s !! this) as [it|] eqn:Hit; [|assumption].
    destruct (answer_cases this (hint it) answer s)
      as (r & s' & -> & Hr & Hps & _ & _ & _ & b & Hits).
    unfold owners_exist in *. simpl. rewrite Hps, Hits, length_alter.
    apply Forall_alter; [assumption|]. auto.
  - destruct (st_promises s !! p) as [[this ph]|] eqn:Hp; [|assumption].
    destruct ph as [|c|c]; try assumption.
    unfold owners_exist in *. simpl. rewrite length_alter.
    apply Forall_alter; [assumption|]. auto.
  - destruct (st_tasks s !! t) as [[item token pc]|]; [|assumption].
    destruct pc as [p|[p|]| |err]; try assumption.
    + destruct (settlement s p) as [[|err]|]; try assumption.
      case_bool_decide; [assumption|].
      destruct (resolve item token s) as [[pc s']|] eqn:Hr; [|assumption].
      eapply owners_exist_ext; [| |eapply resolve_owners_exist; eauto]; reflexivity.
    + destruct (settlement s p) as [[|err]|]; assumption.
  - assumption.
  - destruct (st_items s !! this) as [it|]; [|assumption].
    unfold owners_exist in *. simpl. rewrite length_app. simpl.
    eapply List.Forall_impl; [|exact Hs]. simpl. intros o Ho. lia.
Qed.

Lemma reachable_owners_exist (s : State) : reachable s -> owners_exist s.
Proof.
  intros (H & news & evs & ->). generalize (init H news) (Forall_nil_2 _ : owners_exist (init H news)).
  induction evs as [|e evs IH]; intros s Hs; simpl; [assumption|].
  apply IH, step_owners_exist, Hs.
Qed.

(** *** A copy made while a handle is set *)

Lemma stale_copy_ext (c p : nat) (s s' : State) :
  st_items s' = st_items s -> st_promises s' = st_promises s ->
  stale_copy c p s -> stale_copy c p s'.
Proof. unfold stale_copy. intros -> ->. auto. Qed.

(** On such a copy [resolve] goes to the wait of line 40 and changes
    nothing. *)
Lemma resolve_stale (c p token : nat) (s : State) :
  stale_copy c p s -> resolve c token s = Some (AwaitRetry p, s).
Proof.
  intros [(it & Hit & Hcur & Hhas) _]. unfold resolve.
  rewrite Hit. simpl. rewrite Hhas, Hcur. reflexivity.
Qed.

Lemma resolve_stale_copy (c p this token : nat) (s : State) (pc : Pc) (s' : State) :
  resolve this token s = Some (pc, s') -> stale_copy c p s -> stale_copy c p s'.
Proof.
  intros Hr Hs.
  apply resolve_cases in Hr
    as (it & Hit & [(_ & _ & ->)|[(_ & q & _ & _ & ->)|[(_ & _ & _ & _ & ->)|(_ & Hnone & _ & _ & ->)]]]);
    auto.
  destruct Hs as [(itc & Hc & Hcur & Hhas) Hown].
  assert (this <> c) as Hne by (intros ->; congruence).
  split; simpl.
  - exists itc. rewrite list_lookup_alter_ne by assumption. auto.
  - apply Forall_app. split; [assumption|]. repeat constructor. exact Hne.
Qed.

Lemma step_stale_copy (c p : nat) (e : Event) (s : State) :
  stale_copy c p s -> stale_copy c p (step e s).
Proof.
  intros Hs. destruct e as [this token|q answer|q|t|token|this a]; simpl.
  - destruct (resolve this token s) as [[pc s']|] eqn:Hr; [|assumption].
    eapply stale_copy_ext; [| |eapply resolve_stale_copy; eauto]; reflexivity.
  - destruct (st_promises s !! q) as [[this ph]|] eqn:Hq; [|assumption].
    destruct ph; try assumption.
    destruct (st_items s !! this) as [it|] eqn:Hit; [|assumption].
    destruct (answer_cases this (hint it) answer s)
      as (r & s' & -> & Hr & Hps & _ & _ & _ & b & Hits).
    destruct Hs as [(itc & Hc & Hcur & Hhas) Hown].
    assert (this <> c) as Hne.
    { rewrite Forall_lookup in Hown. exact (Hown _ _ Hq). }
    split; simpl; rewrite ?Hps, ?Hits.
    + exists itc. rewrite list_lookup_alter_ne by assumption. auto.
    + apply Forall_alter; [assumption|]. auto.
  - destruct (st_promises s !! q) as [[this ph]|] eqn:Hq; [|assumption].
    destruct ph as [|k|k]; try assumption.
    destruct Hs as [(itc & Hc & Hcur & Hhas) Hown].
    assert (this <> c) as Hne.
    { rewrite Forall_lookup in Hown. exact (Hown _ _ Hq). }
    split; simpl.
    + exists itc. rewrite list_lookup_alter_ne by assumption. auto.
    + apply Forall_alter; [assumption|]. auto.
  - destruct (st_tasks s !! t) as [[item token pc]|]; [|assumption].
    destruct pc as [q|[q|]| |err]; try assumption.
    + destruct (settlement s q) as [[|err]|]; try assumption.
      case_bool_decide; [assumption|].
      destruct (resolve item token s) as [[pc s']|] eqn:Hr; [|assumption].
      eapply stale_copy_ext; [| |eapply resolve_stale_copy; eauto]; reflexivity.
    + destruct (settlement s q) as [[|err]|]; assumption.
  - assumption.
  - destruct (st_items s !! this) as [it|]; [|assumption].
    destruct Hs as [(itc & Hc & Hcur & Hhas) Hown].
    split; simpl; [|assumption].
    exists itc. split; [|auto]. apply lookup_app_l_Some, Hc.
Qed.

Lemma run_stale_copy (c p : nat) (evs : list Event) (s : State) :
  stale_copy c p s -> stale_copy c p (run evs s).
Proof.
  revert s. induction evs as [|e evs IH]; intros s Hs; simpl; [assumption|].
  apply IH, step_stale_copy, Hs.
Qed.

(** [with] on an item that holds a handle makes such a copy. *)
Lemma with_stale_copy (this p : nat) (a : InlayHintAnchor) (it : InlayHintItem) (s : State) :
  owners_exist s ->
  st_items s !! this = Some it ->
  has_resolveInlayHint (_provider it) = true ->
  _currentResolve it = Some p ->
  stale_copy (length (st_items s)) p (step (EWith this a) s).
Proof.
  intros Hown Hit Hhas Hcur. simpl. rewrite Hit. split; simpl.
  - exists (with_ it a). rewrite lookup_app_r by lia.
    rewrite Nat.sub_diag. simpl. auto.
  - eapply List.Forall_impl; [|exact Hown]. simpl. intros o Ho. lia.
Qed.

Lemma resolve_frame (this token : nat) (s : State) (pc : Pc) (s' : State) :
  resolve this token s = Some (pc, s') ->
  st_tasks s' = st_tasks s /\ st_cancelled s' = st_cancelled s /\
  st_hints s' = st_hints s /\ st_sink s' = st_sink s.
Proof.
  intros Hr.
  apply resolve_cases in Hr
    as (it & Hit & [(_ & _ & ->)|[(_ & q & _ & _ & ->)|[(_ & _ & _ & _ & ->)|(_ & _ & _ & _ & ->)]]]);
    auto.
Qed.

(** A token once cancelled stays cancelled. *)
Lemma step_cancelled_mono (e : Event) (s : State) (token : nat) :
  token ∈ st_cancelled s -> token ∈ st_cancelled (step e s).
Proof.
  intros Hc. destruct e as [this tk|q answer|q|t|tk|this a]; simpl.
  - destruct (resolve this tk s) as [[pc s']|] eqn:Hr; [|assumption].
    apply resolve_frame in Hr as (_ & Hcs & _). simpl. rewrite Hcs. assumption.
  - destruct (st_promises s !! q) as [[this ph]|]; [|assumption].
    destruct ph; try assumption.
    destruct (st_items s !! this) as [it|]; [|assumption].
    destruct (answer_cases this (hint it) answer s)
      as (r & s' & -> & _ & _ & _ & Hcs & _).
    simpl. rewrite Hcs. assumption.
  - destruct (st_promises s !! q) as [[this ph]|]; [|assumption].
    destruct ph; assumption.
  - destruct (st_tasks s !! t) as [[item tk pc]|]; [|assumption].
    destruct pc as [q|[q|]| |err]; try assumption.
    + destruct (settlement s q) as [[|err]|]; try assumption.
      case_bool_decide; [assumption|].
      destruct (resolve item tk s) as [[pc s']|] eqn:Hr; [|assumption].
      apply resolve_frame in Hr as (_ & Hcs & _). simpl. rewrite Hcs. assumption.
    + destruct (settlement s q) as [[|err]|]; assumption.
  - apply elem_of_cons. auto.
  - destruct (st_items s !! this); assumption.
Qed.

(** A call of [resolve] on the copy that waits for the stale handle is put
    back to the same wait every time it continues. *)
Lemma step_waits_forever (c p t token : nat) (e : Event) (s : State) :
  never_thrown s -> stale_copy c p s ->
  waits_forever c p t token s -> waits_forever c p t token (step e s).
Proof.
  intros [Hops _] Hstale [Hc|Ht]; [left; apply step_cancelled_mono, Hc|].
  destruct e as [this tk|q answer|q|t'|tk|this a]; simpl.
  - destruct (resolve this tk s) as [[pc s']|] eqn:Hr; [|right; assumption].
    apply resolve_frame in Hr as (Hts & _). right. simpl. rewrite Hts.
    apply lookup_app_l_Some, Ht.
  - destruct (st_promises s !! q) as [[this ph]|]; [|right; assumption].
    destruct ph; try (right; assumption).
    destruct (st_items s !! this) as [it|]; [|right; assumption].
    destruct (answer_cases this (hint it) answer s)
      as (r & s' & -> & _ & _ & Hts & _).
    right. simpl. rewrite Hts. assumption.
  - destruct (st_promises s !! q) as [[this ph]|]; [|right; assumption].
    destruct ph; right; assumption.
  - destruct (decide (t' = t)) as [->|Hne].
    + rewrite Ht.
      destruct (settlement s p) as [[|err]|] eqn:Hs; [| |right; assumption].
      * case_bool_decide as Hcan; [left; assumption|].
        rewrite (resolve_stale c p token s Hstale).
        right. simpl. rewrite list_lookup_alter_eq, Ht. reflexivity.
      * exfalso. apply settlement_Some in Hs as [this Hp].
        rewrite Forall_lookup in Hops. exact (Hops _ _ Hp).
    + assert (Hkeep : forall pc s', st_tasks s' = st_tasks s ->
                waits_forever c p t token (set_tasks (alter (set_pc pc) t') s')).
      { intros pc s' Hts. right. simpl. rewrite Hts, list_lookup_alter_ne by assumption.
        exact Ht. }
      destruct (st_tasks s !! t') as [[item tk pc]|]; [|right; assumption].
      destruct pc as [q|[q|]| |err]; try (right; assumption).
      * destruct (settlement s q) as [[|err]|]; try (right; assumption); [|auto].
        case_bool_decide; [auto|].
        destruct (resolve item tk s) as [[pc s']|] eqn:Hr; [|right; assumption].
        apply resolve_frame in Hr as (Hts & _). auto.
      * destruct (settlement s q) as [[|err]|]; try (right; assumption); auto.
      * auto.
  - right. assumption.
  - destruct (st_items s !! this); right; assumption.
Qed.

Lemma run_waits_forever (c p t token : nat) (evs : list Event) (s : State) :
  never_thrown s -> stale_copy c p s ->
  waits_forever c p t token s -> waits_forever c p t token (run evs s).
Proof.
  revert s. induction evs as [|e evs IH]; intros s Hn Hs Hw; simpl; [assumption|].
  apply IH; auto using step_never_thrown, step_stale_copy, step_waits_forever.
Qed.

(** Continuing such a call starts nothing: the state is as it was, up to
    the task being written back. *)
Lemma resume_stale (c p t token : nat) (s : State) :
  stale_copy c p s ->
  st_tasks s !! t = Some (mkTask c token (AwaitRetry p)) ->
  token ∉ st_cancelled s ->
  st_calls (step (EResume t) s) = st_calls s /\
  st_promises (step (EResume t) s) = st_promises s /\
  st_items (step (EResume t) s) = st_items s /\
  st_cancelled (step (EResume t) s) = st_cancelled s /\
  (settlement s p = Some Normal ->
   st_tasks (step (EResume t) s) !! t = Some (mkTask c token (AwaitRetry p))).
Proof.
  intros Hstale Ht Hcan. simpl. rewrite Ht.
  destruct (settlement s p) as [[|err]|]; simpl;
    [|repeat split; auto; discriminate..].
  rewrite bool_decide_eq_false_2 by assumption.
  rewrite (resolve_stale c p token s Hstale). simpl.
  repeat split; auto. intros _. rewrite list_lookup_alter_eq, Ht. reflexivity.
Qed.

Lemma resume_stale_n (c p t token : nat) (n : nat) (s : State) :
  stale_copy c p s -> never_thrown s ->
  st_tasks s !! t = Some (mkTask c token (AwaitRetry p)) ->
  token ∉ st_cancelled s ->
  st_calls (run (repeat (EResume t) n) s) = st_calls s /\
  st_promises (run (repeat (EResume t) n) s) = st_promises s /\
  st_tasks (run (repeat (EResume t) n) s) !! t = Some (mkTask c token (AwaitRetry p)).
Proof.
  revert s. induction n as [|n IH]; intros s Hstale Hn Ht Hcan; [simpl; auto|].
  change (run (repeat (EResume t) (S n)) s)
    with (run (repeat (EResume t) n) (step (EResume t) s)).
  destruct (resume_stale c p t token s Hstale Ht Hcan) as (Hcs & Hps & Hits & Hcan' & _).
  assert (Ht' : st_tasks (step (EResume t) s) !! t = Some (mkTask c token (AwaitRetry p))).
  { destruct (step_waits_forever c p t token (EResume t) s Hn Hstale (or_intror Ht))
      as [Hin|Hw]; [|exact Hw].
    rewrite Hcan' in Hin. contradiction. }
  destruct (IH (step (EResume t) s)) as (Hc1 & Hp1 & Ht1);
    auto using step_stale_copy, step_never_thrown.
  { rewrite Hcan'. assumption. }
  rewrite Hc1, Hp1, Hcs, Hps. auto.
Qed.

(** *** The turns of one resolution, one by one *)

Lemma step_resolve_start (this token : nat) (it : InlayHintItem) (s : State) :
  st_items s !! this = Some it ->
  has_resolveInlayHint (_provider it) = true ->
  _currentResolve it = None -> _isResolved it = false ->
  step (EResolve this token) s =
  set_tasks (fun ts => ts ++ [mkTask this token (AwaitFinal (Some (length (st_promises s))))])
    (started this token it s).
Proof.
  intros Hit Hhas Hcur Hres. simpl. unfold resolve.
  rewrite Hit. simpl. rewrite Hhas, Hcur, Hres. reflexivity.
Qed.

Lemma step_resolve_wait (this token p : nat) (it : InlayHintItem) (s : State) :
  st_items s !! this = Some it ->
  has_resolveInlayHint (_provider it) = true ->
  _currentResolve it = Some p ->
  step (EResolve this token) s =
  set_tasks (fun ts => ts ++ [mkTask this token (AwaitRetry p)]) s.
Proof.
  intros Hit Hhas Hcur. simpl. unfold resolve.
  rewrite Hit. simpl. rewrite Hhas, Hcur. reflexivity.
Qed.

Lemma step_answer (p this : nat) (it : InlayHintItem)
    (answer : Error + option InlayHint) (s : State) :
  st_promises s !! p = Some (mkOp this Running) ->
  st_items s !! this = Some it ->
  step (EAnswer p answer) s =
  set_promises (alter (set_phase (BodyDone Normal)) p)
    (snd (_doResolve_resume this (hint it) answer s)).
Proof.
  intros Hp Hit. simpl. rewrite Hp, Hit.
  destruct answer; reflexivity.
Qed.

Lemma step_finally (p this : nat) (c : Completion) (s : State) :
  st_promises s !! p = Some (mkOp this (BodyDone c)) ->
  step (EFinally p) s =
  set_promises (alter (set_phase (Settled c)) p)
    (set_items (alter (set_currentResolve None) this) s).
Proof. intros Hp. simpl. rewrite Hp. reflexivity. Qed.

Lemma step_resume_final (t item token p : nat) (s : State) :
  st_tasks s !! t = Some (mkTask item token (AwaitFinal (Some p))) ->
  settlement s p = Some Normal ->
  step (EResume t) s = set_tasks (alter (set_pc Returned) t) s.
Proof. intros Ht Hs. simpl. rewrite Ht, Hs. reflexivity. Qed.

Lemma item_eta (it : InlayHintItem) :
  mkItem (hint it) (anchor it) (_provider it) (_isResolved it) (_currentResolve it) = it.
Proof. destruct it. reflexivity. Qed.

Lemma store_lookup_insert (H : HintStore) (h : nat) (v : InlayHint) :
  (<[h := v]> H) h = v.
Proof. unfold insert, fn_insert. rewrite decide_True by reflexivity. reflexivity. Qed.

Lemma store_lookup_insert_ne (H : HintStore) (h h' : nat) (v : InlayHint) :
  h <> h' -> (<[h := v]> H) h' = H h'.
Proof. intros Hne. unfold insert, fn_insert. rewrite decide_False by assumption. reflexivity. Qed.

(** C4 (as stated, refuted): the item of [PA] for hint 0 is resolved and
    the producer answers a hint whose label and tooltip are the empty
    string. Both fields are overwritten with the empty string. *)
Lemma empty_replacement_overwrites :
  is_empty (opt_label empty_fields) = true /\
  is_empty (opt_tooltip empty_fields) = true /\
  label (st_hints (step (EResolve 0 7) one_item) 0%nat) = JString "hint" /\
  tooltip (st_hints (step (EResolve 0 7) one_item) 0%nat) = JUndefined /\
  label (st_hints (run [EResolve 0 7; EAnswer 0 (inr empty_fields)] one_item) 0%nat)
    = JString EmptyString /\
  tooltip (st_hints (run [EResolve 0 7; EAnswer 0 (inr empty_fields)] one_item) 0%nat)
    = JString EmptyString.
Proof. repeat split; reflexivity. Qed.

(** C4 (amended): when the producer's answer to a resolve operation is a
    result, the tooltip and the label of the hint are overwritten with the
    fields of the result that are neither [undefined] nor [null], the empty
    string included; a field that is [undefined] or [null], or a result that
    is itself [undefined] or [null], leaves the hint's field as it was. The
    position and the other hints are untouched, nothing is reported, and
    the item's resolved flag is true. *)
Theorem successful_resolve_overwrites (s : State) (p this : nat) (it : InlayHintItem)
    (newHint : option InlayHint) :
  st_promises s !! p = Some (mkOp this Running) ->
  st_items s !! this = Some it ->
  let s' := step (EAnswer p (inr newHint)) s in
  tooltip (st_hints s' (hint it)) =
    (if nullish (opt_tooltip newHint) then tooltip (st_hints s (hint it))
     else opt_tooltip newHint) /\
  label (st_hints s' (hint it)) =
    (if nullish (opt_label newHint) then label (st_hints s (hint it))
     else opt_label newHint) /\
  position (st_hints s' (hint it)) = position (st_hints s (hint it)) /\
  (forall h, h <> hint it -> st_hints s' h = st_hints s h) /\
  st_items s' !! this = Some (set_isResolved true it) /\
  st_sink s' = st_sink s.
Proof.
  intros Hp Hit s'. subst s'. rewrite (step_answer p this it _ s Hp Hit).
  rewrite _doResolve_resume_result. simpl.
  rewrite !store_lookup_insert. simpl.
  repeat split.
  - intros h Hne. rewrite !store_lookup_insert_ne by auto. reflexivity.
  - rewrite list_lookup_alter_eq, Hit. reflexivity.
Qed.

Lemma successful_resolve_overwrites_witness :
  tooltip (st_hints (run [EResolve 0 7; EAnswer 0 (inr (Some (mkHint (mkPosition 1 5)
             JNull (JString "doc"))))] one_item) 0%nat) = JString "doc" /\
  label (st_hints (run [EResolve 0 7; EAnswer 0 (inr (Some (mkHint (mkPosition 1 5)
             JNull (JString "doc"))))] one_item) 0%nat) = JString "hint".
Proof.
  pose proof (successful_resolve_overwrites (step (EResolve 0 7) one_item) 0 0
                (mkItem 0 an_anchor PA false (Some 0%nat))
                (Some (mkHint (mkPosition 1 5) JNull (JString "doc")))
                eq_refl eq_refl) as (Ht & Hl & _).
  split; [exact Ht | exact Hl].
Defined.

Lemma state_eq (a b : State) :
  st_hints a = st_hints b -> st_items a = st_items b ->
  st_promises a = st_promises b -> st_tasks a = st_tasks b ->
  st_cancelled a = st_cancelled b -> st_calls a = st_calls b ->
  st_sink a = st_sink b -> a = b.
Proof. destruct a, b. simpl. intros. subst. reflexivity. Qed.

(** What a first call of [resolve] followed by the producer's failure, the
    callback of [finally] and the caller's continuation leaves behind. *)
Lemma failed_resolution_state (s : State) (this token : nat) (it : InlayHintItem)
    (err : Error) :
  st_items s !! this = Some it ->
  has_resolveInlayHint (_provider it) = true ->
  _currentResolve it = None -> _isResolved it = false ->
  run [EResolve this token; EAnswer (length (st_promises s)) (inl err);
       EFinally (length (st_promises s)); EResume (length (st_tasks s))] s =
  mkState (st_hints s) (st_items s)
    (st_promises s ++ [mkOp this (Settled Normal)])
    (st_tasks s ++ [mkTask this token Returned])
    (st_cancelled s)
    (st_calls s ++ [mkCall (pid (_provider it)) (hint it) token])
    (st_sink s ++ [err]).
Proof.
  intros Hit Hhas Hcur Hres. pose proof (lookup_lt_Some _ _ _ Hit) as Hlt.
  unfold run. cbn [fold_left].
  rewrite (step_resolve_start this token it s Hit Hhas Hcur Hres).
  set (p := length (st_promises s)). set (t := length (st_tasks s)).
  erewrite (step_answer p this (set_currentResolve (Some p) it)).
  2: { simpl. apply list_lookup_middle. reflexivity. }
  2: { simpl. rewrite list_lookup_alter_eq, Hit. reflexivity. }
  rewrite _doResolve_resume_failure.
  erewrite (step_finally p this Normal).
  2: { simpl. rewrite list_lookup_alter_eq, list_lookup_middle by reflexivity.
       reflexivity. }
  erewrite (step_resume_final t this token p).
  2: { simpl. apply list_lookup_middle. reflexivity. }
  2: { apply settlement_Some. exists this. simpl.
       rewrite !list_lookup_alter_eq, list_lookup_middle by reflexivity. reflexivity. }
  apply state_eq; simpl; try reflexivity.
  - apply list_eq. intros i. rewrite !list_lookup_alter.
    destruct (decide (this = i)) as [<-|Hne]; [|reflexivity].
    rewrite !decide_True by reflexivity. rewrite Hit. simpl.
    destruct it; simpl in *; subst; reflexivity.
  - rewrite !alter_app_r_alt by (fold p; lia).
    replace (p - length (st_promises s))%nat with 0%nat by (subst p; lia).
    reflexivity.
  - rewrite alter_app_r_alt by (fold t; lia).
    replace (t - length (st_tasks s))%nat with 0%nat by (subst t; lia).
    reflexivity.
Qed.

(** C5: whenever the producer fails an operation that is in flight, the
    error goes to the sink, the flag of the item that started the operation
    is false, no hint is changed, and the operation itself ends normally.
    For an item with a resolving producer, not resolved and with nothing in
    flight, that is resolved while the producer fails: the call of the
    producer is made; the error goes to the sink; the caller's call returns
    and does not throw; the item is as before, not resolved and without
    handle; no hint has changed; and the next call of [resolve] calls the
    producer again. In no reachable state has any call of [resolve]
    thrown. *)
Theorem failed_resolve_is_contained :
  (forall s p this it err,
     st_promises s !! p = Some (mkOp this Running) ->
     st_items s !! this = Some it ->
     let s' := step (EAnswer p (inl err)) s in
     st_sink s' = st_sink s ++ [err] /\
     st_hints s' = st_hints s /\
     st_items s' !! this = Some (set_isResolved false it) /\
     st_promises s' !! p = Some (mkOp this (BodyDone Normal)) /\
     st_tasks s' = st_tasks s) /\
  (forall s this token it err,
     st_items s !! this = Some it ->
     has_resolveInlayHint (_provider it) = true ->
     _currentResolve it = None -> _isResolved it = false ->
     let s' := run [EResolve this token; EAnswer (length (st_promises s)) (inl err);
                    EFinally (length (st_promises s)); EResume (length (st_tasks s))] s in
     st_calls s' = st_calls s ++ [mkCall (pid (_provider it)) (hint it) token] /\
     st_sink s' = st_sink s ++ [err] /\
     st_tasks s' !! length (st_tasks s) = Some (mkTask this token Returned) /\
     st_items s' !! this = Some it /\
     st_hints s' = st_hints s /\
     (forall token',
        st_calls (step (EResolve this token') s')
        = st_calls s' ++ [mkCall (pid (_provider it)) (hint it) token'])) /\
  (forall r, reachable r -> never_thrown r).
Proof.
  split; [|split; [|exact reachable_never_thrown]].
  - intros s p this it err Hp Hit s'. subst s'.
    rewrite (step_answer p this it _ s Hp Hit), _doResolve_resume_failure. simpl.
    split; [reflexivity|]. split; [reflexivity|].
    split; [rewrite list_lookup_alter_eq, Hit; reflexivity|].
    split; [rewrite list_lookup_alter_eq, Hp; reflexivity|reflexivity].
  - intros s this token it err Hit Hhas Hcur Hres s'. subst s'.
    rewrite (failed_resolution_state s this token it err Hit Hhas Hcur Hres). simpl.
    split; [reflexivity|]. split; [reflexivity|].
    split; [apply list_lookup_middle; reflexivity|].
    split; [exact Hit|]. split; [reflexivity|].
    intros token'. unfold resolve. simpl. rewrite Hit. simpl.
    rewrite Hhas, Hcur, Hres. reflexivity.
Qed.

Lemma failed_resolve_is_contained_witness :
  st_sink (run [EResolve 0 7; EAnswer 0 (inl "boom"%string); EFinally 0; EResume 0] one_item)
    = ["boom"%string] /\
  st_tasks (run [EResolve 0 7; EAnswer 0 (inl "boom"%string); EFinally 0; EResume 0] one_item)
    !! 0%nat = Some (mkTask 0 7 Returned) /\
  st_items (run [EResolve 0 7; EAnswer 0 (inl "boom"%string); EFinally 0; EResume 0] one_item)
    !! 0%nat = Some (new_InlayHintItem 0 an_anchor PA).
Proof.
  pose proof (proj1 (proj2 failed_resolve_is_contained) one_item 0%nat 7%nat
                (new_InlayHintItem 0 an_anchor PA)
                "boom"%string eq_refl eq_refl eq_refl eq_refl)
    as (_ & Hsink & Htask & Hitem & _).
  split; [exact Hsink|]. split; [exact Htask | exact Hitem].
Defined.

Lemma step_resume_retry (t item token p : nat) (pc : Pc) (s s' : State) :
  st_tasks s !! t = Some (mkTask item token (AwaitRetry p)) ->
  settlement s p = Some Normal ->
  token ∉ st_cancelled s ->
  resolve item token s = Some (pc, s') ->
  step (EResume t) s = set_tasks (alter (set_pc pc) t) s'.
Proof.
  intros Ht Hs Hcan Hr. simpl. rewrite Ht, Hs.
  rewrite bool_decide_eq_false_2 by assumption. rewrite Hr. reflexivity.
Qed.

Lemma step_resume_cancelled (t item token p : nat) (s : State) :
  st_tasks s !! t = Some (mkTask item token (AwaitRetry p)) ->
  settlement s p = Some Normal ->
  token ∈ st_cancelled s ->
  step (EResume t) s = set_tasks (alter (set_pc Returned) t) s.
Proof.
  intros Ht Hs Hcan. simpl. rewrite Ht, Hs.
  rewrite bool_decide_eq_true_2 by assumption. reflexivity.
Qed.

Lemma step_resume_nothing (t item token : nat) (s : State) :
  st_tasks s !! t = Some (mkTask item token (AwaitFinal None)) ->
  step (EResume t) s = set_tasks (alter (set_pc Returned) t) s.
Proof. intros Ht. simpl. rewrite Ht. reflexivity. Qed.

(** Two calls of [resolve] on one item, then the producer's result and the
    callback of [finally]: one call of the producer, one operation. *)
Lemma shared_resolution_state (s : State) (this token1 token2 : nat)
    (it : InlayHintItem) (newHint : option InlayHint) :
  st_items s !! this = Some it ->
  has_resolveInlayHint (_provider it) = true ->
  _currentResolve it = None -> _isResolved it = false ->
  run [EResolve this token1; EResolve this token2;
       EAnswer (length (st_promises s)) (inr newHint);
       EFinally (length (st_promises s))] s =
  mkState
    (st_hints (snd (_doResolve_resume this (hint it) (inr newHint) s)))
    (alter (set_isResolved true) this (st_items s))
    (st_promises s ++ [mkOp this (Settled Normal)])
    (st_tasks s ++ [mkTask this token1 (AwaitFinal (Some (length (st_promises s))));
                    mkTask this token2 (AwaitRetry (length (st_promises s)))])
    (st_cancelled s)
    (st_calls s ++ [mkCall (pid (_provider it)) (hint it) token1])
    (st_sink s).
Proof.
  intros Hit Hhas Hcur Hres. pose proof (lookup_lt_Some _ _ _ Hit) as Hlt.
  unfold run. cbn [fold_left].
  rewrite (step_resolve_start this token1 it s Hit Hhas Hcur Hres).
  set (p := length (st_promises s)).
  erewrite (step_resolve_wait this token2 p (set_currentResolve (Some p) it)); [|
    simpl; rewrite list_lookup_alter_eq, Hit; reflexivity | exact Hhas | reflexivity].
  erewrite (step_answer p this (set_currentResolve (Some p) it)).
  2: { simpl. apply list_lookup_middle. reflexivity. }
  2: { simpl. rewrite list_lookup_alter_eq, Hit. reflexivity. }
  rewrite !_doResolve_resume_result.
  erewrite (step_finally p this Normal).
  2: { simpl. rewrite list_lookup_alter_eq, list_lookup_middle by reflexivity.
       reflexivity. }
  apply state_eq; simpl; try reflexivity.
  - apply list_eq. intros i. rewrite !list_lookup_alter.
    destruct (decide (this = i)) as [<-|Hne]; [|reflexivity].
    rewrite !decide_True by reflexivity. rewrite Hit. simpl.
    destruct it; simpl in *; subst; reflexivity.
  - rewrite !alter_app_r_alt by (fold p; lia).
    replace (p - length (st_promises s))%nat with 0%nat by (subst p; lia).
    reflexivity.
  - rewrite <- app_assoc. reflexivity.
Qed.

(** C6: in every reachable state no item has two operations in flight. A
    call of [resolve] on an item that holds a handle waits for that handle
    and starts nothing: no call of the producer, no new operation. Two
    calls on an item that is not resolved and has nothing in flight,
    followed by the producer's result, make one call of the producer and one
    operation; both calls return, the item is resolved and its handle is
    cleared when the operation settles. *)
Theorem resolve_is_single_flight :
  (forall s, reachable s -> at_most_one_in_flight s) /\
  (forall s this token p it,
     st_items s !! this = Some it ->
     has_resolveInlayHint (_provider it) = true ->
     _currentResolve it = Some p ->
     st_calls (step (EResolve this token) s) = st_calls s /\
     st_promises (step (EResolve this token) s) = st_promises s /\
     st_tasks (step (EResolve this token) s)
       = st_tasks s ++ [mkTask this token (AwaitRetry p)]) /\
  (forall s this token1 token2 it newHint,
     st_items s !! this = Some it ->
     has_resolveInlayHint (_provider it) = true ->
     _currentResolve it = None -> _isResolved it = false ->
     token2 ∉ st_cancelled s ->
     let p := length (st_promises s) in
     let t := length (st_tasks s) in
     let s' := run [EResolve this token1; EResolve this token2;
                    EAnswer p (inr newHint); EFinally p;
                    EResume t; EResume (S t); EResume (S t)] s in
     st_calls s' = st_calls s ++ [mkCall (pid (_provider it)) (hint it) token1] /\
     st_promises s' = st_promises s ++ [mkOp this (Settled Normal)] /\
     st_tasks s' = st_tasks s ++ [mkTask this token1 Returned; mkTask this token2 Returned] /\
     st_items s' !! this = Some (set_isResolved true it)).
Proof.
  split; [|split].
  - intros s Hs. apply single_flight_at_most_one, reachable_single_flight, Hs.
  - intros s this token p it Hit Hhas Hcur.
    rewrite (step_resolve_wait this token p it s Hit Hhas Hcur). auto.
  - intros s this token1 token2 it newHint Hit Hhas Hcur Hres Hcan p t s'.
    subst s'.
    change [EResolve this token1; EResolve this token2; EAnswer p (inr newHint);
            EFinally p; EResume t; EResume (S t); EResume (S t)]
      with ([EResolve this token1; EResolve this token2; EAnswer p (inr newHint);
             EFinally p] ++ [EResume t; EResume (S t); EResume (S t)]).
    rewrite run_app. subst p t.
    rewrite (shared_resolution_state s this token1 token2 it newHint Hit Hhas Hcur Hres).
    set (p := length (st_promises s)). set (t := length (st_tasks s)).
    match goal with |- context [run _ ?x] => set (s4 := x) end.
    assert (Hsettled : forall s5, st_promises s5 = st_promises s4 ->
              settlement s5 p = Some Normal).
    { intros s5 Hps. apply settlement_Some. exists this. rewrite Hps. simpl.
      apply list_lookup_middle. reflexivity. }
    assert (E5 : step (EResume t) s4 = set_tasks (alter (set_pc Returned) t) s4).
    { apply (step_resume_final t this token1 p); [|apply Hsettled; reflexivity].
      simpl. apply list_lookup_middle. reflexivity. }
    set (s5 := set_tasks (alter (set_pc Returned) t) s4) in *.
    assert (E6 : step (EResume (S t)) s5
                 = set_tasks (alter (set_pc (AwaitFinal None)) (S t)) s5).
    { apply (step_resume_retry (S t) this token2 p);
        [|apply Hsettled; reflexivity|exact Hcan|].
      - simpl. rewrite list_lookup_alter_ne by lia.
        rewrite lookup_app_r by (fold t; lia).
        replace (S t - length (st_tasks s))%nat with 1%nat by (subst t; lia).
        reflexivity.
      - unfold resolve. simpl. rewrite list_lookup_alter_eq, Hit. simpl.
        rewrite Hhas, Hcur. reflexivity. }
    set (s6 := set_tasks (alter (set_pc (AwaitFinal None)) (S t)) s5) in *.
    assert (E7 : step (EResume (S t)) s6 = set_tasks (alter (set_pc Returned) (S t)) s6).
    { apply (step_resume_nothing (S t) this token2).
      simpl. rewrite list_lookup_alter_eq, list_lookup_alter_ne by lia.
      rewrite lookup_app_r by (fold t; lia).
      replace (S t - length (st_tasks s))%nat with 1%nat by (subst t; lia).
      reflexivity. }
    unfold run. cbn [fold_left]. rewrite E5, E6, E7. simpl.
    split; [reflexivity|]. split; [reflexivity|]. split.
    + rewrite !alter_app_r_alt by (fold t; lia).
      replace (S t - length (st_tasks s))%nat with 1%nat by (subst t; lia).
      replace (t - length (st_tasks s))%nat with 0%nat by (subst t; lia).
      reflexivity.
    + rewrite list_lookup_alter_eq, Hit. reflexivity.
Qed.

Lemma resolve_is_single_flight_witness :
  st_calls (run [EResolve 0 7; EResolve 0 8; EAnswer 0 (inr None); EFinally 0;
                 EResume 0; EResume 1; EResume 1] one_item)
    = [mkCall 0 0 7] /\
  st_tasks (run [EResolve 0 7; EResolve 0 8; EAnswer 0 (inr None); EFinally 0;
                 EResume 0; EResume 1; EResume 1] one_item)
    = [mkTask 0 7 Returned; mkTask 0 8 Returned].
Proof.
  assert (Hfresh : 8%nat ∉ st_cancelled one_item).
  { intros Hin. vm_compute in Hin. inversion Hin. }
  pose proof (proj2 (proj2 resolve_is_single_flight) one_item 0%nat 7%nat 8%nat
                (new_InlayHintItem 0 an_anchor PA) None
                eq_refl eq_refl eq_refl eq_refl Hfresh) as (Hcalls & _ & Htasks & _).
  split; [exact Hcalls | exact Htasks].
Defined.

(** C10: [with] is called on an item that holds a handle [p] and whose
    producer can resolve. Whatever happens afterwards, the copy's handle is
    still [p]: no settlement clears it. A call of [resolve] on the copy
    waits for [p]; as long as its token is not cancelled it is still at that
    wait after any run of the system, so it has not returned; each time it
    continues, no call of the producer and no operation is added. Once [p]
    has settled and the token is cancelled, the next continuation returns. *)
Theorem copy_keeps_stale_handle (s : State) (this p : nat) (a : InlayHintAnchor)
    (it : InlayHintItem) :
  reachable s ->
  st_items s !! this = Some it ->
  has_resolveInlayHint (_provider it) = true ->
  _currentResolve it = Some p ->
  let c := length (st_items s) in
  (forall evs,
     exists copy, st_items (run evs (step (EWith this a) s)) !! c = Some copy /\
                  _currentResolve copy = Some p) /\
  (forall evs token evs',
     let s2 := run evs (step (EWith this a) s) in
     let s3 := run evs' (step (EResolve c token) s2) in
     token ∉ st_cancelled s3 ->
     st_tasks s3 !! length (st_tasks s2) = Some (mkTask c token (AwaitRetry p))) /\
  (forall evs token n,
     let s2 := run evs (step (EWith this a) s) in
     let t := length (st_tasks s2) in
     token ∉ st_cancelled s2 ->
     let s3 := run (repeat (EResume t) n) (step (EResolve c token) s2) in
     st_calls s3 = st_calls s2 /\
     st_promises s3 = st_promises s2 /\
     st_tasks s3 !! t = Some (mkTask c token (AwaitRetry p))) /\
  (forall evs token,
     let s2 := run evs (step (EWith this a) s) in
     let t := length (st_tasks s2) in
     settlement s2 p = Some Normal ->
     st_tasks (run [EResolve c token; ECancel token; EResume t] s2) !! t
       = Some (mkTask c token Returned)).
Proof.
  intros Hreach Hit Hhas Hcur c.
  pose proof (with_stale_copy this p a it s (reachable_owners_exist s Hreach) Hit Hhas Hcur)
    as Hstale. fold c in Hstale.
  assert (Hnever : never_thrown (step (EWith this a) s))
    by (apply step_never_thrown, reachable_never_thrown, Hreach).
  assert (Hstart : forall evs token,
            let s2 := run evs (step (EWith this a) s) in
            stale_copy c p s2 /\ never_thrown s2 /\
            step (EResolve c token) s2
              = set_tasks (fun ts => ts ++ [mkTask c token (AwaitRetry p)]) s2).
  { intros evs token s2.
    assert (Hs2 : stale_copy c p s2) by (apply run_stale_copy, Hstale).
    split; [exact Hs2|]. split; [apply run_never_thrown, Hnever|].
    destruct Hs2 as [(copy & Hc & Hcurc & Hhasc) _].
    apply (step_resolve_wait c token p copy s2 Hc Hhasc Hcurc). }
  split; [|split; [|split]].
  - intros evs. destruct (Hstart evs 0%nat) as ([(copy & Hc & Hcurc & _) _] & _).
    exists copy. auto.
  - intros evs token evs' s2 s3 Hcan.
    destruct (Hstart evs token) as (Hs2 & Hn2 & Hstep). fold s2 in Hs2, Hn2, Hstep.
    assert (Hw : waits_forever c p (length (st_tasks s2)) token s3).
    { subst s3. apply run_waits_forever.
      - apply step_never_thrown, Hn2.
      - apply step_stale_copy, Hs2.
      - right. rewrite Hstep. simpl. apply list_lookup_middle. reflexivity. }
    destruct Hw as [Hin|Hw]; [contradiction|exact Hw].
  - intros evs token n s2 t Hcan s3.
    destruct (Hstart evs token) as (Hs2 & Hn2 & Hstep). fold s2 in Hs2, Hn2, Hstep.
    subst s3.
    destruct (resume_stale_n c p t token n (step (EResolve c token) s2))
      as (Hcalls & Hproms & Htask).
    + apply step_stale_copy, Hs2.
    + apply step_never_thrown, Hn2.
    + rewrite Hstep. simpl. apply list_lookup_middle. reflexivity.
    + rewrite Hstep. simpl. exact Hcan.
    + split; [rewrite Hcalls, Hstep; reflexivity|].
      split; [rewrite Hproms, Hstep; reflexivity|exact Htask].
  - intros evs token s2 t Hset.
    destruct (Hstart evs token) as (Hs2 & Hn2 & Hstep). fold s2 in Hs2, Hn2, Hstep.
    unfold run. cbn [fold_left]. rewrite Hstep.
    erewrite (step_resume_cancelled t c token p).
    + simpl. rewrite list_lookup_alter_eq, list_lookup_middle by reflexivity. reflexivity.
    + simpl. apply list_lookup_middle. reflexivity.
    + exact Hset.
    + simpl. apply elem_of_cons. auto.
Qed.

(** The item of [PA] is copied while its first resolution is in flight;
    after the resolution has settled the copy still holds the handle, and a
    call of [resolve] on the copy is still waiting after three turns. *)
Lemma copy_keeps_stale_handle_witness :
  (exists copy,
     st_items (run [EAnswer 0 (inr None); EFinally 0; EResume 0]
                 (step (EWith 0 other_anchor) (step (EResolve 0 7) one_item)))
       !! 1%nat = Some copy /\
     _currentResolve copy = Some 0%nat) /\
  st_tasks (run [EResume 1; EResume 1; EResume 1]
              (step (EResolve 1 9)
                 (run [EAnswer 0 (inr None); EFinally 0; EResume 0]
                    (step (EWith 0 other_anchor) (step (EResolve 0 7) one_item)))))
    !! 1%nat = Some (mkTask 1 9 (AwaitRetry 0)).
Proof.
  assert (Hreach : reachable (step (EResolve 0 7) one_item)).
  { exists some_hints, [(0%nat, an_anchor, PA)], [EResolve 0 7]. reflexivity. }
  pose proof (copy_keeps_stale_handle (step (EResolve 0 7) one_item) 0 0 other_anchor
                (mkItem 0 an_anchor PA false (Some 0%nat))
                Hreach eq_refl eq_refl eq_refl) as (Hcopy & Hwait & _).
  split.
  - exact (Hcopy [EAnswer 0 (inr None); EFinally 0; EResume 0]).
  - apply (Hwait [EAnswer 0 (inr None); EFinally 0; EResume 0] 9%nat
                 [EResume 1; EResume 1; EResume 1]).
    intros Hin. vm_compute in Hin. inversion Hin.
Defined.

(** * Further properties *)

(** ** The calls of [create] *)

Lemma launch_elem (ordered : list InlayHintsProvider) (ranges : list Range)
    (p : InlayHintsProvider) (r : Range) :
  (p, r) ∈ launch ordered ranges <-> p ∈ ordered /\ r ∈ ranges.
Proof.
  unfold launch. rewrite list_elem_of_In, in_flat_map. split.
  - intros (q & Hq & Hin). apply in_map_iff in Hin as (r' & [= <- <-] & Hr).
    rewrite <- list_elem_of_In in Hq. rewrite <- list_elem_of_In in Hr.
    rewrite elem_of_reverse in Hq. auto.
  - intros [Hp Hr]. exists p. split.
    + apply list_elem_of_In, elem_of_reverse, Hp.
    + apply in_map_iff. exists r. split; [reflexivity|]. apply list_elem_of_In, Hr.
Qed.

Lemma launch_length (ordered : list InlayHintsProvider) (ranges : list Range) :
  length (launch ordered ranges) = (length ordered * length ranges)%nat.
Proof.
  unfold launch. rewrite <- (length_reverse ordered).
  induction (reverse ordered) as [|p l IH]; simpl; [reflexivity|].
  rewrite length_app, length_map, IH. reflexivity.
Qed.


(** ** [create] in closed form *)

Section ArrivalOrder.
Context (calls : list (InlayHintsProvider * Range)) (answer : nat -> Answer).

Lemma settle_exact (c : Collecting) (k : nat) :
  settle calls answer c k = c \/
  ((k < length calls)%nat /\ (k ∉ settled c) /\
   settled (settle calls answer c k) = k :: settled c /\
   data (settle calls answer c k) = data c ++ collected_entry calls answer k /\
   reported (settle calls answer c k) = reported c ++ answered_error answer k).
Proof.
  unfold settle, collected_entry.
  destruct (calls !! k) as [[provider r]|] eqn:Hk; [|left; reflexivity].
  apply lookup_lt_Some in Hk.
  case_bool_decide as Hin; [left; reflexivity|].
  right. split; [assumption|]. split; [assumption|].
  unfold answered_error, onUnexpectedExternalError.
  destruct (answer k) as [err|result]; simpl.
  - rewrite app_nil_r. auto.
  - destruct (has_hints result) as [l|]; simpl; rewrite ?app_nil_r; auto.
Qed.

(** The pairs and the errors are kept in the order of arrival. *)
Lemma fold_settle_exact (sink0 : list Error) (schedule : list nat) (c : Collecting) :
  data c = flat_map (collected_entry calls answer) (reverse (settled c)) ->
  reported c = sink0 ++ flat_map (answered_error answer) (reverse (settled c)) ->
  let c' := fold_left (settle calls answer) schedule c in
  data c' = flat_map (collected_entry calls answer) (reverse (settled c')) /\
  reported c' = sink0 ++ flat_map (answered_error answer) (reverse (settled c')).
Proof.
  revert c. induction schedule as [|k schedule IH]; intros c Hd Hr; simpl; [auto|].
  apply IH.
  - destruct (settle_exact c k) as [->|(_ & _ & Hs & Hd' & _)]; [assumption|].
    rewrite Hs, Hd', reverse_cons, flat_map_app, Hd. simpl. rewrite app_nil_r. reflexivity.
  - destruct (settle_exact c k) as [->|(_ & _ & Hs & _ & Hr')]; [assumption|].
    rewrite Hs, Hr', reverse_cons, flat_map_app, Hr, <- app_assoc. simpl.
    rewrite app_nil_r. reflexivity.
Qed.

(** When no answer arrives twice, the calls settle in the order of the
    schedule. *)
Lemma fold_settle_settled (schedule : list nat) (c : Collecting) :
  NoDup schedule ->
  (forall k, k ∈ schedule -> (k < length calls)%nat /\ k ∉ settled c) ->
  settled (fold_left (settle calls answer) schedule c) = reverse schedule ++ settled c.
Proof.
  revert c. induction schedule as [|k schedule IH]; intros c Hnd Hin; simpl; [reflexivity|].
  apply NoDup_cons in Hnd as [Hk Hnd].
  destruct (Hin k) as [Hlt Hnew]; [apply elem_of_cons; auto|].
  destruct (settle_exact c k) as [E|(_ & _ & Hs & _)].
  { exfalso. apply Hnew. rewrite <- E. apply settle_settles, Hlt. }
  rewrite IH; [| assumption |].
  - rewrite Hs, reverse_cons, <- app_assoc. reflexivity.
  - intros j Hj. destruct (Hin j) as [Hjlt Hjnew]; [apply elem_of_cons; auto|].
    split; [assumption|]. rewrite Hs. intros Hmem.
    apply elem_of_cons in Hmem as [->|Hmem]; auto.
Qed.

End ArrivalOrder.

Lemma collect_exact (ordered : list InlayHintsProvider) (ranges : list Range)
    (answer : nat -> Answer) (schedule : list nat) (sink0 : list Error) :
  data (collect ordered ranges answer schedule sink0)
  = flat_map (collected_entry (launch ordered ranges) answer)
      (reverse (settled (collect ordered ranges answer schedule sink0))) /\
  reported (collect ordered ranges answer schedule sink0)
  = sink0 ++ flat_map (answered_error answer)
      (reverse (settled (collect ordered ranges answer schedule sink0))).
Proof.
  unfold collect. apply fold_settle_exact; simpl; [reflexivity|].
  rewrite app_nil_r. reflexivity.
Qed.

Lemma collect_complete (ordered : list InlayHintsProvider) (ranges : list Range)
    (answer : nat -> Answer) (schedule : list nat) (sink0 : list Error) :
  complete_schedule (length (launch ordered ranges)) schedule ->
  settled (collect ordered ranges answer schedule sink0) = reverse schedule.
Proof.
  intros [Hnd Hall]. unfold collect.
  rewrite fold_settle_settled; simpl; [apply app_nil_r|assumption|].
  intros k Hk. split; [apply Hall, Hk|]. intros Hin. inversion Hin.
Qed.

(** X2: when the answer of every call arrives, each once, [create] returns
    the fragment set the constructor makes of the pairs of the answers that
    have hints, taken in the order of arrival, in a world whose sink has
    received the errors of the failed calls in the order of arrival. *)
Theorem create_in_arrival_order (H : HintStore) (ordered : list InlayHintsProvider)
    (model : ITextModel) (ranges : list Range) (answer : nat -> Answer)
    (schedule : list nat) (w : World) :
  complete_schedule (length (launch ordered ranges)) schedule ->
  create H ordered model ranges answer schedule w =
  Some (new_InlayHintsFragments H
          (flat_map (collected_entry (launch ordered ranges) answer) schedule) model
          (with_sink w (sink w ++ flat_map (answered_error answer) schedule))).
Proof.
  intros Hcomplete. unfold create.
  destruct (collect_exact ordered ranges answer schedule (sink w)) as [Hd Hr].
  pose proof (collect_complete ordered ranges answer schedule (sink w) Hcomplete) as Hs.
  rewrite Hs, reverse_involutive in Hd, Hr.
  assert (Hall : all_settled (length (launch ordered ranges))
                   (collect ordered ranges answer schedule (sink w)) = true).
  { apply all_settled_spec. intros k Hk. rewrite Hs, elem_of_reverse.
    apply (proj2 Hcomplete), Hk. }
  rewrite Hall, Hd, Hr. reflexivity.
Qed.

Lemma create_in_arrival_order_witness :
  create some_hints [PA; PB; PC] quoted_line [whole_line] mixed_answer
    [2%nat; 0%nat; 1%nat] blank_world =
  Some (new_InlayHintsFragments some_hints
          [(mkHintList [2%nat; 0%nat] 10, PA); (mkHintList [1%nat] 11, PB)] quoted_line
          (with_sink blank_world ["boom"%string])).
Proof.
  apply (create_in_arrival_order some_hints [PA; PB; PC] quoted_line [whole_line]
           mixed_answer [2%nat; 0%nat; 1%nat] blank_world).
  split.
  - apply (bool_decide_unpack _). vm_compute. exact I.
  - intros k. change (length (launch [PA; PB; PC] [whole_line])) with 3%nat.
    rewrite !elem_of_cons, elem_of_nil. lia.
Defined.

(** ** The items of [create] *)

Lemma flat_map_flat_map {A B C : Type} (f : A -> list B) (g : B -> list C) (l : list A) :
  flat_map g (flat_map f l) = flat_map (fun x => flat_map g (f x)) l.
Proof.
  induction l as [|x l IH]; simpl; [reflexivity|].
  rewrite flat_map_app, IH. reflexivity.
Qed.

Lemma collected_entry_pairs (calls : list (InlayHintsProvider * Range))
    (answer : nat -> Answer) (k : nat) :
  flat_map pairs_of_entry (collected_entry calls answer k) = answered_pairs calls answer k.
Proof.
  unfold collected_entry, answered_pairs, answered_hints.
  destruct (calls !! k) as [[provider r]|]; [|reflexivity].
  destruct (answer k) as [err|result]; [reflexivity|].
  destruct (has_hints result) as [l|] eqn:Hh.
  - apply has_hints_Some in Hh as [-> _]. simpl. apply app_nil_r.
  - apply has_hints_None in Hh. destruct result as [l|]; simpl in *; [|reflexivity].
    rewrite Hh. reflexivity.
Qed.

Lemma collected_items_pairs (H : HintStore) (model : ITextModel)
    (data : list (InlayHintList * InlayHintsProvider)) :
  map (fun it => (hint it, _provider it)) (collected_items H model data)
  = flat_map pairs_of_entry data.
Proof.
  unfold collected_items. induction data as [|entry data IH]; simpl; [reflexivity|].
  rewrite map_app, IH. f_equal.
  unfold items_of_pair, pairs_of_entry. rewrite map_map. reflexivity.
Qed.

Lemma collected_items_fresh (H : HintStore) (model : ITextModel)
    (data : list (InlayHintList * InlayHintsProvider)) :
  Forall fresh_item (collected_items H model data).
Proof.
  unfold collected_items. apply Forall_forall. intros it Hin.
  rewrite list_elem_of_In in Hin. apply in_flat_map in Hin as (entry & _ & Hin).
  unfold items_of_pair in Hin. apply in_map_iff in Hin as (h & <- & _).
  split; reflexivity.
Qed.

(** Once all calls have settled, the settled calls are the calls. *)
Lemma collect_settled_perm (ordered : list InlayHintsProvider) (ranges : list Range)
    (answer : nat -> Answer) (schedule : list nat) (sink0 : list Error) :
  all_settled (length (launch ordered ranges))
    (collect ordered ranges answer schedule sink0) = true ->
  reverse (settled (collect ordered ranges answer schedule sink0))
    ≡ₚ seq 0 (length (launch ordered ranges)).
Proof.
  intros Hall. rewrite reverse_Permutation.
  eapply all_settled_perm; [|exact Hall].
  apply fold_settle_inv, collect_inv_init.
Qed.

(** X3: every item of a created fragment set pairs a hint with the producer
    whose call answered it: counted with multiplicity, the (hint, producer)
    pairs of the items are those of the calls that answered with a result.
    Every item is as its constructor leaves it, not resolved and without
    operation, and carries the anchor computed for its hint. *)
Theorem items_carry_their_producer (H : HintStore) (ordered : list InlayHintsProvider)
    (model : ITextModel) (ranges : list Range) (answer : nat -> Answer)
    (schedule : list nat) (w : World) (f : InlayHintsFragments) (w' : World) :
  create H ordered model ranges answer schedule w = Some (f, w') ->
  map (fun it => (hint it, _provider it)) (items f)
    ≡ₚ flat_map (answered_pairs (launch ordered ranges) answer)
         (seq 0 (length (launch ordered ranges))) /\
  Forall fresh_item (items f) /\
  Forall (fun it => anchor it = anchor_of H model (hint it)) (items f).
Proof.
  intros Hc. apply create_Some in Hc as (Hall & Hitems & _). rewrite Hitems.
  split; [|split].
  - rewrite Array_sort_perm, collected_items_pairs.
    rewrite (proj1 (collect_exact ordered ranges answer schedule (sink w))).
    rewrite flat_map_flat_map.
    rewrite (flat_map_ext _ _ (collected_entry_pairs (launch ordered ranges) answer)).
    rewrite (collect_settled_perm _ _ _ _ _ Hall). reflexivity.
  - rewrite Array_sort_perm. apply collected_items_fresh.
  - rewrite Array_sort_perm. apply collected_items_anchor.
Qed.

Lemma items_carry_their_producer_witness :
  exists f w',
    create some_hints [PA; PB; PC] quoted_line [whole_line] mixed_answer
      [2%nat; 0%nat; 1%nat] blank_world = Some (f, w') /\
    map (fun it => (hint it, _provider it)) (items f)
      ≡ₚ [(1%nat, PB); (2%nat, PA); (0%nat, PA)].
Proof.
  eexists _, _. split; [reflexivity|].
  exact (proj1 (items_carry_their_producer some_hints [PA; PB; PC] quoted_line
                  [whole_line] mixed_answer [2%nat; 0%nat; 1%nat] blank_world _ _ eq_refl)).
Defined.






Lemma compare_antisym (a b : IPosition) :
  Position.compare a b <= 0 -> Position.compare b a <= 0 -> a = b.
Proof.
  unfold Position.compare. destruct a as [la ca], b as [lb cb]. simpl.
  destruct (Z.eqb_spec la lb); destruct (Z.eqb_spec lb la); intros; f_equal; lia.
Qed.

Lemma NoDup_fmap_eq {A B : Type} (g : A -> B) (l : list A) (x y : A) :
  NoDup (map g l) -> x ∈ l -> y ∈ l -> g x = g y -> x = y.
Proof.
  intros Hnd Hx Hy Heq.
  apply list_elem_of_lookup in Hx as [i Hi], Hy as [j Hj].
  assert (i = j) as ->; [|congruence].
  change (map g l) with (g <$> l) in Hnd.
  eapply NoDup_lookup; [exact Hnd| |]; rewrite list_lookup_fmap.
  - rewrite Hi. reflexivity.
  - rewrite Hj, Heq. reflexivity.
Qed.

(** X4: the order in which the producers' answers arrive does not change
    which items a fragment set holds, and when no two of its hints sit at
    one position it does not change the list of items at all. *)
Theorem items_independent_of_arrival (H : HintStore) (ordered : list InlayHintsProvider)
    (model : ITextModel) (ranges : list Range) (answer : nat -> Answer)
    (schedule1 schedule2 : list nat) (w1 w2 : World)
    (f1 f2 : InlayHintsFragments) (w1' w2' : World) :
  create H ordered model ranges answer schedule1 w1 = Some (f1, w1') ->
  create H ordered model ranges answer schedule2 w2 = Some (f2, w2') ->
  items f1 ≡ₚ items f2 /\
  (NoDup (map (hint_position H) (items f1)) -> items f1 = items f2).
Proof.
  intros Hc1 Hc2.
  apply create_Some in Hc1 as (Hall1 & Hitems1 & _).
  apply create_Some in Hc2 as (Hall2 & Hitems2 & _).
  assert (Hperm : items f1 ≡ₚ items f2).
  { rewrite Hitems1, Hitems2, !Array_sort_perm. unfold collected_items.
    rewrite (proj1 (collect_exact ordered ranges answer schedule1 (sink w1))).
    rewrite (proj1 (collect_exact ordered ranges answer schedule2 (sink w2))).
    rewrite (collect_settled_perm _ _ _ _ _ Hall1).
    rewrite (collect_settled_perm _ _ _ _ _ Hall2). reflexivity. }
  split; [exact Hperm|]. intros Hnd.
  apply (StronglySorted_unique_strong (fun a b => compare_items H a b <= 0));
    [| | |exact Hperm].
  - intros x1 x2 Hx1 Hx2 H12 H21.
    rewrite <- Hperm in Hx2.
    apply (NoDup_fmap_eq (hint_position H) (items f1)); auto.
    apply compare_antisym; assumption.
  - rewrite Hitems1. apply Array_sort_sorted;
      [apply compare_items_flip | apply compare_items_trans].
  - rewrite Hitems2. apply Array_sort_sorted;
      [apply compare_items_flip | apply compare_items_trans].
Qed.

Lemma items_independent_of_arrival_witness :
  exists f1 f2 w1 w2,
    create some_hints [PA; PC] quoted_line [whole_line; whole_line] apart_answer
      [0%nat; 1%nat; 2%nat; 3%nat] blank_world = Some (f1, w1) /\
    create some_hints [PA; PC] quoted_line [whole_line; whole_line] apart_answer
      [3%nat; 1%nat; 2%nat; 0%nat] blank_world = Some (f2, w2) /\
    items f1 = items f2.
Proof.
  eexists _, _, _, _. split; [reflexivity|]. split; [reflexivity|].
  refine (proj2 (items_independent_of_arrival some_hints [PA; PC] quoted_line
                   [whole_line; whole_line] apart_answer [0%nat; 1%nat; 2%nat; 3%nat]
                   [3%nat; 1%nat; 2%nat; 0%nat] blank_world blank_world
                   _ _ _ _ eq_refl eq_refl) _).
  apply (bool_decide_unpack _). vm_compute. exact I.
Defined.

(** ** Nothing to ask *)

Lemma launch_nil (ordered : list InlayHintsProvider) (ranges : list Range) :
  ordered = [] \/ ranges = [] -> launch ordered ranges = [].
Proof.
  intros [->| ->]; unfold launch; [reflexivity|].
  induction (reverse ordered) as [|p l IH]; simpl; auto.
Qed.

(** X5: without an applicable producer, or without a requested range,
    [create] asks nobody and is done at once, whatever arrives: the fragment
    set has no items and holds no disposable, nothing is reported, and the
    world has gained its emitter and nothing else. *)
Theorem create_nothing_to_ask (H : HintStore) (ordered : list InlayHintsProvider)
    (model : ITextModel) (ranges : list Range) (answer : nat -> Answer)
    (schedule : list nat) (w : World) :
  ordered = [] \/ ranges = [] ->
  create H ordered model ranges answer schedule w =
  Some (mkFragments [] (next_emitter w) [], snd (new_Emitter w)).
Proof.
  intros Hempty. unfold create, collect. rewrite (launch_nil _ _ Hempty).
  assert (Hfold : forall c, fold_left (settle [] answer) schedule c = c).
  { induction schedule as [|k schedule IH]; intros c; simpl; [reflexivity|].
    unfold settle at 2. rewrite lookup_nil. apply IH. }
  rewrite Hfold. simpl. destruct w. reflexivity.
Qed.

Lemma create_nothing_to_ask_witness :
  create some_hints [PA; PB] quoted_line [] mixed_answer [1%nat; 0%nat] blank_world =
  Some (mkFragments [] 0 [], snd (new_Emitter blank_world)).
Proof.
  exact (create_nothing_to_ask some_hints [PA; PB] quoted_line [] mixed_answer
           [1%nat; 0%nat] blank_world (or_intror eq_refl)).
Defined.

(** ** Release of the result lists *)

Lemma fold_dispose_lists (ds : list Disposable) (w : World) :
  disposed_lists (fold_left run_dispose ds w) = disposed_lists w ++ held_lists ds /\
  disposed_emitters (fold_left run_dispose ds w) = disposed_emitters w.
Proof.
  revert w. induction ds as [|d ds IH]; intros w; simpl.
  - rewrite app_nil_r. auto.
  - destruct (IH (run_dispose w d)) as [-> ->].
    destruct d; simpl; rewrite <- ?app_assoc; auto.
Qed.

Lemma fold_build_lists (H : HintStore) (model : ITextModel) (e : nat)
    (data : list (InlayHintList * InlayHintsProvider)) (b : Building) :
  held_lists (b_disposables (fold_left (build_pair H model e) data b))
  = held_lists (b_disposables b) ++ map (fun entry => list_id (fst entry)) data /\
  disposed_lists (b_world (fold_left (build_pair H model e) data b))
  = disposed_lists (b_world b) /\
  disposed_emitters (b_world (fold_left (build_pair H model e) data b))
  = disposed_emitters (b_world b).
Proof.
  revert b. induction data as [|[l p] data IH]; intros b.
  - simpl. rewrite app_nil_r. auto.
  - cbn [fold_left]. destruct (IH (build_pair H model e b (l, p))) as (-> & -> & ->).
    unfold build_pair. destruct (onDidChangeInlayHints p); simpl;
      unfold held_lists; rewrite ?flat_map_app; simpl;
      rewrite ?app_nil_r, <- ?app_assoc; auto.
Qed.

Lemma filter_eq_absent (l : list nat) (x : nat) :
  x ∉ l -> filter (fun y => y = x) l = [].
Proof.
  induction l as [|y l IH]; intros Hx; [reflexivity|].
  rewrite filter_cons. destruct (decide (y = x)) as [->|Hne].
  - exfalso. apply Hx. apply list_elem_of_here.
  - apply IH. intros Hin. apply Hx. apply list_elem_of_further, Hin.
Qed.

Lemma NoDup_filter_eq_length (l : list nat) (x : nat) :
  NoDup l -> x ∈ l -> length (filter (fun y => y = x) l) = 1%nat.
Proof.
  induction 1 as [|y l Hy Hnd IH]; intros Hx.
  - inversion Hx.
  - rewrite filter_cons. destruct (decide (y = x)) as [->|Hne].
    + simpl. rewrite filter_eq_absent by exact Hy. reflexivity.
    + apply IH. apply elem_of_cons in Hx as [Hx|Hx]; [congruence|exact Hx].
Qed.

(** X6: when the pairs carry distinct result lists, the fragment set holds
    every list it was constructed from and releases nothing while it is
    constructed; [dispose] releases the merged emitter, and it releases
    exactly those lists, in the order of the pairs, each of them exactly
    once. *)
Theorem dispose_releases_lists (H : HintStore)
    (data : list (InlayHintList * InlayHintsProvider)) (model : ITextModel) (w : World) :
  NoDup (map (fun entry => list_id (fst entry)) data) ->
  let f := fst (new_InlayHintsFragments H data model w) in
  let w1 := snd (new_InlayHintsFragments H data model w) in
  held_lists (_disposables f) = map (fun entry => list_id (fst entry)) data /\
  disposed_lists w1 = disposed_lists w /\
  disposed_emitters w1 = disposed_emitters w /\
  disposed_lists (dispose f w1)
    = disposed_lists w ++ map (fun entry => list_id (fst entry)) data /\
  (forall l, l ∈ map (fun entry => list_id (fst entry)) data ->
     length (filter (fun x => x = l) (disposed_lists (dispose f w1)))
     = S (length (filter (fun x => x = l) (disposed_lists w)))) /\
  disposed_emitters (dispose f w1) = disposed_emitters w ++ [_onDidChange f].
Proof.
  intros Hnd f w1.
  assert (Hall :
    held_lists (_disposables f) = map (fun entry => list_id (fst entry)) data /\
    disposed_lists w1 = disposed_lists w /\
    disposed_emitters w1 = disposed_emitters w /\
    disposed_lists (dispose f w1)
      = disposed_lists w ++ map (fun entry => list_id (fst entry)) data /\
    disposed_emitters (dispose f w1) = disposed_emitters w ++ [_onDidChange f]).
  { subst f w1. unfold new_InlayHintsFragments, dispose. simpl.
    match goal with |- context [fold_left ?g data ?b0] =>
      destruct (fold_build_lists H model (next_emitter w) data b0) as (Hh & Hl & He)
    end.
    simpl in Hh, Hl, He.
    split; [exact Hh|]. split; [exact Hl|]. split; [exact He|].
    match goal with |- context [fold_left run_dispose ?ds ?w0] =>
      destruct (fold_dispose_lists ds w0) as [-> ->]
    end.
    simpl. rewrite Hh, Hl, He. auto. }
  destruct Hall as (Hh & Hl & He & Hdl & Hde).
  split; [exact Hh|]. split; [exact Hl|]. split; [exact He|]. split; [exact Hdl|].
  split; [|exact Hde].
  intros l Hin. rewrite Hdl, filter_app, length_app.
  rewrite (NoDup_filter_eq_length _ l Hnd Hin). lia.
Qed.

(** Three pairs with lists of their own: [dispose] releases the three
    lists in the order of the pairs, and the list 10 once. *)
Lemma dispose_releases_lists_witness :
  disposed_lists
    (dispose (fst (new_InlayHintsFragments some_hints
                     [(mkHintList [1%nat] 11, PB); (mkHintList [0%nat] 10, PA);
                      (mkHintList [2%nat] 12, PB)]
                     quoted_line blank_world))
             (snd (new_InlayHintsFragments some_hints
                     [(mkHintList [1%nat] 11, PB); (mkHintList [0%nat] 10, PA);
                      (mkHintList [2%nat] 12, PB)]
                     quoted_line blank_world)))
  = [11%nat; 10%nat; 12%nat].
Proof.
  assert (Hnd : NoDup (map (fun entry : InlayHintList * InlayHintsProvider =>
                              list_id (fst entry))
                         [(mkHintList [1%nat] 11, PB); (mkHintList [0%nat] 10, PA);
                          (mkHintList [2%nat] 12, PB)]))
    by (apply (bool_decide_unpack _); vm_compute; exact I).
  pose proof (dispose_releases_lists some_hints
                [(mkHintList [1%nat] 11, PB); (mkHintList [0%nat] 10, PA);
                 (mkHintList [2%nat] 12, PB)]
                quoted_line blank_world Hnd) as (_ & _ & _ & Hdl & _).
  exact Hdl.
Defined.

(** ** Shape of the anchors *)

Lemma tokenRange_lines (line : Z) (tokens : LineTokens) (offset : Z) :
  startLineNumber (tokenRangeAtOffset line tokens offset) = line /\
  endLineNumber (tokenRangeAtOffset line tokens offset) = line.
Proof.
  unfold tokenRangeAtOffset.
  destruct (_ =? 1); [|auto].
  destruct (_ && _); [auto|]. destruct (_ && _); auto.
Qed.

Lemma _getRangeAtPosition_lines (model : ITextModel) (position : IPosition) :
  startLineNumber (_getRangeAtPosition model position) = lineNumber position /\
  endLineNumber (_getRangeAtPosition model position) = lineNumber position.
Proof.
  unfold _getRangeAtPosition, _getRangeAtPosition_traced.
  destruct (getWordAtPosition model position); simpl; [auto|].
  apply tokenRange_lines.
Qed.

(** X7: every anchor of a fragment set lies on one line, the line of the
    validated position of its hint, whatever the document answers for words
    and tokens. *)
Theorem anchor_on_target_line (H : HintStore)
    (data : list (InlayHintList * InlayHintsProvider)) (model : ITextModel) (w : World) :
  Forall (fun it =>
    let target := validatePosition model (position (H (hint it))) in
    startLineNumber (range (anchor it)) = lineNumber target /\
    endLineNumber (range (anchor it)) = lineNumber target)
  (items (fst (new_InlayHintsFragments H data model w))).
Proof.
  rewrite new_fragments_items, Array_sort_perm.
  eapply List.Forall_impl; [|apply collected_items_anchor].
  intros it ->. unfold anchor_of. simpl.
  destruct (_getRangeAtPosition_lines model
              (validatePosition model (position (H (hint it))))) as [Hs He].
  destruct (Position.isBefore _ _); simpl; auto.
Qed.

(** X8: when the span computed for the validated position of a hint touches
    that position (it starts at or before it and ends at or after it), the
    anchor range is well ordered and lies within the span: with the side
    "before" it is the span itself, which then starts at the position; with
    the side "after" it is the part of the span up to the position. *)
Theorem anchor_within_span (H : HintStore) (model : ITextModel) (h : nat) :
  let target := validatePosition model (position (H h)) in
  let span := _getRangeAtPosition model target in
  startColumn span <= column target <= endColumn span ->
  let a := anchor_of H model h in
  startColumn span <= startColumn (range a) /\
  startColumn (range a) <= endColumn (range a) /\
  endColumn (range a) <= endColumn span /\
  (direction a = before -> startColumn span = column target /\ range a = span) /\
  (direction a = after ->
   range a = mkRange (lineNumber target) (startColumn span)
                     (lineNumber target) (column target)).
Proof.
  intros target span Htouch a. subst a. unfold anchor_of. fold target. fold span.
  destruct (_getRangeAtPosition_lines model target) as [Hs He]. fold span in Hs, He.
  destruct (Position.isBefore (Range.getStartPosition span) target) eqn:Hb; simpl.
  - apply isBefore_spec in Hb. simpl in Hb.
    repeat split; try lia; try discriminate.
    intros _. unfold Range.fromPositions. simpl. rewrite Hs. reflexivity.
  - assert (Heq : startColumn span = column target).
    { destruct (Z.eq_dec (startColumn span) (column target)) as [E|E]; [exact E|].
      exfalso. assert (Position.isBefore (Range.getStartPosition span) target = true);
        [|congruence].
      apply isBefore_spec. simpl. right. lia. }
    repeat split; try lia; try discriminate.
    unfold Range.fromPositions. simpl. destruct span; simpl in *. subst. reflexivity.
Qed.

(** On [foo.bar]: hint 0 at column 5 is at the start of [bar], hint 2 at
    column 8 at its end. *)
Lemma anchor_within_span_witness :
  (direction (anchor_of some_hints one_token_line 0) = before ->
   range (anchor_of some_hints one_token_line 0) = mkRange 1 5 1 8) /\
  (direction (anchor_of some_hints one_token_line 2) = after ->
   range (anchor_of some_hints one_token_line 2) = mkRange 1 5 1 8).
Proof.
  split.
  - intros Hd.
    assert (Ht : 5 <= 5 <= 8) by lia.
    exact (proj2 (proj1 (proj2 (proj2 (proj2
             (anchor_within_span some_hints one_token_line 0 Ht)))) Hd)).
  - intros Hd.
    assert (Ht : 5 <= 8 <= 8) by lia.
    exact (proj2 (proj2 (proj2 (proj2
             (anchor_within_span some_hints one_token_line 2 Ht)))) Hd).
Defined.

(** X9: when the token found for an offset contains it, the token fallback
    answers that token's span or, for a token of one character from the
    third token on with the offset at its start, the span of the token
    before it; the shift to the following token never happens. The answered
    span touches the position, that is it starts at or before the column and
    ends at or after it, provided that, from the third token on, the token
    before the found one ends where the found one starts and is well
    ordered; nothing is asked of the tokens before the first or the
    second. *)
Theorem token_span_touches_offset (line : Z) (tokens : LineTokens) (offset : Z) :
  let idx := findTokenIndexAtOffset tokens offset in
  getStartOffset tokens idx <= offset < getEndOffset tokens idx ->
  (1 < idx ->
     getEndOffset tokens (idx - 1) = getStartOffset tokens idx /\
     getStartOffset tokens (idx - 1) <= getEndOffset tokens (idx - 1)) ->
  let r := tokenRangeAtOffset line tokens offset in
  (r = mkRange line (getStartOffset tokens idx + 1) line (getEndOffset tokens idx + 1) \/
   (1 < idx /\ getStartOffset tokens idx = offset /\
    getEndOffset tokens idx = offset + 1 /\
    r = mkRange line (getStartOffset tokens (idx - 1) + 1)
                line (getEndOffset tokens (idx - 1) + 1))) /\
  startColumn r <= offset + 1 <= endColumn r.
Proof.
  intros idx Hin Hprev r. subst r. unfold tokenRangeAtOffset. fold idx.
  destruct (Z.eqb_spec (getEndOffset tokens idx - getStartOffset tokens idx) 1) as [Hone|Hone].
  - destruct (Z.eqb_spec (getStartOffset tokens idx) offset) as [Hstart|Hstart]; simpl.
    + destruct (Z.ltb_spec 1 idx) as [Hidx|Hidx]; simpl.
      * destruct (Hprev Hidx) as [Hcont Hord].
        split; [right; repeat split; auto; lia|lia].
      * replace (getEndOffset tokens idx =? offset) with false
          by (symmetry; apply Z.eqb_neq; lia).
        simpl. split; [left; reflexivity|lia].
    + replace (getEndOffset tokens idx =? offset) with false
        by (symmetry; apply Z.eqb_neq; lia).
      simpl. split; [left; reflexivity|lia].
  - simpl. split; [left; reflexivity|lia].
Qed.

(** The tokens [foo], [.], [.], [bar.]: at the start of the second dot the
    span of the first dot is answered; inside [foo], the first token, the
    span of [foo] is. *)
Lemma token_span_touches_offset_witness :
  (tokenRangeAtOffset 1 (tokens_of_ends [3; 4; 5; 9]) 4 = mkRange 1 4 1 5 /\
   startColumn (tokenRangeAtOffset 1 (tokens_of_ends [3; 4; 5; 9]) 4) <= 4 + 1
     <= endColumn (tokenRangeAtOffset 1 (tokens_of_ends [3; 4; 5; 9]) 4)) /\
  (tokenRangeAtOffset 1 (tokens_of_ends [3; 4; 5; 9]) 1 = mkRange 1 1 1 4 /\
   startColumn (tokenRangeAtOffset 1 (tokens_of_ends [3; 4; 5; 9]) 1) <= 1 + 1
     <= endColumn (tokenRangeAtOffset 1 (tokens_of_ends [3; 4; 5; 9]) 1)).
Proof.
  assert (H1 : getStartOffset (tokens_of_ends [3; 4; 5; 9])
                 (findTokenIndexAtOffset (tokens_of_ends [3; 4; 5; 9]) 4) <= 4
               < getEndOffset (tokens_of_ends [3; 4; 5; 9])
                   (findTokenIndexAtOffset (tokens_of_ends [3; 4; 5; 9]) 4))
    by (vm_compute; split; [discriminate|reflexivity]).
  assert (H2 : 1 < findTokenIndexAtOffset (tokens_of_ends [3; 4; 5; 9]) 4 ->
               getEndOffset (tokens_of_ends [3; 4; 5; 9])
                 (findTokenIndexAtOffset (tokens_of_ends [3; 4; 5; 9]) 4 - 1)
               = getStartOffset (tokens_of_ends [3; 4; 5; 9])
                   (findTokenIndexAtOffset (tokens_of_ends [3; 4; 5; 9]) 4) /\
               getStartOffset (tokens_of_ends [3; 4; 5; 9])
                 (findTokenIndexAtOffset (tokens_of_ends [3; 4; 5; 9]) 4 - 1)
               <= getEndOffset (tokens_of_ends [3; 4; 5; 9])
                    (findTokenIndexAtOffset (tokens_of_ends [3; 4; 5; 9]) 4 - 1))
    by (intros _; vm_compute; split; [reflexivity|discriminate]).
  assert (H3 : getStartOffset (tokens_of_ends [3; 4; 5; 9])
                 (findTokenIndexAtOffset (tokens_of_ends [3; 4; 5; 9]) 1) <= 1
               < getEndOffset (tokens_of_ends [3; 4; 5; 9])
                   (findTokenIndexAtOffset (tokens_of_ends [3; 4; 5; 9]) 1))
    by (vm_compute; split; [discriminate|reflexivity]).
  assert (H4 : 1 < findTokenIndexAtOffset (tokens_of_ends [3; 4; 5; 9]) 1 ->
               getEndOffset (tokens_of_ends [3; 4; 5; 9])
                 (findTokenIndexAtOffset (tokens_of_ends [3; 4; 5; 9]) 1 - 1)
               = getStartOffset (tokens_of_ends [3; 4; 5; 9])
                   (findTokenIndexAtOffset (tokens_of_ends [3; 4; 5; 9]) 1) /\
               getStartOffset (tokens_of_ends [3; 4; 5; 9])
                 (findTokenIndexAtOffset (tokens_of_ends [3; 4; 5; 9]) 1 - 1)
               <= getEndOffset (tokens_of_ends [3; 4; 5; 9])
                    (findTokenIndexAtOffset (tokens_of_ends [3; 4; 5; 9]) 1 - 1))
    by (intros Hlt; vm_compute in Hlt; discriminate).
  split.
  - split; [reflexivity|].
    exact (proj2 (token_span_touches_offset 1 (tokens_of_ends [3; 4; 5; 9]) 4 H1 H2)).
  - split; [reflexivity|].
    exact (proj2 (token_span_touches_offset 1 (tokens_of_ends [3; 4; 5; 9]) 1 H3 H4)).
Defined.

(** ** More on resolution *)

Lemma resolve_shape (this token : nat) (s : State) (pc : Pc) (s' : State) :
  resolve this token s = Some (pc, s') -> turn_shape s s'.
Proof.
  intros Hr.
  apply resolve_cases in Hr
    as (it & Hit & [(_ & _ & ->)|[(_ & p & _ & _ & ->)|[(_ & _ & _ & _ & ->)|(Hhas & Hcur & Hres & _ & ->)]]]);
    try (left; auto; fail).
  right. left. exists this, token, it. simpl. auto 10.
Qed.

Lemma step_shape (e : Event) (s : State) : turn_shape s (step e s).
Proof.
  assert (Hnone : turn_shape s s) by (left; auto).
  destruct e as [this token|p answer|p|t|token|this a]; simpl.
  - destruct (resolve this token s) as [[pc s']|] eqn:Hr; [|exact Hnone].
    apply resolve_shape in Hr. exact Hr.
  - destruct (st_promises s !! p) as [[this ph]|] eqn:Hp; [|exact Hnone].
    destruct ph; try exact Hnone.
    destruct (st_items s !! this) as [it|] eqn:Hit; [|exact Hnone].
    destruct (answer_cases this (hint it) answer s)
      as (r & s' & -> & Hr & Hps & _ & _ & Hcs & b & Hits).
    right. right. left. exists p, this, it, b. simpl. rewrite Hr, Hps. auto.
  - destruct (st_promises s !! p) as [[this ph]|] eqn:Hp; [|exact Hnone].
    destruct ph as [|c|c]; try exact Hnone.
    right. right. right. left. exists p, this, c. simpl. auto.
  - destruct (st_tasks s !! t) as [[item token pc]|]; [|exact Hnone].
    destruct pc as [p|[p|]| |err]; try exact Hnone.
    + destruct (settlement s p) as [[|err]|]; try exact Hnone.
      case_bool_decide; [exact Hnone|].
      destruct (resolve item token s) as [[pc s']|] eqn:Hr; [|exact Hnone].
      apply resolve_shape in Hr. exact Hr.
    + destruct (settlement s p) as [[|err]|]; exact Hnone.
  - exact Hnone.
  - destruct (st_items s !! this) as [it|] eqn:Hit; [|exact Hnone].
    right. right. right. right. exists this, it, a. simpl. auto.
Qed.

(** A turn changes neither the hint nor the producer of an item, and no
    item disappears. *)
Lemma turn_item_kept (s s' : State) (i : nat) (it : InlayHintItem) :
  turn_shape s s' -> st_items s !! i = Some it ->
  exists it', st_items s' !! i = Some it' /\
              hint it' = hint it /\ _provider it' = _provider it.
Proof.
  intros Hshape Hi.
  assert (Halter : forall g this,
            (forall x, hint (g x) = hint x /\ _provider (g x) = _provider x) ->
            exists it', alter g this (st_items s) !! i = Some it' /\
                        hint it' = hint it /\ _provider it' = _provider it).
  { intros g this Hg. rewrite list_lookup_alter. case_decide; [|eauto].
    subst. rewrite Hi. simpl. exists (g it). split; [reflexivity|]. apply Hg. }
  destruct Hshape as [(-> & _)|[(this & token & it0 & _ & _ & _ & _ & -> & _)
    |[(p & this & it0 & b & _ & _ & -> & _)|[(p & this & c & _ & -> & _)
    |(this & it0 & a & _ & -> & _)]]]].
  - eauto.
  - apply Halter. intros x. auto.
  - apply Halter. intros x. auto.
  - apply Halter. intros x. auto.
  - exists it. split; [apply lookup_app_l_Some, Hi|auto].
Qed.

(** Where the items of the state after a turn come from. *)
Lemma turn_item_origin (s s' : State) (i : nat) (it' : InlayHintItem) :
  turn_shape s s' -> st_items s' !! i = Some it' ->
  (exists it, st_items s !! i = Some it /\
              hint it' = hint it /\ _provider it' = _provider it /\
              (it' = it \/
               (exists x, it' = set_currentResolve x it) \/
               (exists b, it' = set_isResolved b it))) \/
  (exists this it a, st_items s !! this = Some it /\ it' = with_ it a).
Proof.
  intros Hshape Hi.
  assert (Halter : forall g this,
            (forall x, hint (g x) = hint x /\ _provider (g x) = _provider x) ->
            (forall x, (exists y, g x = set_currentResolve y x) \/
                       (exists b, g x = set_isResolved b x)) ->
            alter g this (st_items s) !! i = Some it' ->
            exists it, st_items s !! i = Some it /\
              hint it' = hint it /\ _provider it' = _provider it /\
              (it' = it \/
               (exists x, it' = set_currentResolve x it) \/
               (exists b, it' = set_isResolved b it))).
  { intros g this Hg Hform Hl. rewrite list_lookup_alter in Hl. case_decide.
    - subst. destruct (st_items s !! i) as [it|]; [|discriminate].
      simpl in Hl. injection Hl as <-. exists it.
      split; [reflexivity|]. destruct (Hg it) as [-> ->].
      split; [reflexivity|]. split; [reflexivity|]. right. apply Hform.
    - exists it'. auto. }
  destruct Hshape as [(E & _)|[(this & token & it0 & _ & _ & _ & _ & E & _)
    |[(p & this & it0 & b & _ & _ & E & _)|[(p & this & c & _ & E & _)
    |(this & it0 & a & Hthis & E & _)]]]]; rewrite E in Hi.
  - left. exists it'. auto.
  - left. eapply Halter; [| |exact Hi]; intros x;
      [split; reflexivity | left; eexists; reflexivity].
  - left. eapply Halter; [| |exact Hi]; intros x;
      [split; reflexivity | right; eexists; reflexivity].
  - left. eapply Halter; [| |exact Hi]; intros x;
      [split; reflexivity | left; eexists; reflexivity].
  - apply lookup_app_Some in Hi as [Hi|[_ Hi]].
    + left. exists it'. auto.
    + apply list_lookup_singleton_Some in Hi as [_ <-]. right. eauto.
Qed.

Lemma turn_operations_sound (s s' : State) :
  turn_shape s s' -> operations_sound s -> operations_sound s'.
Proof.
  intros Hshape (Hlen & Hops & Hhandles).
  pose proof (turn_item_kept s s') as Hkept. specialize (fun i it => Hkept i it Hshape).
  assert (Hold : forall k o o0,
            st_promises s !! k = Some o0 -> owner o = owner o0 ->
            st_calls s' !! k = st_calls s !! k ->
            exists it call,
              st_items s' !! owner o = Some it /\
              has_resolveInlayHint (_provider it) = true /\
              st_calls s' !! k = Some call /\
              c_hint call = hint it /\ c_provider call = pid (_provider it)).
  { intros k o o0 Hk Hown Hcalls.
    destruct (Hops k o0 Hk) as (it & call & Hit & Hhas & Hcall & Hh & Hp).
    destruct (Hkept _ _ Hit) as (it' & Hit' & Hh' & Hp').
    exists it', call. rewrite Hown, Hcalls, Hh', Hp'. auto. }
  destruct Hshape as [(Ei & Ep & Ec)|[(this & token & it0 & Hthis & Hhas & Hcur & Hres & Ei & Ep & Ec)
    |[(p & this & it0 & b & Hp & Hthis & Ei & Ep & Ec)|[(p & this & c & Hp & Ei & Ep & Ec)
    |(this & it0 & a & Hthis & Ei & Ep & Ec)]]]].
  - unfold operations_sound. rewrite Ei, Ep, Ec. auto.
  - split; [rewrite Ep, Ec, !length_app, Hlen; reflexivity|]. split.
    + intros k o Hk. rewrite Ep in Hk. apply lookup_app_Some in Hk as [Hk|[Hge Hk]].
      * apply (Hold k o o Hk eq_refl). rewrite Ec.
        apply lookup_app_l. rewrite Hlen. eapply lookup_lt_Some, Hk.
      * apply list_lookup_singleton_Some in Hk as [Hk <-]. simpl.
        assert (k = length (st_promises s)) as -> by lia.
        exists (set_currentResolve (Some (length (st_promises s))) it0),
               (mkCall (pid (_provider it0)) (hint it0) token).
        rewrite Ei, Ec, list_lookup_alter_eq, Hthis. simpl.
        split; [reflexivity|]. split; [exact Hhas|].
        split; [apply list_lookup_middle; auto|auto].
    + intros i it q Hi Hq. rewrite Ep, length_app. simpl.
      rewrite Ei, list_lookup_alter in Hi. case_decide.
      * subst. rewrite Hthis in Hi. simpl in Hi. injection Hi as <-.
        simpl in Hq. injection Hq as <-. lia.
      * specialize (Hhandles i it q Hi Hq). lia.
  - split; [rewrite Ep, Ec, length_alter; exact Hlen|]. split.
    + intros k o Hk. rewrite Ep, list_lookup_alter in Hk.
      destruct (st_promises s !! k) as [o0|] eqn:Hk0;
        [|case_decide; subst; rewrite ?Hk0 in Hk; discriminate].
      apply (Hold k o o0 Hk0); [|rewrite Ec; reflexivity].
      case_decide; [|congruence]. subst. rewrite Hk0 in Hk. simpl in Hk.
      injection Hk as <-. reflexivity.
    + intros i it q Hi Hq. rewrite Ep, length_alter.
      rewrite Ei, list_lookup_alter in Hi. case_decide; [|eauto].
      subst. rewrite Hthis in Hi. simpl in Hi. injection Hi as <-.
      eapply Hhandles; eauto.
  - split; [rewrite Ep, Ec, length_alter; exact Hlen|]. split.
    + intros k o Hk. rewrite Ep, list_lookup_alter in Hk.
      destruct (st_promises s !! k) as [o0|] eqn:Hk0;
        [|case_decide; subst; rewrite ?Hk0 in Hk; discriminate].
      apply (Hold k o o0 Hk0); [|rewrite Ec; reflexivity].
      case_decide; [|congruence]. subst. rewrite Hk0 in Hk. simpl in Hk.
      injection Hk as <-. reflexivity.
    + intros i it q Hi Hq. rewrite Ep, length_alter.
      rewrite Ei, list_lookup_alter in Hi. case_decide; [|eauto].
      subst. destruct (st_items s !! i); [|discriminate].
      simpl in Hi. injection Hi as <-. discriminate.
  - split; [rewrite Ep, Ec; exact Hlen|]. split.
    + intros k o Hk. rewrite Ep in Hk.
      apply (Hold k o o Hk eq_refl). rewrite Ec. reflexivity.
    + intros i it q Hi Hq. rewrite Ep.
      rewrite Ei in Hi. apply lookup_app_Some in Hi as [Hi|[_ Hi]]; [eauto|].
      apply list_lookup_singleton_Some in Hi as [_ <-].
      eapply Hhandles; eauto.
Qed.

Lemma run_shape_invariant (P : State -> Prop) :
  (forall s s', turn_shape s s' -> P s -> P s') ->
  forall evs s, P s -> P (run evs s).
Proof.
  intros Hstep evs. induction evs as [|e evs IH]; intros s Hs; simpl; [assumption|].
  apply IH, (Hstep s), Hs. apply step_shape.
Qed.

Lemma init_operations_sound (H : HintStore)
    (news : list (nat * InlayHintAnchor * InlayHintsProvider)) :
  operations_sound (init H news).
Proof.
  split; [reflexivity|]. split.
  - intros k o Hk. simpl in Hk. rewrite lookup_nil in Hk. discriminate.
  - intros i it p Hi Hp. simpl in Hi.
    change (map ?g news) with (g <$> news) in Hi.
    rewrite list_lookup_fmap in Hi.
    destruct (news !! i) as [[[h a] q]|]; [|discriminate].
    simpl in Hi. injection Hi as <-. discriminate.
Qed.

Lemma reachable_operations_sound (s : State) :
  reachable s -> operations_sound s.
Proof.
  intros (H & news & evs & ->).
  apply (run_shape_invariant operations_sound turn_operations_sound).
  apply init_operations_sound.
Qed.

(** X10: in every reachable state there are as many calls of the producer
    as operations, and the [k]-th call is the call for the hint and the
    producer of the item that started the [k]-th operation, an item that
    exists and whose producer can resolve; and every handle an item holds
    refers to an operation that exists. *)
Theorem every_operation_has_its_call (s : State) :
  reachable s -> operations_sound s.
Proof. exact (reachable_operations_sound s). Qed.

Lemma every_operation_has_its_call_witness :
  operations_sound
    (run [EResolve 0 7; EWith 0 other_anchor; EAnswer 0 (inl "boom"%string);
          EFinally 0; EResolve 0 8] one_item).
Proof.
  apply every_operation_has_its_call.
  exists some_hints, [(0%nat, an_anchor, PA)],
    [EResolve 0 7; EWith 0 other_anchor; EAnswer 0 (inl "boom"%string);
     EFinally 0; EResolve 0 8].
  reflexivity.
Defined.

Lemma turn_idle_without_resolver (s s' : State) :
  turn_shape s s' -> operations_sound s ->
  idle_without_resolver s -> idle_without_resolver s'.
Proof.
  intros Hshape (_ & Hops & _) Hidle.
  assert (Halter : forall (g : InlayHintItem -> InlayHintItem) this it0,
            st_items s !! this = Some it0 ->
            has_resolveInlayHint (_provider it0) = true ->
            (forall x, _provider (g x) = _provider x) ->
            st_items s' = alter g this (st_items s) ->
            idle_without_resolver s').
  { intros g this it0 Hthis Hhas Hg E i it' Hi Hno.
    rewrite E, list_lookup_alter in Hi. case_decide; [|eauto].
    subst. rewrite Hthis in Hi. simpl in Hi. injection Hi as <-.
    rewrite Hg in Hno. congruence. }
  destruct Hshape as [(Ei & _)|[(this & token & it0 & Hthis & Hhas & _ & _ & Ei & _)
    |[(p & this & it0 & b & Hp & Hthis & Ei & _)|[(p & this & c & Hp & Ei & _)
    |(this & it0 & a & Hthis & Ei & _)]]]].
  - unfold idle_without_resolver. rewrite Ei. exact Hidle.
  - refine (Halter _ this it0 Hthis Hhas _ Ei). reflexivity.
  - destruct (Hops p _ Hp) as (it & call & Hit & Hhas & _). simpl in Hit.
    refine (Halter _ this it Hit Hhas _ Ei). reflexivity.
  - destruct (Hops p _ Hp) as (it & call & Hit & Hhas & _). simpl in Hit.
    refine (Halter _ this it Hit Hhas _ Ei). reflexivity.
  - intros i it' Hi Hno. rewrite Ei in Hi.
    apply lookup_app_Some in Hi as [Hi|[_ Hi]]; [eauto|].
    apply list_lookup_singleton_Some in Hi as [_ <-].
    apply (Hidle this it0 Hthis Hno).
Qed.

Lemma reachable_idle_without_resolver (s : State) :
  reachable s -> idle_without_resolver s.
Proof.
  intros (H & news & evs & ->).
  cut (operations_sound (run evs (init H news)) /\
       idle_without_resolver (run evs (init H news))); [tauto|].
  apply (run_shape_invariant (fun s => operations_sound s /\ idle_without_resolver s)).
  - intros s s' Hshape [Hs Hi].
    split; [eapply turn_operations_sound | eapply turn_idle_without_resolver]; eauto.
  - split; [apply init_operations_sound|].
    intros i it Hi _. simpl in Hi.
    change (map ?g news) with (g <$> news) in Hi.
    rewrite list_lookup_fmap in Hi.
    destruct (news !! i) as [[[h a] q]|]; [|discriminate].
    simpl in Hi. injection Hi as <-. split; reflexivity.
Qed.

(** X11: an item whose producer has no [resolveInlayHint] is never
    resolved: in every reachable state it is not resolved and holds no
    handle, no operation is its own, and a call of [resolve] on it returns
    at once, without a call of the producer and without any other change of
    the state. *)
Theorem no_resolver_no_resolution (s : State) (this : nat) (it : InlayHintItem) :
  reachable s ->
  st_items s !! this = Some it ->
  has_resolveInlayHint (_provider it) = false ->
  fresh_item it /\
  (forall k o, st_promises s !! k = Some o -> owner o <> this) /\
  (forall token,
     step (EResolve this token) s
     = set_tasks (fun ts => ts ++ [mkTask this token Returned]) s).
Proof.
  intros Hreach Hit Hno. split; [|split].
  - apply (reachable_idle_without_resolver s Hreach this it Hit Hno).
  - intros k o Hk Hown.
    destruct (reachable_operations_sound s Hreach) as (_ & Hops & _).
    destruct (Hops k o Hk) as (it' & call & Hit' & Hhas & _).
    rewrite Hown, Hit in Hit'. injection Hit' as <-. congruence.
  - intros token. simpl. unfold resolve. rewrite Hit. simpl. rewrite Hno. reflexivity.
Qed.

(** A producer that cannot resolve, and its item. *)
Lemma no_resolver_no_resolution_witness :
  fresh_item (new_InlayHintItem 2 an_anchor PC) /\
  step (EResolve 0 7) (run [EResolve 0 5; EResume 0] (init some_hints [(2%nat, an_anchor, PC)]))
  = set_tasks (fun ts => ts ++ [mkTask 0 7 Returned])
      (run [EResolve 0 5; EResume 0] (init some_hints [(2%nat, an_anchor, PC)])).
Proof.
  assert (Hreach : reachable
            (run [EResolve 0 5; EResume 0] (init some_hints [(2%nat, an_anchor, PC)]))).
  { exists some_hints, [(2%nat, an_anchor, PC)], [EResolve 0 5; EResume 0]. reflexivity. }
  pose proof (no_resolver_no_resolution _ 0 (new_InlayHintItem 2 an_anchor PC)
                Hreach eq_refl eq_refl) as (Hfresh & _ & Hstep).
  split; [exact Hfresh | exact (Hstep 7%nat)].
Defined.

(** *** The resolved flag *)

Lemma turn_running_unresolved (s s' : State) :
  turn_shape s s' -> single_flight s ->
  running_unresolved s -> running_unresolved s'.
Proof.
  intros Hshape Hsf Hrun.
  destruct Hshape as [(Ei & Ep & _)|[(this & token & it0 & Hthis & Hhas & Hcur & Hres & Ei & Ep & _)
    |[(p & this & it0 & b & Hp & Hthis & Ei & Ep & _)|[(p & this & c & Hp & Ei & Ep & _)
    |(this & it0 & a & Hthis & Ei & Ep & _)]]]].
  - unfold running_unresolved. rewrite Ei, Ep. exact Hrun.
  - intros k o Hk Hph. rewrite Ep in Hk. rewrite Ei.
    assert (Hflag : forall j it, st_items s !! j = Some it -> _isResolved it = false ->
              exists it', alter (set_currentResolve (Some (length (st_promises s)))) this
                            (st_items s) !! j = Some it' /\ _isResolved it' = false).
    { intros j it Hj Hf. rewrite list_lookup_alter. case_decide; [|eauto].
      subst. rewrite Hj. simpl. eexists. split; [reflexivity|]. exact Hf. }
    apply lookup_app_Some in Hk as [Hk|[_ Hk]].
    + destruct (Hrun k o Hk Hph) as (it & Hit & Hf). eauto.
    + apply list_lookup_singleton_Some in Hk as [_ <-]. simpl. eauto.
  - intros k o Hk Hph. rewrite Ep, list_lookup_alter in Hk. rewrite Ei.
    case_decide as Hpk.
    { subst. rewrite Hp in Hk. simpl in Hk. injection Hk as <-. discriminate. }
    destruct (Hrun k o Hk Hph) as (it & Hit & Hf).
    assert (owner o <> this) as Hne.
    { intros Hown. apply Hpk.
      destruct (Hsf p _ Hp eq_refl) as (x & Hx & Hcx).
      destruct (Hsf k o Hk) as (y & Hy & Hcy); [unfold is_in_flight; rewrite Hph; reflexivity|].
      simpl in Hx. rewrite Hown, Hx in Hy. injection Hy as <-. congruence. }
    exists it. rewrite list_lookup_alter_ne by auto. auto.
  - intros k o Hk Hph. rewrite Ep, list_lookup_alter in Hk. rewrite Ei.
    case_decide as Hpk.
    { subst. rewrite Hp in Hk. simpl in Hk. injection Hk as <-. discriminate. }
    destruct (Hrun k o Hk Hph) as (it & Hit & Hf).
    rewrite list_lookup_alter. case_decide; [|eauto].
    subst. rewrite Hit. simpl. eexists. split; [reflexivity|]. exact Hf.
  - intros k o Hk Hph. rewrite Ep in Hk. rewrite Ei.
    destruct (Hrun k o Hk Hph) as (it & Hit & Hf).
    exists it. split; [apply lookup_app_l_Some, Hit|exact Hf].
Qed.

Lemma turn_resolved_stays (s s' : State) (i : nat) (it : InlayHintItem) :
  turn_shape s s' -> running_unresolved s ->
  st_items s !! i = Some it -> _isResolved it = true ->
  exists it', st_items s' !! i = Some it' /\ _isResolved it' = true.
Proof.
  intros Hshape Hrun Hi Hres.
  destruct Hshape as [(Ei & _)|[(this & token & it0 & _ & _ & _ & _ & Ei & _)
    |[(p & this & it0 & b & Hp & Hthis & Ei & _)|[(p & this & c & _ & Ei & _)
    |(this & it0 & a & _ & Ei & _)]]]]; rewrite Ei.
  - eauto.
  - rewrite list_lookup_alter. case_decide; [|eauto].
    subst. rewrite Hi. simpl. eexists. split; [reflexivity|]. exact Hres.
  - destruct (Hrun p _ Hp eq_refl) as (x & Hx & Hf). simpl in Hx.
    rewrite list_lookup_alter_ne; [eauto|].
    intros ->. rewrite Hx in Hi. injection Hi as ->. congruence.
  - rewrite list_lookup_alter. case_decide; [|eauto].
    subst. rewrite Hi. simpl. eexists. split; [reflexivity|]. exact Hres.
  - exists it. split; [apply lookup_app_l_Some, Hi|exact Hres].
Qed.

Lemma run_running_unresolved (evs : list Event) (s : State) :
  single_flight s -> running_unresolved s ->
  running_unresolved (run evs s).
Proof.
  revert s. induction evs as [|e evs IH]; intros s Hsf Hrun; simpl; [assumption|].
  apply IH; [apply step_single_flight, Hsf|].
  apply (turn_running_unresolved s); auto using step_shape.
Qed.

Lemma reachable_running_unresolved (s : State) :
  reachable s -> running_unresolved s.
Proof.
  intros (H & news & evs & ->). apply run_running_unresolved.
  - intros p o Hp. simpl in Hp. rewrite lookup_nil in Hp. discriminate.
  - intros p o Hp. simpl in Hp. rewrite lookup_nil in Hp. discriminate.
Qed.

(** X12: the resolved flag is never cleared. In a reachable state an
    operation that awaits the producer's answer belongs to an item that is
    not resolved, so a failure cannot reset the flag of a resolved item: an
    item that is resolved is resolved in every later state, with the same
    hint and the same producer. *)
Theorem resolved_stays_resolved (s : State) (i : nat) (it : InlayHintItem) :
  reachable s ->
  st_items s !! i = Some it -> _isResolved it = true ->
  forall evs,
    exists it', st_items (run evs s) !! i = Some it' /\ _isResolved it' = true /\
                hint it' = hint it /\ _provider it' = _provider it.
Proof.
  intros Hreach Hi Hres evs.
  pose proof (reachable_single_flight s Hreach) as Hsf.
  pose proof (reachable_running_unresolved s Hreach) as Hrun.
  clear Hreach. revert s it Hi Hres Hsf Hrun.
  induction evs as [|e evs IH]; intros s it Hi Hres Hsf Hrun; simpl; [eauto|].
  destruct (turn_resolved_stays s (step e s) i it (step_shape e s) Hrun Hi Hres)
    as (it1 & Hi1 & Hres1).
  destruct (turn_item_kept s (step e s) i it (step_shape e s) Hi) as (it1' & Hi1' & Hh & Hp).
  rewrite Hi1 in Hi1'. injection Hi1' as <-.
  destruct (IH (step e s) it1 Hi1 Hres1) as (it' & Hi' & Hres' & Hh' & Hp').
  - apply step_single_flight, Hsf.
  - apply (turn_running_unresolved s); auto using step_shape.
  - exists it'. rewrite Hh', Hp', Hh, Hp. auto.
Qed.

Lemma resolved_stays_resolved_witness :
  exists it',
    st_items (run [EResolve 0 8; EResume 1; EWith 0 other_anchor; EResolve 1 9]
                (run [EResolve 0 7; EAnswer 0 (inr None); EFinally 0; EResume 0] one_item))
      !! 0%nat = Some it' /\
    _isResolved it' = true.
Proof.
  assert (Hreach : reachable
            (run [EResolve 0 7; EAnswer 0 (inr None); EFinally 0; EResume 0] one_item)).
  { exists some_hints, [(0%nat, an_anchor, PA)],
      [EResolve 0 7; EAnswer 0 (inr None); EFinally 0; EResume 0]. reflexivity. }
  destruct (resolved_stays_resolved _ 0 (mkItem 0 an_anchor PA true None)
              Hreach eq_refl eq_refl
              [EResolve 0 8; EResume 1; EWith 0 other_anchor; EResolve 1 9])
    as (it' & Hit' & Hres & _).
  exists it'. split; [exact Hit' | exact Hres].
Defined.

(** X13: a call of [resolve] on a resolved item never calls the producer
    and starts no operation, whether or not the item holds a handle: nothing
    but the record of the call itself is added to the state. When its
    producer can resolve and the item holds no handle, that is when its
    [_currentResolve] is undefined, the call returns on its first
    continuation. *)
Theorem resolve_of_resolved_is_noop (s : State) (this token : nat) (it : InlayHintItem) :
  st_items s !! this = Some it ->
  _isResolved it = true ->
  (exists pc,
     step (EResolve this token) s
     = set_tasks (fun ts => ts ++ [mkTask this token pc]) s) /\
  (has_resolveInlayHint (_provider it) = true -> _currentResolve it = None ->
   run [EResolve this token; EResume (length (st_tasks s))] s
   = set_tasks (fun ts => ts ++ [mkTask this token Returned]) s).
Proof.
  intros Hit Hres. split.
  - simpl. unfold resolve. rewrite Hit. simpl.
    destruct (has_resolveInlayHint (_provider it)); simpl; [|eauto].
    destruct (_currentResolve it) as [p|]; [eauto|].
    rewrite Hres. simpl. eauto.
  - intros Hhas Hcur. unfold run. cbn [fold_left].
    assert (E1 : step (EResolve this token) s
                 = set_tasks (fun ts => ts ++ [mkTask this token (AwaitFinal None)]) s).
    { simpl. unfold resolve. rewrite Hit. simpl. rewrite Hhas, Hcur, Hres. reflexivity. }
    rewrite E1.
    erewrite (step_resume_nothing (length (st_tasks s)) this token);
      [|simpl; apply list_lookup_middle; reflexivity].
    apply state_eq; simpl; try reflexivity.
    rewrite alter_app_r_alt by lia. rewrite Nat.sub_diag. reflexivity.
Qed.

Lemma resolve_of_resolved_is_noop_witness :
  st_calls (run [EResolve 0 8; EResume 1]
              (run [EResolve 0 7; EAnswer 0 (inr None); EFinally 0; EResume 0] one_item))
  = [mkCall 0 0 7].
Proof.
  exact (f_equal st_calls
           (proj2 (resolve_of_resolved_is_noop
                     (run [EResolve 0 7; EAnswer 0 (inr None); EFinally 0; EResume 0] one_item)
                     0 8 (mkItem 0 an_anchor PA true None) eq_refl eq_refl)
              eq_refl eq_refl)).
Defined.

(** *** Positions under resolution *)

Lemma step_positions (e : Event) (s : State) (h : nat) :
  position (st_hints (step e s) h) = position (st_hints s h).
Proof.
  destruct e as [this token|p answer|p|t|token|this a]; simpl.
  - destruct (resolve this token s) as [[pc s']|] eqn:Hr; [|reflexivity].
    apply resolve_frame in Hr as (_ & _ & Hh & _). simpl. rewrite Hh. reflexivity.
  - destruct (st_promises s !! p) as [[this ph]|]; [|reflexivity].
    destruct ph; try reflexivity.
    destruct (st_items s !! this) as [it|]; [|reflexivity].
    destruct answer as [err|newHint].
    + rewrite _doResolve_resume_failure. reflexivity.
    + rewrite _doResolve_resume_result. simpl.
      destruct (decide (hint it = h)) as [->|Hne].
      * rewrite !store_lookup_insert. reflexivity.
      * rewrite !store_lookup_insert_ne by assumption. reflexivity.
  - destruct (st_promises s !! p) as [[this ph]|]; [|reflexivity].
    destruct ph; reflexivity.
  - destruct (st_tasks s !! t) as [[item token pc]|]; [|reflexivity].
    destruct pc as [p|[p|]| |err]; try reflexivity.
    + destruct (settlement s p) as [[|err]|]; try reflexivity.
      case_bool_decide; [reflexivity|].
      destruct (resolve item token s) as [[pc s']|] eqn:Hr; [|reflexivity].
      apply resolve_frame in Hr as (_ & _ & Hh & _). simpl. rewrite Hh. reflexivity.
    + destruct (settlement s p) as [[|err]|]; reflexivity.
  - reflexivity.
  - destruct (st_items s !! this); reflexivity.
Qed.

Lemma run_positions (evs : list Event) (s : State) (h : nat) :
  position (st_hints (run evs s) h) = position (st_hints s h).
Proof.
  revert s. induction evs as [|e evs IH]; intros s; simpl; [reflexivity|].
  rewrite IH. apply step_positions.
Qed.

Lemma StronglySorted_impl_same {A : Type} (R1 R2 : A -> A -> Prop) (l : list A) :
  (forall a b, R1 a b -> R2 a b) -> StronglySorted R1 l -> StronglySorted R2 l.
Proof.
  intros Himpl. induction 1 as [|x l Hl IH Hx]; constructor; [assumption|].
  eapply List.Forall_impl; [|exact Hx]. apply Himpl.
Qed.

(** X14: resolution never moves a hint: whatever is resolved, every hint
    keeps its position, so the items of a created fragment set, which are
    sorted once, are still sorted by position in every later state of the
    hints. *)
Theorem resolution_keeps_order :
  (forall evs s h, position (st_hints (run evs s) h) = position (st_hints s h)) /\
  (forall H ordered model ranges answer schedule w f w',
     create H ordered model ranges answer schedule w = Some (f, w') ->
     forall news evs,
       StronglySorted
         (fun a b =>
            Position.compare (hint_position (st_hints (run evs (init H news))) a)
                             (hint_position (st_hints (run evs (init H news))) b) <= 0)
         (items f)).
Proof.
  split; [exact run_positions|].
  intros H ordered model ranges answer schedule w f w' Hc news evs.
  apply create_Some in Hc as (_ & Hitems & _). rewrite Hitems.
  eapply StronglySorted_impl_same; [|apply (Array_sort_sorted (compare_items H));
    [apply compare_items_flip | apply compare_items_trans]].
  intros a b. unfold compare_items, hint_position. rewrite !run_positions. simpl. auto.
Qed.

Lemma resolution_keeps_order_witness :
  StronglySorted
    (fun a b =>
       Position.compare
         (hint_position (st_hints (run [EResolve 0 7; EAnswer 0 (inr empty_fields)] one_item)) a)
         (hint_position (st_hints (run [EResolve 0 7; EAnswer 0 (inr empty_fields)] one_item)) b)
       <= 0)
    (items (fst (new_InlayHintsFragments some_hints
                   [(mkHintList [2%nat; 0%nat] 10, PA); (mkHintList [1%nat] 11, PB)]
                   quoted_line (with_sink blank_world ["boom"%string])))).
Proof.
  exact (proj2 resolution_keeps_order some_hints [PA; PB; PC] quoted_line [whole_line]
           mixed_answer [2%nat; 0%nat; 1%nat] blank_world _ _ eq_refl
           [(0%nat, an_anchor, PA)] [EResolve 0 7; EAnswer 0 (inr empty_fields)]).
Defined.

(** *** Whole resolutions *)

(** One call of [resolve], the producer's result, the callback of [finally]
    and the caller's continuation. *)
Lemma single_resolution_state (s : State) (this token : nat) (it : InlayHintItem)
    (newHint : option InlayHint) :
  st_items s !! this = Some it ->
  has_resolveInlayHint (_provider it) = true ->
  _currentResolve it = None -> _isResolved it = false ->
  run [EResolve this token; EAnswer (length (st_promises s)) (inr newHint);
       EFinally (length (st_promises s)); EResume (length (st_tasks s))] s =
  mkState
    (st_hints (snd (_doResolve_resume this (hint it) (inr newHint) s)))
    (alter (set_isResolved true) this (st_items s))
    (st_promises s ++ [mkOp this (Settled Normal)])
    (st_tasks s ++ [mkTask this token Returned])
    (st_cancelled s)
    (st_calls s ++ [mkCall (pid (_provider it)) (hint it) token])
    (st_sink s).
Proof.
  intros Hit Hhas Hcur Hres. pose proof (lookup_lt_Some _ _ _ Hit) as Hlt.
  unfold run. cbn [fold_left].
  rewrite (step_resolve_start this token it s Hit Hhas Hcur Hres).
  set (p := length (st_promises s)). set (t := length (st_tasks s)).
  erewrite (step_answer p this (set_currentResolve (Some p) it)).
  2: { simpl. apply list_lookup_middle. reflexivity. }
  2: { simpl. rewrite list_lookup_alter_eq, Hit. reflexivity. }
  rewrite !_doResolve_resume_result.
  erewrite (step_finally p this Normal).
  2: { simpl. rewrite list_lookup_alter_eq, list_lookup_middle by reflexivity.
       reflexivity. }
  erewrite (step_resume_final t this token p).
  2: { simpl. apply list_lookup_middle. reflexivity. }
  2: { apply settlement_Some. exists this. simpl.
       rewrite !list_lookup_alter_eq, list_lookup_middle by reflexivity. reflexivity. }
  apply state_eq; simpl; try reflexivity.
  - apply list_eq. intros i. rewrite !list_lookup_alter.
    destruct (decide (this = i)) as [<-|Hne]; [|reflexivity].
    rewrite !decide_True by reflexivity. rewrite Hit. simpl.
    destruct it; simpl in *; subst; reflexivity.
  - rewrite !alter_app_r_alt by (fold p; lia).
    replace (p - length (st_promises s))%nat with 0%nat by (subst p; lia).
    reflexivity.
  - rewrite alter_app_r_alt by (fold t; lia).
    replace (t - length (st_tasks s))%nat with 0%nat by (subst t; lia).
    reflexivity.
Qed.

(** X15: cancellation is not looked at before an operation is started: a
    call of [resolve] with a token that is already cancelled, on an item
    whose producer can resolve, that is not resolved and that holds no
    handle (its [_currentResolve] is undefined), calls the producer all the
    same; with the producer's result the hint is updated, the item is
    resolved and the call returns. *)
Theorem cancelled_token_still_resolves (s : State) (this token : nat)
    (it : InlayHintItem) (newHint : option InlayHint) :
  token ∈ st_cancelled s ->
  st_items s !! this = Some it ->
  has_resolveInlayHint (_provider it) = true ->
  _currentResolve it = None -> _isResolved it = false ->
  let s' := run [EResolve this token; EAnswer (length (st_promises s)) (inr newHint);
                 EFinally (length (st_promises s)); EResume (length (st_tasks s))] s in
  st_calls s' = st_calls s ++ [mkCall (pid (_provider it)) (hint it) token] /\
  st_items s' !! this = Some (set_isResolved true it) /\
  st_tasks s' !! length (st_tasks s) = Some (mkTask this token Returned) /\
  label (st_hints s' (hint it))
    = coalesce (opt_label newHint) (label (st_hints s (hint it))) /\
  tooltip (st_hints s' (hint it))
    = coalesce (opt_tooltip newHint) (tooltip (st_hints s (hint it))).
Proof.
  intros _ Hit Hhas Hcur Hres s'. subst s'.
  rewrite (single_resolution_state s this token it newHint Hit Hhas Hcur Hres).
  rewrite _doResolve_resume_result. simpl.
  split; [reflexivity|].
  split; [rewrite list_lookup_alter_eq, Hit; reflexivity|].
  split; [apply list_lookup_middle; reflexivity|].
  rewrite !store_lookup_insert. simpl. auto.
Qed.

Lemma cancelled_token_still_resolves_witness :
  st_calls (run [EResolve 0 7; EAnswer 0 (inr None); EFinally 0; EResume 0]
              (step (ECancel 7) one_item)) = [mkCall 0 0 7] /\
  st_items (run [EResolve 0 7; EAnswer 0 (inr None); EFinally 0; EResume 0]
              (step (ECancel 7) one_item)) !! 0%nat
  = Some (mkItem 0 an_anchor PA true None).
Proof.
  assert (Hc : 7%nat ∈ st_cancelled (step (ECancel 7) one_item))
    by (apply (bool_decide_unpack _); vm_compute; exact I).
  pose proof (cancelled_token_still_resolves (step (ECancel 7) one_item) 0 7
                (new_InlayHintItem 0 an_anchor PA) None Hc
                eq_refl eq_refl eq_refl eq_refl) as (Hcalls & Hitem & _).
  split; [exact Hcalls | exact Hitem].
Defined.

(** Two calls of [resolve] on one item, then the producer's failure and the
    callback of [finally]. *)
Lemma shared_failure_state (s : State) (this token1 token2 : nat)
    (it : InlayHintItem) (err : Error) :
  st_items s !! this = Some it ->
  has_resolveInlayHint (_provider it) = true ->
  _currentResolve it = None -> _isResolved it = false ->
  run [EResolve this token1; EResolve this token2;
       EAnswer (length (st_promises s)) (inl err);
       EFinally (length (st_promises s))] s =
  mkState (st_hints s) (st_items s)
    (st_promises s ++ [mkOp this (Settled Normal)])
    (st_tasks s ++ [mkTask this token1 (AwaitFinal (Some (length (st_promises s))));
                    mkTask this token2 (AwaitRetry (length (st_promises s)))])
    (st_cancelled s)
    (st_calls s ++ [mkCall (pid (_provider it)) (hint it) token1])
    (st_sink s ++ [err]).
Proof.
  intros Hit Hhas Hcur Hres. pose proof (lookup_lt_Some _ _ _ Hit) as Hlt.
  unfold run. cbn [fold_left].
  rewrite (step_resolve_start this token1 it s Hit Hhas Hcur Hres).
  set (p := length (st_promises s)).
  erewrite (step_resolve_wait this token2 p (set_currentResolve (Some p) it)); [|
    simpl; rewrite list_lookup_alter_eq, Hit; reflexivity | exact Hhas | reflexivity].
  erewrite (step_answer p this (set_currentResolve (Some p) it)).
  2: { simpl. apply list_lookup_middle. reflexivity. }
  2: { simpl. rewrite list_lookup_alter_eq, Hit. reflexivity. }
  rewrite _doResolve_resume_failure.
  erewrite (step_finally p this Normal).
  2: { simpl. rewrite list_lookup_alter_eq, list_lookup_middle by reflexivity.
       reflexivity. }
  apply state_eq; simpl; try reflexivity.
  - apply list_eq. intros i. rewrite !list_lookup_alter.
    destruct (decide (this = i)) as [<-|Hne]; [|reflexivity].
    rewrite !decide_True by reflexivity. rewrite Hit. simpl.
    destruct it; simpl in *; subst; reflexivity.
  - rewrite !alter_app_r_alt by (fold p; lia).
    replace (p - length (st_promises s))%nat with 0%nat by (subst p; lia).
    reflexivity.
  - rewrite <- app_assoc. reflexivity.
Qed.

(** X16: a caller that waited for an operation that failed tries again:
    when its token is not cancelled, its continuation finds the item not
    resolved and without handle, calls the producer a second time with its
    own token and waits for the new operation. Two callers and a failing
    producer make two calls of the producer, one after the other. *)
Theorem waiter_retries_after_failure (s : State) (this token1 token2 : nat)
    (it : InlayHintItem) (err : Error) :
  st_items s !! this = Some it ->
  has_resolveInlayHint (_provider it) = true ->
  _currentResolve it = None -> _isResolved it = false ->
  token2 ∉ st_cancelled s ->
  let p := length (st_promises s) in
  let t := length (st_tasks s) in
  let s' := run [EResolve this token1; EResolve this token2; EAnswer p (inl err);
                 EFinally p; EResume (S t)] s in
  st_calls s' = st_calls s ++ [mkCall (pid (_provider it)) (hint it) token1;
                               mkCall (pid (_provider it)) (hint it) token2] /\
  st_promises s' = st_promises s ++ [mkOp this (Settled Normal); mkOp this Running] /\
  st_tasks s' !! S t = Some (mkTask this token2 (AwaitFinal (Some (S p)))) /\
  st_items s' !! this = Some (set_currentResolve (Some (S p)) it) /\
  st_sink s' = st_sink s ++ [err].
Proof.
  intros Hit Hhas Hcur Hres Hcan p t s'. subst s'.
  change [EResolve this token1; EResolve this token2; EAnswer p (inl err);
          EFinally p; EResume (S t)]
    with ([EResolve this token1; EResolve this token2; EAnswer p (inl err);
           EFinally p] ++ [EResume (S t)]).
  rewrite run_app. subst p t.
  rewrite (shared_failure_state s this token1 token2 it err Hit Hhas Hcur Hres).
  set (p := length (st_promises s)). set (t := length (st_tasks s)).
  match goal with |- context [run _ ?x] => set (s4 := x) end.
  assert (E5 : step (EResume (S t)) s4
               = set_tasks (alter (set_pc (AwaitFinal (Some (S p)))) (S t))
                   (started this token2 it s4)).
  { apply (step_resume_retry (S t) this token2 p); [| |exact Hcan|].
    - simpl. rewrite lookup_app_r by (fold t; lia).
      replace (S t - length (st_tasks s))%nat with 1%nat by (subst t; lia).
      reflexivity.
    - apply settlement_Some. exists this. simpl. apply list_lookup_middle. reflexivity.
    - unfold resolve. simpl. rewrite Hit. simpl. rewrite Hhas, Hcur, Hres.
      rewrite length_app. simpl. fold p. replace (p + 1)%nat with (S p) by lia.
      reflexivity. }
  unfold run. cbn [fold_left]. rewrite E5. simpl.
  split; [rewrite <- app_assoc; reflexivity|].
  split; [rewrite <- app_assoc; reflexivity|].
  split.
  - rewrite list_lookup_alter_eq, lookup_app_r by (fold t; lia).
    replace (S t - length (st_tasks s))%nat with 1%nat by (subst t; lia).
    reflexivity.
  - split; [|reflexivity].
    rewrite list_lookup_alter_eq, Hit, length_app. simpl. fold p.
    replace (p + 1)%nat with (S p) by lia. reflexivity.
Qed.

Lemma waiter_retries_after_failure_witness :
  st_calls (run [EResolve 0 7; EResolve 0 8; EAnswer 0 (inl "boom"%string);
                 EFinally 0; EResume 1] one_item)
  = [mkCall 0 0 7; mkCall 0 0 8].
Proof.
  assert (Hfresh : 8%nat ∉ st_cancelled one_item).
  { intros Hin. vm_compute in Hin. inversion Hin. }
  exact (proj1 (waiter_retries_after_failure one_item 0 7 8
                  (new_InlayHintItem 0 an_anchor PA) "boom"%string
                  eq_refl eq_refl eq_refl eq_refl Hfresh)).
Defined.

Lemma step_cancel (token : nat) (s : State) :
  step (ECancel token) s = set_cancelled (fun c => token :: c) s.
Proof. reflexivity. Qed.

(** X17: cancellation stops the retry and nothing else. A caller that
    waited for an operation and whose token is cancelled before it
    continues returns without trying again, also when the operation failed:
    the producer has been called once, both callers have returned, and the
    item is left not resolved and without handle. The operation itself ran
    to its end although the token was cancelled. *)
Theorem cancelled_waiter_returns (s : State) (this token1 token2 : nat)
    (it : InlayHintItem) (err : Error) :
  st_items s !! this = Some it ->
  has_resolveInlayHint (_provider it) = true ->
  _currentResolve it = None -> _isResolved it = false ->
  let p := length (st_promises s) in
  let t := length (st_tasks s) in
  let s' := run [EResolve this token1; EResolve this token2; ECancel token2;
                 EAnswer p (inl err); EFinally p; EResume t; EResume (S t)] s in
  st_calls s' = st_calls s ++ [mkCall (pid (_provider it)) (hint it) token1] /\
  st_promises s' = st_promises s ++ [mkOp this (Settled Normal)] /\
  st_tasks s' = st_tasks s ++ [mkTask this token1 Returned; mkTask this token2 Returned] /\
  st_items s' = st_items s /\
  st_sink s' = st_sink s ++ [err].
Proof.
  intros Hit Hhas Hcur Hres p t s'. subst s'.
  assert (Hswap : run [EResolve this token1; EResolve this token2; ECancel token2;
                       EAnswer p (inl err); EFinally p] s
                  = set_cancelled (fun c => token2 :: c)
                      (run [EResolve this token1; EResolve this token2;
                            EAnswer p (inl err); EFinally p] s)).
  { subst p. rewrite (shared_failure_state s this token1 token2 it err Hit Hhas Hcur Hres).
    unfold run. cbn [fold_left].
    rewrite (step_resolve_start this token1 it s Hit Hhas Hcur Hres).
    set (p := length (st_promises s)).
    erewrite (step_resolve_wait this token2 p (set_currentResolve (Some p) it)); [|
      simpl; rewrite list_lookup_alter_eq, Hit; reflexivity | exact Hhas | reflexivity].
    rewrite step_cancel.
    erewrite (step_answer p this (set_currentResolve (Some p) it)).
    2: { simpl. apply list_lookup_middle. reflexivity. }
    2: { simpl. rewrite list_lookup_alter_eq, Hit. reflexivity. }
    rewrite _doResolve_resume_failure.
    erewrite (step_finally p this Normal).
    2: { simpl. rewrite list_lookup_alter_eq, list_lookup_middle by reflexivity.
         reflexivity. }
    apply state_eq; simpl; try reflexivity.
    - apply list_eq. intros i. rewrite !list_lookup_alter.
      destruct (decide (this = i)) as [<-|Hne]; [|reflexivity].
      rewrite !decide_True by reflexivity. rewrite Hit. simpl.
      destruct it; simpl in *; subst; reflexivity.
    - rewrite !alter_app_r_alt by (fold p; lia).
      replace (p - length (st_promises s))%nat with 0%nat by (subst p; lia).
      reflexivity.
    - rewrite <- app_assoc. reflexivity. }
  change [EResolve this token1; EResolve this token2; ECancel token2;
          EAnswer p (inl err); EFinally p; EResume t; EResume (S t)]
    with ([EResolve this token1; EResolve this token2; ECancel token2;
           EAnswer p (inl err); EFinally p] ++ [EResume t; EResume (S t)]).
  rewrite run_app, Hswap. subst p t.
  rewrite (shared_failure_state s this token1 token2 it err Hit Hhas Hcur Hres).
  set (p := length (st_promises s)). set (t := length (st_tasks s)).
  match goal with |- context [run _ ?x] => set (s4 := x) end.
  assert (Hsettled : forall s5, st_promises s5 = st_promises s4 ->
            settlement s5 p = Some Normal).
  { intros s5 Hps. apply settlement_Some. exists this. rewrite Hps. simpl.
    apply list_lookup_middle. reflexivity. }
  assert (E5 : step (EResume t) s4 = set_tasks (alter (set_pc Returned) t) s4).
  { apply (step_resume_final t this token1 p); [|apply Hsettled; reflexivity].
    simpl. apply list_lookup_middle. reflexivity. }
  set (s5 := set_tasks (alter (set_pc Returned) t) s4) in *.
  assert (E6 : step (EResume (S t)) s5 = set_tasks (alter (set_pc Returned) (S t)) s5).
  { apply (step_resume_cancelled (S t) this token2 p); [|apply Hsettled; reflexivity|].
    - simpl. rewrite list_lookup_alter_ne by lia.
      rewrite lookup_app_r by (fold t; lia).
      replace (S t - length (st_tasks s))%nat with 1%nat by (subst t; lia).
      reflexivity.
    - simpl. apply elem_of_cons. auto. }
  unfold run. cbn [fold_left]. rewrite E5, E6. simpl.
  split; [reflexivity|]. split; [reflexivity|]. split; [|auto].
  rewrite !alter_app_r_alt by (fold t; lia).
  replace (S t - length (st_tasks s))%nat with 1%nat by (subst t; lia).
  replace (t - length (st_tasks s))%nat with 0%nat by (subst t; lia).
  reflexivity.
Qed.

Lemma cancelled_waiter_returns_witness :
  st_calls (run [EResolve 0 7; EResolve 0 8; ECancel 8; EAnswer 0 (inl "boom"%string);
                 EFinally 0; EResume 0; EResume 1] one_item) = [mkCall 0 0 7] /\
  st_tasks (run [EResolve 0 7; EResolve 0 8; ECancel 8; EAnswer 0 (inl "boom"%string);
                 EFinally 0; EResume 0; EResume 1] one_item)
  = [mkTask 0 7 Returned; mkTask 0 8 Returned].
Proof.
  pose proof (cancelled_waiter_returns one_item 0 7 8
                (new_InlayHintItem 0 an_anchor PA) "boom"%string
                eq_refl eq_refl eq_refl eq_refl) as (Hcalls & _ & Htasks & _).
  split; [exact Hcalls | exact Htasks].
Defined.

Lemma step_with (this : nat) (a : InlayHintAnchor) (it : InlayHintItem) (s : State) :
  st_items s !! this = Some it ->
  step (EWith this a) s = set_items (fun its => its ++ [with_ it a]) s.
Proof. intros Hit. simpl. rewrite Hit. reflexivity. Qed.

(** X18: a copy made by [with] of an item whose producer can resolve, that
    is not resolved and that holds no handle (its [_currentResolve] is
    undefined: no operation is in flight for it and none has left its
    handle) shares the hint but not the progress: when the original has been resolved afterwards, the copy is
    still not resolved and holds no handle, and a call of [resolve] on it
    calls the producer again for the same hint and starts an operation of
    its own. *)
Theorem copy_resolves_on_its_own (s : State) (this token token' : nat)
    (a : InlayHintAnchor) (it : InlayHintItem) (newHint : option InlayHint) :
  st_items s !! this = Some it ->
  has_resolveInlayHint (_provider it) = true ->
  _currentResolve it = None -> _isResolved it = false ->
  let c := length (st_items s) in
  let p := length (st_promises s) in
  let t := length (st_tasks s) in
  let s1 := run [EWith this a; EResolve this token; EAnswer p (inr newHint);
                 EFinally p; EResume t] s in
  st_items s1 !! this = Some (set_isResolved true it) /\
  st_items s1 !! c = Some (with_ it a) /\
  fresh_item (with_ it a) /\
  hint (with_ it a) = hint it /\
  st_calls (step (EResolve c token') s1)
    = st_calls s ++ [mkCall (pid (_provider it)) (hint it) token;
                     mkCall (pid (_provider it)) (hint it) token'] /\
  st_promises (step (EResolve c token') s1)
    = st_promises s ++ [mkOp this (Settled Normal); mkOp c Running].
Proof.
  intros Hit Hhas Hcur Hres c p t s1.
  pose proof (lookup_lt_Some _ _ _ Hit) as Hlt.
  assert (E1 : s1 = mkState
            (st_hints (snd (_doResolve_resume this (hint it) (inr newHint) s)))
            (alter (set_isResolved true) this (st_items s ++ [with_ it a]))
            (st_promises s ++ [mkOp this (Settled Normal)])
            (st_tasks s ++ [mkTask this token Returned])
            (st_cancelled s)
            (st_calls s ++ [mkCall (pid (_provider it)) (hint it) token])
            (st_sink s)).
  { subst s1.
    change [EWith this a; EResolve this token; EAnswer p (inr newHint); EFinally p; EResume t]
      with ([EWith this a] ++ [EResolve this token; EAnswer p (inr newHint);
                                EFinally p; EResume t]).
    rewrite run_app. unfold run at 2. cbn [fold_left].
    rewrite (step_with this a it s Hit).
    change p with (length (st_promises (set_items (fun its => its ++ [with_ it a]) s))).
    change t with (length (st_tasks (set_items (fun its => its ++ [with_ it a]) s))).
    rewrite (single_resolution_state _ this token it newHint);
      [|simpl; apply lookup_app_l_Some, Hit|exact Hhas|exact Hcur|exact Hres].
    rewrite !_doResolve_resume_result. reflexivity. }
  assert (Hc : st_items s1 !! c = Some (with_ it a)).
  { rewrite E1. simpl. rewrite list_lookup_alter_ne by (subst c; lia).
    apply list_lookup_middle. reflexivity. }
  split.
  { rewrite E1. simpl. rewrite list_lookup_alter_eq, lookup_app_l, Hit by assumption.
    reflexivity. }
  split; [exact Hc|]. split; [split; simpl; assumption|]. split; [reflexivity|].
  rewrite (step_resolve_start c token' (with_ it a) s1 Hc Hhas Hcur Hres).
  rewrite E1. simpl. rewrite <- !app_assoc. auto.
Qed.

Lemma copy_resolves_on_its_own_witness :
  st_calls (step (EResolve 1 9)
              (run [EWith 0 other_anchor; EResolve 0 7; EAnswer 0 (inr None); EFinally 0;
                    EResume 0] one_item))
  = [mkCall 0 0 7; mkCall 0 0 9].
Proof.
  pose proof (copy_resolves_on_its_own one_item 0 7 9 other_anchor
                (new_InlayHintItem 0 an_anchor PA) None
                eq_refl eq_refl eq_refl eq_refl) as (_ & _ & _ & _ & Hcalls & _).
  exact Hcalls.
Defined.
